(** * CreatorsCook virality engine: compliance scoring, insight aggregation,
      AI response validation and scraper dispatch

    A shallow embedding of the pure domain logic of the repository:
    - the script editor service, [src/lib/script-editor-service.ts]
      (module [ScriptEditor]);
    - the ingestion service, [./ingestion-service] (module [Ingestion]);
    - the AI service, [./ai-service] (module [AI]);
    - the scraping manager, [./scraping-service] (module [Scraping]);
    - the suggestions of the script editor service (module [Suggestions])
      and the whole of its [analyzeScript], with the update of the database
      (module [ScriptAnalysis]);
    - the angle reasoning service, [src/lib/supabase-server.ts] (module
      [AngleReasoning]);
    - the configuration of the AI service, [./ai-config] (module [AIConfig]);
    - the URL validation of the product service,
      [src/lib/product-service.ts] (module [ProductService]).

    Conventions of the embedding.
    - A finite JavaScript [number] is the rational it denotes ([Q]).  The
      compliance scorer computes in binary64: each of its operations
      returns the exact result rounded to the nearest binary64 number
      (module [Binary64]), so that its values are those of the code, digit
      for digit.  The sentiments of the ingestion service and the scores
      read from a completion are not rounded: their sums and means are
      exact, and a property of them that rounding would change is not
      stated.  Numbers that come out of [Number(..)] on foreign data also
      carry NaN and the two infinities ([AI.jsnum]).
    - A JavaScript string is a [string] of 8-bit code units, that is a
      string whose code units are all below U+0100; on these [toLowerCase]
      and the [i] flag of regular expressions are the case mapping of
      Latin-1.  Properties that depend on the length or the letters of a
      lower-cased string are properties of such strings only.
    - An exception is a value of a sum type; [try]/[catch] is a match on it. *)

From Stdlib Require Import List String Ascii Bool Arith ZArith QArith Qminmax Lia.
From Stdlib Require Import Qround Qpower Qabs Lqa.
From Stdlib Require Import Sorted Permutation.
From Stdlib Require Floats.
Import ListNotations.

(* ================================================================== *)
(** * Severities and compliance flags ([src/types/product.ts])        *)
(* ================================================================== *)

Inductive Severity := low | medium | high.

Inductive FlagType := tos_violation | brand_rule | suggestion_flag.

Record Position := mkPosition { start : nat; end_ : nat }.

Record ComplianceFlag := mkFlag {
  type : FlagType;
  severity : Severity;
  message : string;
  suggestion : option string;
  position : option Position
}.

Definition Severity_eqb (a b : Severity) : bool :=
  match a, b with
  | low, low | medium, medium | high, high => true
  | _, _ => false
  end.

(* ================================================================== *)
(** * Exceptions                                                      *)
(* ================================================================== *)

Module Js.

(** A thrown value: [TypeError], [SyntaxError] or [new Error(msg)]. *)
Inductive exn :=
| TypeError
| SyntaxError
| Error (msg : string).

(** A computation that returns ([inr]) or throws ([inl]). *)
Definition result (A : Type) : Type := (exn + A)%type.

Definition ret {A} (a : A) : result A := inr a.
Definition throw {A} (e : exn) : result A := inl e.

Definition bind {A B} (c : result A) (k : A -> result B) : result B :=
  match c with
  | inl e => inl e
  | inr a => k a
  end.

(** [try { c } catch (e) { h e }] *)
Definition try_catch {A} (c : result A) (h : exn -> result A) : result A :=
  match c with
  | inl e => h e
  | inr a => inr a
  end.

(** [xs.map(f)] for a callback that may throw: left to right, the first
    exception ends the traversal. *)
Fixpoint map_result {A B} (f : A -> result B) (l : list A) : result (list B) :=
  match l with
  | [] => inr []
  | x :: l' =>
    bind (f x) (fun y => bind (map_result f l') (fun ys => inr (y :: ys)))
  end.

End Js.

Declare Scope js_scope.
Delimit Scope js_scope with js.
Notation "x <- c ;; k" := (Js.bind c (fun x => k))
  (at level 61, c at next level, right associativity) : js_scope.

(* ================================================================== *)
(** * JavaScript strings                                              *)
(* ================================================================== *)

Module JsString.

#[local] Open Scope string_scope.

Definition is_upper (c : ascii) : bool :=
  (65 <=? nat_of_ascii c)%nat && (nat_of_ascii c <=? 90)%nat.

Definition is_lower (c : ascii) : bool :=
  (97 <=? nat_of_ascii c)%nat && (nat_of_ascii c <=? 122)%nat.

Definition is_digit (c : ascii) : bool :=
  (48 <=? nat_of_ascii c)%nat && (nat_of_ascii c <=? 57)%nat.

(** The letters [toLowerCase] changes: [A-Z] and the capital letters of
    Latin-1, U+00C0 to U+00DE without the multiplication sign U+00D7. *)
Definition is_capital (c : ascii) : bool :=
  is_upper c
  || ((192 <=? nat_of_ascii c)%nat && (nat_of_ascii c <=? 222)%nat
      && negb (nat_of_ascii c =? 215)%nat).

Definition lower_char (c : ascii) : ascii :=
  if is_capital c then ascii_of_nat (nat_of_ascii c + 32) else c.

(** [String.prototype.toLowerCase] *)
Fixpoint toLowerCase (s : string) : string :=
  match s with
  | "" => ""
  | String c s' => String (lower_char c) (toLowerCase s')
  end.

(** [s.includes(pat)]: [pat] is a prefix of some suffix of [s]. *)
Fixpoint includes (s pat : string) : bool :=
  if prefix pat s then true
  else match s with
       | "" => false
       | String _ s' => includes s' pat
       end.

(** [s.indexOf(pat)]; [None] stands for the result [-1]. *)
Fixpoint indexOf (s pat : string) : option nat :=
  if prefix pat s then Some 0%nat
  else match s with
       | "" => None
       | String _ s' => option_map S (indexOf s' pat)
       end.

(** [s.slice(i)] for [0 <= i]. *)
Fixpoint drop (i : nat) (s : string) : string :=
  match i, s with
  | O, _ => s
  | S i', String _ s' => drop i' s'
  | S _, "" => ""
  end.

(** [l.join(sep)] *)
Definition join (sep : string) (l : list string) : string := String.concat sep l.

End JsString.

(* ================================================================== *)
(** * Binary64 arithmetic                                             *)
(* ================================================================== *)

(** A finite binary64 number is the rational it denotes.  An operation
    returns the exact result rounded to the nearest binary64 number, a tie
    going to the one whose significand is even; this is also how a decimal
    literal of the source is read.  Results of magnitude [2^1024] and more
    (the infinities of binary64) are outside the model: no computation
    modelled below comes near them. *)
Module Binary64.

#[local] Open Scope Q_scope.

(** [floor (log2 x)] for [0 < x]. *)
Definition ilog2 (x : Q) : Z :=
  if Qle_bool 1 x then Z.log2 (Qfloor x) else (- Z.log2_up (Qceiling (/ x)))%Z.

(** The nearest integer, a tie going to the even one. *)
Definition rne (x : Q) : Z :=
  let f := Qfloor x in
  match Qcompare (x - inject_Z f) (1 # 2) with
  | Lt => f
  | Gt => (f + 1)%Z
  | Eq => if Z.even f then f else (f + 1)%Z
  end.

(** The exponent of the smallest normal number. *)
Definition min_exponent : Z := (-1022)%Z.

(** Rounding of a positive number: 53 significant bits, or the bits above
    [2^-1074] for a number below [2^-1022]. *)
Definition round_pos (x : Q) : Q :=
  let e := Z.max (ilog2 x) min_exponent in
  inject_Z (rne (x * 2 ^ (52 - e))) * 2 ^ (e - 52).

Definition round (x : Q) : Q :=
  Qred (match Qcompare x 0 with
        | Eq => 0
        | Gt => round_pos x
        | Lt => - round_pos (- x)
        end).

(** A decimal literal, and the operators [+], [-] and [/]. *)
Definition double (q : Q) : Q := round q.
Definition add (a b : Q) : Q := round (a + b).
Definition sub (a b : Q) : Q := round (a - b).
Definition div (a b : Q) : Q := round (a / b).

(** The numbers of binary64 below [2^1024]: an integer of at most 53 bits
    times a power of two, the exponent not below that of the subnormal
    numbers. *)
Definition representable (x : Q) : Prop :=
  exists m k, x == inject_Z m * 2 ^ k /\ (Z.abs m <= 2 ^ 53)%Z /\ (-1074 <= k)%Z.

(** The primitive binary64 numbers of the proof assistant, to compare the
    rounding above with: the rational a primitive number denotes, and the
    primitive number nearest to a quotient of two small integers. *)
Definition of_float (f : PrimFloat.float) : option Q :=
  match FloatOps.Prim2SF f with
  | SpecFloat.S754_zero _ => Some 0
  | SpecFloat.S754_finite s m e =>
    Some (Qred ((if s then - inject_Z (Zpos m) else inject_Z (Zpos m)) * 2 ^ e))
  | _ => None
  end.

Definition float_of_Z (z : Z) : PrimFloat.float := PrimFloat.of_uint63 (Uint63.of_Z z).

Definition float_literal (n d : Z) : PrimFloat.float :=
  PrimFloat.div (float_of_Z n) (float_of_Z d).

(** Comparisons of closed numbers, by computation. *)
Ltac by_computation :=
  first [ apply Qle_bool_iff; vm_compute; reflexivity
        | apply Qlt_alt; vm_compute; reflexivity
        | apply Qeq_bool_iff; vm_compute; reflexivity ].

End Binary64.

(* ================================================================== *)
(** * Regular expressions: the fragment used by the services          *)
(* ================================================================== *)

Module Regex.

Import JsString.
#[local] Open Scope string_scope.

(** Pattern syntax.  [StarSet p] is a greedy [X*] whose body [X] matches
    exactly one character ([.*], and the tail of [[a-z]+], [\s+],
    [[A-Z]{2,}]); capture groups do not influence [index] or [match[0]]
    and are not represented. *)
Inductive regex :=
| Eps
| Chr (c : ascii)
| CSet (p : ascii -> bool)
| StarSet (p : ascii -> bool)
| WordB
| Seq (r1 r2 : regex)
| Alt (r1 r2 : regex).

Record RegExp := mkRegExp {
  source : regex;
  ignoreCase : bool;   (* flag i *)
  global : bool        (* flag g *)
}.

Definition is_word_char (c : ascii) : bool :=
  is_upper c || is_lower c || is_digit c || Ascii.eqb c "_".

(** [.] matches anything but a line terminator. *)
Definition dot (c : ascii) : bool :=
  negb (Ascii.eqb c "010" || Ascii.eqb c "013").

(** [\s]: the space, U+0009 to U+000D and the no-break space U+00A0. *)
Definition white (c : ascii) : bool :=
  (Ascii.eqb c " " || ((9 <=? nat_of_ascii c)%nat && (nat_of_ascii c <=? 13)%nat)
   || Ascii.eqb c "160").

Definition char_match (ic : bool) (c x : ascii) : bool :=
  if ic then Ascii.eqb (lower_char c) (lower_char x) else Ascii.eqb c x.

Definition word_before (prev : option ascii) : bool :=
  match prev with Some c => is_word_char c | None => false end.

Definition word_after (s : string) : bool :=
  match s with String c _ => is_word_char c | "" => false end.

(** The matcher is a backtracking matcher in continuation-passing style:
    [prev] is the character before the current position, [s] the input
    from the current position on, [pos] the current index; the result is
    the end index of the whole match. *)
Definition Cont := option ascii -> string -> nat -> option nat.

Fixpoint star_set (p : ascii -> bool) (prev : option ascii) (s : string) (pos : nat)
    (k : Cont) : option nat :=
  match s with
  | String c s' =>
    if p c then
      match star_set p (Some c) s' (S pos) k with
      | Some e => Some e
      | None => k prev s pos
      end
    else k prev s pos
  | "" => k prev s pos
  end.

Fixpoint run (ic : bool) (r : regex) (prev : option ascii) (s : string) (pos : nat)
    (k : Cont) : option nat :=
  match r with
  | Eps => k prev s pos
  | Chr c =>
    match s with
    | String x s' => if char_match ic c x then k (Some x) s' (S pos) else None
    | "" => None
    end
  | CSet p =>
    match s with
    | String x s' => if p x then k (Some x) s' (S pos) else None
    | "" => None
    end
  | StarSet p => star_set p prev s pos k
  | WordB => if xorb (word_before prev) (word_after s) then k prev s pos else None
  | Seq r1 r2 => run ic r1 prev s pos (fun prev' s' pos' => run ic r2 prev' s' pos' k)
  | Alt r1 r2 =>
    match run ic r1 prev s pos k with
    | Some e => Some e
    | None => run ic r2 prev s pos k
    end
  end.

(** A match attempt anchored at [pos]. *)
Definition match_at (re : RegExp) (prev : option ascii) (s : string) (pos : nat) : option nat :=
  run (ignoreCase re) (source re) prev s pos (fun _ _ e => Some e).

(** The leftmost match that starts at [pos] or later: [(index, end)]. *)
Fixpoint search (re : RegExp) (prev : option ascii) (s : string) (pos : nat)
    : option (nat * nat) :=
  match match_at re prev s pos with
  | Some e => Some (pos, e)
  | None =>
    match s with
    | String c s' => search re (Some c) s' (S pos)
    | "" => None
    end
  end.

(** Move to index [i] of the input, remembering the character before it. *)
Fixpoint seek (prev : option ascii) (s : string) (i : nat) {struct i}
    : option (option ascii * string) :=
  match i, s with
  | O, _ => Some (prev, s)
  | S i', String c s' => seek (Some c) s' i'
  | S _, "" => None
  end.

(** [re.exec(content)] with [re.lastIndex = lastIndex]: the index and the
    end ([index + match[0].length]) of the match; [None] is [null].  Only
    a global expression reads and advances [lastIndex]. *)
Definition exec (re : RegExp) (content : string) (lastIndex : nat) : option (nat * nat) :=
  let from := if global re then lastIndex else 0%nat in
  match seek None content from with
  | Some (prev, s) => search re prev s from
  | None => None
  end.

(** The value of [re.lastIndex] after a successful [exec] that ended at [e]. *)
Definition next_lastIndex (re : RegExp) (lastIndex e : nat) : nat :=
  if global re then e else lastIndex.

(** [re.test(s)], and the truth value of [s.match(re)] for a non-global
    expression. *)
Definition test (re : RegExp) (s : string) : bool :=
  match exec re s 0 with Some _ => true | None => false end.

(** [s.replace(re, repl)] for a global [re] and a replacement text without
    [$] patterns: every match, left to right, none overlapping; [skip]
    counts the characters of the current match still to be dropped. *)
Fixpoint replace_go (re : RegExp) (repl : string) (prev : option ascii) (s : string)
    (pos skip : nat) : string :=
  match s with
  | "" =>
    match skip, match_at re prev "" pos with
    | O, Some _ => repl
    | _, _ => ""
    end
  | String c s' =>
    match skip with
    | S skip' => replace_go re repl (Some c) s' (S pos) skip'
    | O =>
      match match_at re prev s pos with
      | Some e =>
        if (e <=? pos)%nat
        then repl ++ String c (replace_go re repl (Some c) s' (S pos) 0)
        else repl ++ replace_go re repl (Some c) s' (S pos) (e - pos - 1)
      | None => String c (replace_go re repl (Some c) s' (S pos) 0)
      end
    end
  end.

Definition replace (re : RegExp) (repl : string) (s : string) : string :=
  replace_go re repl None s 0 0.

(** Pattern builders. *)
Fixpoint lit (s : string) : regex :=
  match s with
  | "" => Eps
  | String c "" => Chr c
  | String c s' => Seq (Chr c) (lit s')
  end.

Fixpoint seqs (l : list regex) : regex :=
  match l with
  | [] => Eps
  | [r] => r
  | r :: l' => Seq r (seqs l')
  end.

Fixpoint alts (l : list regex) : regex :=
  match l with
  | [] => Eps
  | [r] => r
  | r :: l' => Alt r (alts l')
  end.

Definition any_star : regex := StarSet dot.
Definition plus (p : ascii -> bool) : regex := Seq (CSet p) (StarSet p).

(** Every match of the pattern consumes at least one character. *)
Fixpoint consumes (r : regex) : bool :=
  match r with
  | Chr _ | CSet _ => true
  | Eps | StarSet _ | WordB => false
  | Seq r1 r2 => consumes r1 || consumes r2
  | Alt r1 r2 => consumes r1 && consumes r2
  end.

(** A successful run hands the continuation a later position of the same
    input, strictly later when the pattern consumes. *)
Definition advances (strict : bool) (s : string) (pos : nat) (k : Cont) (e : nat) : Prop :=
  exists prev' s' pos',
    k prev' s' pos' = Some e
    /\ (pos <= pos')%nat
    /\ (pos' + String.length s' = pos + String.length s)%nat
    /\ (strict = true -> (pos < pos')%nat).

End Regex.

(* ================================================================== *)
(** * Script editor service: rule engine, score and risk level        *)
(* ================================================================== *)

Module ScriptEditor.

Import JsString Regex.
#[local] Open Scope string_scope.

(** [pattern: string | RegExp]; a string pattern is given by the pattern
    it denotes. *)
Inductive Pattern :=
| PRegExp (re : RegExp)
| PString (src : regex).

Record ComplianceRule := mkRule {
  rule_type : FlagType;
  pattern : Pattern;
  rule_message : string;
  rule_severity : Severity;
  rule_suggestion : option string
}.

Record BrandRule := mkBrandRule {
  forbidden_keywords : list string;
  required_keywords : list string;
  custom_rules : list string
}.

Definition dquote : string := String "034" "".

(** A text between double quotes. *)
Definition quoted (s : string) : string := dquote ++ s ++ dquote.

Definition word_rule (alternatives : list regex) : Pattern :=
  PRegExp (mkRegExp (seqs [WordB; alts alternatives; WordB]) true true).

(** [x.*y] *)
Definition gap (x y : string) : regex := seqs [lit x; any_star; lit y].

(** [tosRules] *)
Definition tosRules : list ComplianceRule :=
  [ mkRule tos_violation
      (word_rule [lit "guarantee"; lit "guaranteed"; lit "promise"; lit "ensure"; lit "certainty"])
      "Avoid making absolute guarantees" high
      (Some ("Use " ++ quoted "may help" ++ " or " ++ quoted "can support" ++ " instead of guarantees"));
    mkRule tos_violation
      (word_rule [gap "lose" "weight"; gap "weight" "loss"; gap "fat" "burner"; gap "diet" "pill"])
      "Weight loss claims are restricted" high
      (Some "Focus on wellness benefits rather than specific weight loss claims");
    mkRule tos_violation
      (word_rule [lit "medical"; lit "cure"; lit "heal"; lit "treat"; lit "prevent"; lit "diagnose"])
      "Avoid medical claims" high
      (Some ("Use " ++ quoted "supports" ++ " or " ++ quoted "helps with" ++ " instead of medical terminology"));
    mkRule tos_violation
      (word_rule [gap "click" "link"; gap "bio" "link"; seqs [lit "link"; any_star; lit "in"; any_star; lit "bio"]])
      "Direct call-to-action language may be restricted" medium
      (Some ("Use " ++ quoted "check description" ++ " or " ++ quoted "see more" ++ " instead of direct link references"));
    mkRule tos_violation
      (word_rule [gap "buy" "now"; lit "purchase"; lit "order"; lit "sale"; gap "discount" "price"])
      "Sales pressure language may be restricted" medium
      (Some "Focus on product benefits rather than direct sales language");
    mkRule tos_violation
      (word_rule [gap "free" "money"; gap "cash" "back"; gap "get" "paid"; gap "earn" "money"])
      "Financial opportunity claims are restricted" high
      (Some "Avoid making income or financial benefit claims") ].

(** The [while ((match = regex.exec(content)) !== null)] loop; [None] when
    the fuel runs out (the loop of the source does not stop when [exec]
    keeps returning a match without advancing [lastIndex]). *)
Fixpoint exec_loop (fuel : nat) (re : RegExp) (content : string) (lastIndex : nat)
    : option (list Position) :=
  match fuel with
  | O => None
  | S fuel' =>
    match exec re content lastIndex with
    | None => Some []
    | Some (index, e) =>
      option_map (cons (mkPosition index e))
                 (exec_loop fuel' re content (next_lastIndex re lastIndex e))
    end
  end.

(** [new RegExp(rule.pattern, rule.pattern.flags || 'gi')] *)
Definition reflag (re : RegExp) : RegExp :=
  if ignoreCase re || global re then re else mkRegExp (source re) true true.

(** [ScriptEditorService.findRuleMatches] *)
Definition findRuleMatches (fuel : nat) (content : string) (rule : ComplianceRule)
    : option (list Position) :=
  match pattern rule with
  | PRegExp re => exec_loop fuel (reflag re) content 0
  | PString src => exec_loop fuel (mkRegExp src true true) content 0
  end.

Definition forbidden_flag (keyword : string) (index : nat) : ComplianceFlag :=
  mkFlag brand_rule high
    ("Forbidden keyword: " ++ quoted keyword)
    (Some "Remove this term as it violates brand guidelines")
    (Some (mkPosition index (index + String.length keyword))).

Definition required_flag (required : list string) : ComplianceFlag :=
  mkFlag brand_rule low
    "Consider including required brand keywords"
    (Some ("Try to include: " ++ join ", " required))
    None.

(** The body of the [forbidden_keywords.forEach]: zero or one flag per
    keyword. *)
Definition forbidden_step (lowerContent : string) (keyword : string) : list ComplianceFlag :=
  if includes lowerContent (toLowerCase keyword) then
    match indexOf lowerContent (toLowerCase keyword) with
    | Some index => [forbidden_flag keyword index]
    | None => []  (* [indexOf] is not [-1] when [includes] holds *)
    end
  else [].

(** [ScriptEditorService.checkBrandRules] *)
Definition checkBrandRules (content : string) (brandRules : BrandRule) : list ComplianceFlag :=
  let lowerContent := toLowerCase content in
  let flags := flat_map (forbidden_step lowerContent) (forbidden_keywords brandRules) in
  if (0 <? List.length (required_keywords brandRules))%nat then
    let hasRequiredKeyword :=
      existsb (fun keyword => includes lowerContent (toLowerCase keyword))
              (required_keywords brandRules) in
    if negb hasRequiredKeyword then (flags ++ [required_flag (required_keywords brandRules)])%list
    else flags
  else flags.

Definition rule_flag (rule : ComplianceRule) (m : Position) : ComplianceFlag :=
  mkFlag (rule_type rule) (rule_severity rule) (rule_message rule) (rule_suggestion rule) (Some m).

(** The flags one rule contributes in [analyzeScript]. *)
Definition rule_flags (fuel : nat) (content : string) (rule : ComplianceRule)
    : option (list ComplianceFlag) :=
  option_map (map (rule_flag rule)) (findRuleMatches fuel content rule).

Fixpoint rules_flags (fuel : nat) (content : string) (rules : list ComplianceRule)
    : option (list ComplianceFlag) :=
  match rules with
  | [] => Some []
  | rule :: rest =>
    match rule_flags fuel content rule, rules_flags fuel content rest with
    | Some fs, Some gs => Some (fs ++ gs)%list
    | _, _ => None
    end
  end.

(** The [complianceFlags] array of [analyzeScript]: the platform rules in
    table order, then the brand rules when a rule set is supplied. *)
Definition complianceFlags (fuel : nat) (content : string) (brandRules : option BrandRule)
    : option (list ComplianceFlag) :=
  match rules_flags fuel content tosRules with
  | Some fs =>
    Some (fs ++ match brandRules with
                | Some br => checkBrandRules content br
                | None => []
                end)%list
  | None => None
  end.

#[local] Open Scope Q_scope.

(** [flag.severity === 'high' ? 0.3 : flag.severity === 'medium' ? 0.15 : 0.05]:
    the binary64 numbers these literals denote. *)
Definition weight (f : ComplianceFlag) : Q :=
  match severity f with
  | high => Binary64.double (3 # 10)
  | medium => Binary64.double (15 # 100)
  | low => Binary64.double (5 # 100)
  end.

(** [Math.min] and [Math.max] on finite numbers. *)
Definition Math_min (a b : Q) : Q := if Qle_bool a b then a else b.
Definition Math_max (a b : Q) : Q := if Qle_bool a b then b else a.

(** [ScriptEditorService.calculateComplianceScore], in binary64: the
    [forEach] is a left fold that subtracts one weight per flag, in list
    order, each subtraction rounded; [contentLength] is an integer, which
    binary64 holds exactly. *)
Definition calculateComplianceScore (flags : list ComplianceFlag) (contentLength : nat) : Q :=
  match flags with
  | [] => 1
  | _ =>
    let totalScore :=
      fold_left (fun acc flag => Binary64.sub acc (weight flag)) flags 1 in
    let lengthBonus :=
      Math_min (Binary64.double (1 # 10))
               (Binary64.div (inject_Z (Z.of_nat contentLength)) 1000) in
    let totalScore := Binary64.add totalScore lengthBonus in
    Math_max 0 (Math_min 1 totalScore)
  end.

Inductive RiskLevel := risk_low | risk_medium | risk_high.

Definition count_severity (s : Severity) (flags : list ComplianceFlag) : nat :=
  List.length (filter (fun f => Severity_eqb (severity f) s) flags).

(** [ScriptEditorService.determineRiskLevel] *)
Definition determineRiskLevel (flags : list ComplianceFlag) : RiskLevel :=
  let highSeverityFlags := count_severity high flags in
  let mediumSeverityFlags := count_severity medium flags in
  if (0 <? highSeverityFlags)%nat then risk_high
  else if (2 <? mediumSeverityFlags)%nat then risk_high
  else if ((0 <? mediumSeverityFlags)%nat || (3 <? List.length flags)%nat)%bool then risk_medium
  else risk_low.

(** The analysis proper of [analyzeScript]: the flags, the score and the
    risk level it computes.  The suggestions, the update of the database
    and the error the method throws are in [ScriptAnalysis.analyzeScript]. *)
Record ScriptAnalysisResult := mkAnalysis {
  compliance_flags : list ComplianceFlag;
  overall_compliance_score : Q;
  risk_level : RiskLevel
}.

Definition analyzeScript (fuel : nat) (content : string) (brandRules : option BrandRule)
    : option ScriptAnalysisResult :=
  match complianceFlags fuel content brandRules with
  | Some flags =>
    Some (mkAnalysis flags
            (calculateComplianceScore flags (String.length content))
            (determineRiskLevel flags))
  | None => None
  end.

(** The closed formula of the specification for the score, in exact
    arithmetic. *)
Definition clamp01 (x : Q) : Q := Qmax 0 (Qmin 1 x).

Definition count_q (s : Severity) (flags : list ComplianceFlag) : Q :=
  inject_Z (Z.of_nat (count_severity s flags)).

Definition score_formula (flags : list ComplianceFlag) (n : nat) : Q :=
  clamp01 (1 - (3 # 10) * count_q high flags
             - (15 # 100) * count_q medium flags
             - (5 # 100) * count_q low flags
             + Qmin (1 # 10) (inject_Z (Z.of_nat n) / 1000)).

(** The steps of the specification carried out in binary64, in the order of
    the flags: start at 1.0, subtract the weight of each flag, add the
    length bonus, clamp.  There is no early return. *)
Definition score_by_steps (flags : list ComplianceFlag) (n : nat) : Q :=
  clamp01
    (Binary64.add
       (fold_left (fun acc flag => Binary64.sub acc (weight flag)) flags 1)
       (Qmin (Binary64.double (1 # 10)) (Binary64.div (inject_Z (Z.of_nat n)) 1000))).

(** The value of [totalScore] after the [forEach], from a given start, and
    the value of [lengthBonus]. *)
Definition deducted (flags : list ComplianceFlag) (start : Q) : Q :=
  fold_left (fun acc flag => Binary64.sub acc (weight flag)) flags start.

Definition lengthBonus (contentLength : nat) : Q :=
  Math_min (Binary64.double (1 # 10))
           (Binary64.div (inject_Z (Z.of_nat contentLength)) 1000).

(** The weights of the specification, in exact arithmetic. *)
Definition exact_weight (f : ComplianceFlag) : Q :=
  match severity f with
  | high => 3 # 10
  | medium => 15 # 100
  | low => 5 # 100
  end.

(** The running total in exact arithmetic. *)
Definition exact_deducted (flags : list ComplianceFlag) (start : Q) : Q :=
  fold_left (fun acc flag => acc - exact_weight flag) flags start.

(** Some flag of the list has the given severity. *)
Definition has_severity (s : Severity) (flags : list ComplianceFlag) : Prop :=
  exists f, In f flags /\ severity f = s.

(** The two conditions of the classifier, as the specification words them. *)
Definition high_condition (flags : list ComplianceFlag) : Prop :=
  has_severity high flags \/ (2 < count_severity medium flags)%nat.

Definition medium_condition (flags : list ComplianceFlag) : Prop :=
  has_severity medium flags \/ (3 < List.length flags)%nat.

(** [pat] occurs in [s] at index [i], and nowhere before. *)
Definition occurs_at (s pat : string) (i : nat) : Prop :=
  (i <= String.length s)%nat /\ prefix pat (drop i s) = true.

Definition first_occurrence (s pat : string) (i : nat) : Prop :=
  occurs_at s pat i /\ forall j, (j < i)%nat -> prefix pat (drop j s) = false.

(** [keyword] occurs in [content] as a substring, letter case ignored. *)
Definition occurs (content keyword : string) : Prop :=
  exists i, occurs_at (toLowerCase content) (toLowerCase keyword) i.

(** A match attempt of [re] anchored at index [j] of [content]. *)
Definition attempt (re : RegExp) (content : string) (j : nat) : option nat :=
  match seek None content j with
  | Some (prev, s) => match_at re prev s j
  | None => None
  end.

(** [ms] are the matches of [re] in [content] from index [from] on, as a
    global scan meets them: each one the leftmost match that starts at or
    after the end of the one before, and no match left out in between or
    after the last. *)
Inductive successive (re : RegExp) (content : string) : nat -> list Position -> Prop :=
| successive_done from :
    (forall j, (from <= j)%nat -> attempt re content j = None) ->
    successive re content from []
| successive_next from i e ms :
    (from <= i)%nat ->
    attempt re content i = Some e ->
    (forall j, (from <= j < i)%nat -> attempt re content j = None) ->
    successive re content e ms ->
    successive re content from (mkPosition i e :: ms).


End ScriptEditor.

(* ================================================================== *)
(** * Ingestion service: themes, sentiment, quotes, aggregation       *)
(* ================================================================== *)

Module Ingestion.

Import JsString Regex.
#[local] Open Scope string_scope.

(** The fields of [ScrapedReviewData] that [processReviews] reads. *)
Record ScrapedReviewData := mkReview {
  rating : Q;
  title : option string;
  content : string
}.

Record ThemeInsight := mkInsight {
  theme : string;
  sentiment : Q;
  mentions : nat;
  example_quotes : list string
}.

Record ProcessedInsights := mkInsights {
  pain_points : list ThemeInsight;
  delight_factors : list ThemeInsight
}.

(** [IngestionService.calculateSentiment] *)
Definition calculateSentiment (rating : Q) : Q := ((rating - 3) / 2)%Q.

(** A non-global, case-insensitive alternation of words: [/a|b|c/i]. *)
Definition words (l : list string) : RegExp := mkRegExp (alts (map lit l)) true false.

Definition theme_table : list (RegExp * string) :=
  [ (words ["taste"; "flavor"; "gross"; "delicious"; "yummy"; "awful"; "good"; "bad"], "taste_quality");
    (words ["price"; "cost"; "expensive"; "cheap"; "worth"; "value"; "money"], "price_value");
    (words ["work"; "result"; "effect"; "effective"; "useless"; "help"; "improve"; "better"; "worse"],
     "effectiveness");
    (words ["quality"; "build"; "durable"; "cheaply"; "sturdy"; "fragile"; "well-made"; "poorly-made"],
     "build_quality");
    (words ["service"; "support"; "customer"; "help"; "response"; "reply"; "company"; "seller"],
     "customer_service");
    (words ["shipping"; "delivery"; "arrive"; "package"; "box"; "damaged"; "fast"; "slow"],
     "shipping_delivery");
    (words ["easy"; "difficult"; "hard"; "simple"; "complicated"; "use"; "operate"; "setup"],
     "ease_of_use");
    (words ["size"; "fit"; "large"; "small"; "big"; "tight"; "loose"; "comfortable"; "uncomfortable"],
     "size_fit");
    (words ["battery"; "charge"; "last"; "long"; "short"; "power"; "dead"], "battery_life");
    (words ["look"; "appearance"; "color"; "design"; "beautiful"; "ugly"; "attractive"; "stylish"],
     "appearance");
    (words ["smell"; "odor"; "scent"; "aroma"; "fragrance"; "stink"; "fresh"; "bad smell"],
     "smell_aroma") ].

(** [IngestionService.extractThemes]: one [if (content.match(..)) push]
    per table row, in order. *)
Definition extractThemes (content : string) : list string :=
  let themes :=
    flat_map (fun row => if test (fst row) content then [snd row] else []) theme_table in
  match themes with
  | [] => ["general_experience"]
  | _ => themes
  end.

(** [/\b[A-Z][a-z]+\s+[A-Z][a-z]+\b/g] and [/\b[A-Z]{2,}\b/g] *)
Definition brand_name_re : RegExp :=
  mkRegExp (seqs [WordB; CSet is_upper; plus is_lower; plus white;
                  CSet is_upper; plus is_lower; WordB]) false true.

Definition all_caps_re : RegExp :=
  mkRegExp (seqs [WordB; CSet is_upper; CSet is_upper; StarSet is_upper; WordB]) false true.

Definition phrase (s : string) : RegExp := mkRegExp (lit s) true true.

Definition replacements : list (RegExp * string) :=
  [ (phrase "absolutely wonderful", "really good");
    (phrase "terrible awful", "very bad");
    (phrase "completely useless", "did not work");
    (phrase "exceeded expectations", "better than expected");
    (phrase "highly recommend", "would recommend");
    (phrase "waste of money", "not worth the price");
    (phrase "love this product", "really like this");
    (phrase "hate this product", "dislike this") ].

(** [IngestionService.transformQuote] *)
Definition transformQuote (content : string) (title : option string) : string :=
  let transformed := content in
  let transformed := replace brand_name_re "this product" transformed in
  let transformed := replace all_caps_re "this brand" transformed in
  let transformed :=
    fold_left (fun t row => replace (fst row) (snd row) t) replacements transformed in
  match title with
  | Some t => if String.eqb t "" then transformed else t ++ ": " ++ transformed
  | None => transformed
  end.

(** The value type of the two [Map]s of [processReviews]. *)
Record Bucket := mkBucket {
  b_sentiment : Q;
  b_mentions : nat;
  b_quotes : list string
}.

(** A [Map<string, Bucket>]: the entries in insertion order. *)
Definition ThemeMap := list (string * Bucket).

Fixpoint has (m : ThemeMap) (k : string) : bool :=
  match m with
  | [] => false
  | (k', _) :: m' => if String.eqb k' k then true else has m' k
  end.

Fixpoint get (m : ThemeMap) (k : string) : option Bucket :=
  match m with
  | [] => None
  | (k', v) :: m' => if String.eqb k' k then Some v else get m' k
  end.

(** [m.set(k, v)] for a key that is not in the map. *)
Definition set_new (m : ThemeMap) (k : string) (v : Bucket) : ThemeMap := (m ++ [(k, v)])%list.

(** Mutation of the object stored under [k]. *)
Fixpoint mutate (m : ThemeMap) (k : string) (f : Bucket -> Bucket) : ThemeMap :=
  match m with
  | [] => []
  | (k', v) :: m' =>
    if String.eqb k' k then (k', f v) :: m' else (k', v) :: mutate m' k f
  end.

(** [if (!m.has(theme)) m.set(theme, {0, 0, []}); const p = m.get(theme)!;
     p.sentiment += sentiment; p.mentions += 1; p.quotes.push(quote)] *)
Definition record_mention (m : ThemeMap) (theme : string) (sentiment : Q) (quote : string)
    : ThemeMap :=
  let m := if has m theme then m else set_new m theme (mkBucket 0 0 []) in
  mutate m theme
    (fun point => mkBucket (b_sentiment point + sentiment)%Q
                           (b_mentions point + 1)
                           (b_quotes point ++ [quote])%list).

Definition Qlt_bool (a b : Q) : bool := negb (Qle_bool b a).

(** The two maps, threaded through the loops. *)
Definition Maps := (ThemeMap * ThemeMap)%type.

(** The body of [for (const theme of themes)]. *)
Definition route (sentiment : Q) (quote : string) (st : Maps) (theme : string) : Maps :=
  let '(painPoints, delightFactors) := st in
  if Qlt_bool sentiment 0 then
    (record_mention painPoints theme sentiment quote, delightFactors)
  else if Qlt_bool (3 # 10) sentiment then
    (painPoints, record_mention delightFactors theme sentiment quote)
  else st.

(** The body of [for (const review of reviews)]. *)
Definition process_review (st : Maps) (review : ScrapedReviewData) : Maps :=
  let content := toLowerCase (content review) in
  let sentiment := calculateSentiment (rating review) in
  let themes := extractThemes content in
  fold_left
    (fun st theme => route sentiment (transformQuote (Ingestion.content review) (title review)) st theme)
    themes st.

(** A stable sort by [b.mentions - a.mentions]. *)
Fixpoint insert_by_mentions (x : ThemeInsight) (l : list ThemeInsight) : list ThemeInsight :=
  match l with
  | [] => [x]
  | y :: l' =>
    if (mentions y <=? mentions x)%nat then x :: l else y :: insert_by_mentions x l'
  end.

Definition sort_by_mentions (l : list ThemeInsight) : list ThemeInsight :=
  fold_right insert_by_mentions [] l.

(** [Array.from(m.entries()).map(..).filter(..).sort(..)] *)
Definition finalize (m : ThemeMap) : list ThemeInsight :=
  sort_by_mentions
    (filter (fun p => (1 <=? mentions p)%nat)
       (map (fun entry =>
               let '(theme, data) := entry in
               mkInsight theme
                 (b_sentiment data / inject_Z (Z.of_nat (b_mentions data)))%Q
                 (b_mentions data)
                 (firstn 3 (b_quotes data)))
            m)).

(** [IngestionService.processReviews] *)
Definition processReviews (reviews : list ScrapedReviewData) : ProcessedInsights :=
  let '(painPoints, delightFactors) := fold_left process_review reviews ([], []) in
  mkInsights (finalize painPoints) (finalize delightFactors).

(** The end-to-end scenario of the specification. *)
Definition scenario_reviews : list ScrapedReviewData :=
  [ mkReview 5 None "amazing taste and great energy";
    mkReview 1 None "terrible taste, waste of money";
    mkReview 2 None "bad taste" ].

End Ingestion.

(* ================================================================== *)
(** * AI service: validation of the completion provider's answer      *)
(* ================================================================== *)

Module AI.

Import Js JsString Regex.
#[local] Open Scope string_scope.
#[local] Open Scope js_scope.

(** A JavaScript number that may come from foreign data. *)
Inductive jsnum :=
| JNaN
| JInf (negative : bool)
| JFin (q : Q).

(** What [JSON.parse] returns; an object is the list of its own
    properties. *)
#[warnings="-register-all"]
Inductive json :=
| JNull
| JBool (b : bool)
| JNum (n : jsnum)
| JStr (s : string)
| JArr (items : list json)
| JObj (fields : list (string * json)).

Fixpoint lookup (fields : list (string * json)) (name : string) : option json :=
  match fields with
  | [] => None
  | (k, v) :: rest => if String.eqb k name then Some v else lookup rest name
  end.

(** [v.name] for the property names the service reads (none of them is
    inherited): [None] is [undefined]; reading a property of [null]
    throws. *)
Definition get_prop (v : json) (name : string) : result (option json) :=
  match v with
  | JNull => throw TypeError
  | JObj fields => ret (lookup fields name)
  | _ => ret None
  end.

(** Truthiness, as tested by [||]. *)
Definition truthy (v : option json) : bool :=
  match v with
  | None | Some JNull => false
  | Some (JBool b) => b
  | Some (JNum JNaN) => false
  | Some (JNum (JInf _)) => true
  | Some (JNum (JFin q)) => negb (Qeq_bool q 0)
  | Some (JStr s) => negb (String.eqb s "")
  | Some (JArr _) | Some (JObj _) => true
  end.

(** [v || d] for a string literal [d]. *)
Definition or_default (v : option json) (d : string) : json :=
  match v with
  | Some x => if truthy v then x else JStr d
  | None => JStr d
  end.

(** [Array.isArray(v) ? Some items : None] *)
Definition as_array (v : option json) : option (list json) :=
  match v with
  | Some (JArr items) => Some items
  | _ => None
  end.

Record AIService := mkService { model : string }.

Record ViralityPackGeneration := mkPack {
  angle_name : string;
  core_angle : string;
  hook_options : list string;
  full_script : string;
  visual_pacing_notes : string;
  audio_suggestion : string;
  sentiment_score : Q;
  virality_score : Q
}.

Record ViralityAnalysisOutput := mkOutput {
  overall_sentiment_score : Q;
  overall_virality_potential : Q;
  key_insights : list json;
  virality_packs : list ViralityPackGeneration;
  recommendations : list json
}.

(** [AIService.getFallbackAnalysis] *)
Definition fallback_pack : ViralityPackGeneration :=
  mkPack "Problem-Solution"
    "Address common customer pain points with your product as the solution"
    [ "Tired of dealing with [common problem]?";
      "Finally found a solution for [problem]";
      "This changed everything for me..." ]
    "Stop struggling with [pain point]... I found this product that actually works! [show product] It helped me [benefit] and now I can't imagine life without it. Link in bio to try it yourself! #[relevant_hashtags]"
    "0-3s: show pain point; 3-5s: reveal product; 5-12s: demonstrate benefits; 12-15s: call to action"
    "Problem-solving trending audio"
    (3 # 10) (6 # 10).

Definition getFallbackAnalysis : ViralityAnalysisOutput :=
  mkOutput (2 # 10) (6 # 10)
    [ JStr "Product has mixed customer reviews";
      JStr "Focus on addressing common pain points";
      JStr "Highlight unique value proposition" ]
    [ fallback_pack ]
    [ JStr "Focus on authentic testimonials";
      JStr "Show before/after results";
      JStr "Use trending audio formats";
      JStr "Keep content under 30 seconds";
      JStr "Include clear call-to-action" ].

(** [/\{[\s\S]*\}/] and [/\[[\s\S]*\]/] *)
Definition anything : regex := StarSet (fun _ => true).
Definition braces_re : RegExp := mkRegExp (seqs [Chr "{"; anything; Chr "}"]) false false.
Definition brackets_re : RegExp := mkRegExp (seqs [Chr "["; anything; Chr "]"]) false false.

(** [text.match(re)]: the matched text [m[0]], [None] for [null]. *)
Definition match0 (re : RegExp) (text : string) : option string :=
  match exec re text 0 with
  | Some (index, e) => Some (substring index (e - index) text)
  | None => None
  end.

(** Structural induction on [json], through the lists. *)
Section json_induction.

Variable P : json -> Prop.
Hypothesis Hnull : P JNull.
Hypothesis Hbool : forall b, P (JBool b).
Hypothesis Hnum : forall n, P (JNum n).
Hypothesis Hstr : forall s, P (JStr s).
Hypothesis Harr : forall items, Forall P items -> P (JArr items).
Hypothesis Hobj : forall fields, Forall (fun kv => P (snd kv)) fields -> P (JObj fields).

Fixpoint json_induction (v : json) : P v :=
  match v with
  | JNull => Hnull
  | JBool b => Hbool b
  | JNum n => Hnum n
  | JStr s => Hstr s
  | JArr items =>
    Harr items
      ((fix go (l : list json) : Forall P l :=
          match l with
          | [] => Forall_nil P
          | x :: l' => Forall_cons x (json_induction x) (go l')
          end) items)
  | JObj fields =>
    Hobj fields
      ((fix go (l : list (string * json)) : Forall (fun kv => P (snd kv)) l :=
          match l with
          | [] => Forall_nil _
          | kv :: l' => Forall_cons kv (json_induction (snd kv)) (go l')
          end) fields)
  end.

End json_induction.

(** [String(v)] does not throw: no object met by the conversion has an own
    property [toString]. *)
Fixpoint stringable (v : json) : bool :=
  match v with
  | JArr items => forallb stringable items
  | JObj fields =>
    match lookup fields "toString" with
    | Some _ => false
    | None => true
    end
  | _ => true
  end.

Definition stringable_opt (v : option json) : bool :=
  match v with Some x => stringable x | None => true end.

(** A pack whose properties can be read and converted: not [null], and
    every property value [stringable]. *)
Definition readable (pack : json) : bool :=
  match pack with
  | JNull => false
  | JObj fields => forallb (fun kv => stringable (snd kv)) fields
  | _ => true
  end.

(** [pack.hook_options], when [pack] is an object. *)
Definition hooks_of (pack : json) : option json :=
  match pack with
  | JObj fields => lookup fields "hook_options"
  | _ => None
  end.

(** The number of hooks [validateViralityPack] hands on. *)
Definition hook_count (pack : json) : nat :=
  match as_array (hooks_of pack) with
  | Some items => List.length items
  | None => 1
  end.

Definition dquote : string := String "034" "".
Definition quoted (s : string) : string := dquote ++ s ++ dquote.

(** An answer of the completion provider with a negative virality
    potential, and the object [JSON.parse] makes of it. *)
Definition negative_potential_text : string :=
  "{" ++ quoted "overall_virality_potential" ++ ": -0.7}".

Definition negative_potential_json : json :=
  JObj [("overall_virality_potential", JNum (JFin (- (7 # 10))))].

(** A pack with a negative virality score. *)
Definition negative_score_pack : json :=
  JObj [("virality_score", JNum (JFin (- (1 # 2))))].

(** [JSON.parse] on the one text the example about [{}] needs. *)
Definition parse_empty_object (text : string) : option json :=
  if String.eqb text "{}" then Some (JObj []) else None.

Section Service.

(** The built-ins the service relies on: [JSON.parse] ([None] when it
    throws [SyntaxError]), the conversion of a number to a string and of a
    string to a number. *)
Variable JSON_parse : string -> option json.
Variable Number_toString : jsnum -> string.
Variable StringToNumber : string -> jsnum.

Definition bool_toString (b : bool) : string := if b then "true" else "false".

(** [String(v)].  An object from [JSON.parse] has no callable [toString]
    of its own: with an own property of that name the conversion throws,
    without one [Object.prototype.toString] answers. *)
Fixpoint ToString (v : json) : result string :=
  match v with
  | JNull => ret "null"
  | JBool b => ret (bool_toString b)
  | JNum n => ret (Number_toString n)
  | JStr s => ret s
  | JArr items =>
    (fix join_items (l : list json) : result string :=
       match l with
       | [] => ret ""
       | x :: l' =>
         s <- match x with JNull => ret "" | _ => ToString x end ;;
         match l' with
         | [] => ret s
         | _ => r <- join_items l' ;; ret (s ++ "," ++ r)
         end
       end) items
  | JObj fields =>
    match lookup fields "toString" with
    | Some _ => throw TypeError
    | None => ret "[object Object]"
    end
  end.

(** [Number(v)] *)
Definition ToNumber (v : option json) : result jsnum :=
  match v with
  | None => ret JNaN
  | Some JNull => ret (JFin 0)
  | Some (JBool b) => ret (JFin (if b then 1 else 0))
  | Some (JNum n) => ret n
  | Some (JStr s) => ret (StringToNumber s)
  | Some (JArr items) => s <- ToString (JArr items) ;; ret (StringToNumber s)
  | Some (JObj fields) =>
    match lookup fields "toString" with
    | Some _ => throw TypeError
    | None => ret JNaN
    end
  end.

Definition Math_min (a b : Q) : Q := if Qle_bool a b then a else b.
Definition Math_max (a b : Q) : Q := if Qle_bool a b then b else a.

(** [AIService.ensureNumber(value, defaultValue, min = -1, max = 1)] *)
Definition ensureNumber (value : option json) (defaultValue : Q) (min max : Q) : result Q :=
  num <- ToNumber value ;;
  match num with
  | JNaN => ret defaultValue
  | JFin q => ret (Math_max min (Math_min max q))
  | JInf false => ret (Math_max min max)
  | JInf true => ret min
  end.

(** [this.ensureNumber]: reading a property of an undefined [this]
    throws. *)
Definition this_ensureNumber (this : option AIService)
    : result (option json -> Q -> Q -> Q -> result Q) :=
  match this with
  | Some _ => ret ensureNumber
  | None => throw TypeError
  end.

(** [String(pack.name || d)] *)
Definition string_field (pack : json) (name d : string) : result string :=
  v <- get_prop pack name ;; ToString (or_default v d).

(** [AIService.validateViralityPack], a method: [this] is its receiver,
    [None] when the function is called without one. *)
Definition validateViralityPack (this : option AIService) (pack : json)
    : result ViralityPackGeneration :=
  angle_name <- string_field pack "angle_name" "Untitled Angle" ;;
  core_angle <- string_field pack "core_angle" "Focus on product benefits" ;;
  hooks <- get_prop pack "hook_options" ;;
  hook_options <- match as_array hooks with
                  | Some items => map_result ToString items
                  | None => ret ["Try this amazing product!"]
                  end ;;
  full_script <- string_field pack "full_script"
                   "This product is amazing! You should try it. Link in bio!" ;;
  visual_pacing_notes <- string_field pack "visual_pacing_notes"
                           "Show product, speak to camera, call to action" ;;
  audio_suggestion <- string_field pack "audio_suggestion" "Upbeat trending audio" ;;
  ensure <- this_ensureNumber this ;;
  sentiment <- get_prop pack "sentiment_score" ;;
  sentiment_score <- ensure sentiment 0 (-1) 1 ;;
  ensure' <- this_ensureNumber this ;;
  virality <- get_prop pack "virality_score" ;;
  virality_score <- ensure' virality (1 # 2) (-1) 1 ;;
  ret (mkPack angle_name core_angle hook_options full_script visual_pacing_notes
              audio_suggestion sentiment_score virality_score).

(** [xs.map(this.validateViralityPack)]: [map] calls the function it is
    given without a receiver. *)
Definition map_validate (this : AIService) (packs : list json)
    : result (list ViralityPackGeneration) :=
  let callback := validateViralityPack in
  map_result (callback None) packs.

(** The [try] block of [parseViralityAnalysis]. *)
Definition parse_body (this : AIService) (response : string) : result ViralityAnalysisOutput :=
  match match0 braces_re response with
  | None => throw (Error "No JSON found in AI response")
  | Some text =>
    match JSON_parse text with
    | None => throw SyntaxError
    | Some parsed =>
      s <- get_prop parsed "overall_sentiment_score" ;;
      overall_sentiment_score <- ensureNumber s 0 (-1) 1 ;;
      p <- get_prop parsed "overall_virality_potential" ;;
      overall_virality_potential <- ensureNumber p (1 # 2) (-1) 1 ;;
      ki <- get_prop parsed "key_insights" ;;
      let key_insights := match as_array ki with Some l => l | None => [] end in
      vp <- get_prop parsed "virality_packs" ;;
      virality_packs <- match as_array vp with
                        | Some l => map_validate this l
                        | None => ret []
                        end ;;
      rs <- get_prop parsed "recommendations" ;;
      let recommendations := match as_array rs with Some l => l | None => [] end in
      ret (mkOutput overall_sentiment_score overall_virality_potential key_insights
                    virality_packs recommendations)
    end
  end.

(** [AIService.parseViralityAnalysis] *)
Definition parseViralityAnalysis (this : AIService) (response : string)
    : result ViralityAnalysisOutput :=
  try_catch (parse_body this response) (fun _ => ret getFallbackAnalysis).

(** [AIService.generateAdditionalPacks]; [answer] is what the second call
    to the completion provider returns or throws. *)
Definition generateAdditionalPacks (this : AIService)
    (existingPacks : list ViralityPackGeneration) (answer : result string)
    : result (list ViralityPackGeneration) :=
  if (5 <=? List.length existingPacks)%nat then ret []
  else
    try_catch
      (text <- answer ;;
       inner <- try_catch
                  (match match0 brackets_re text with
                   | Some m =>
                     match JSON_parse m with
                     | None => throw SyntaxError
                     | Some additionalPacks =>
                       match as_array (Some additionalPacks) with
                       | Some l => packs <- map_validate this l ;; ret (Some packs)
                       | None => ret (Some [])
                       end
                     end
                   | None => ret None
                   end)
                  (fun _ => ret None) ;;
       match inner with
       | Some packs => ret packs
       | None => ret []
       end)
      (fun _ => ret []).

(** [AIService.generateViralityPacks]; [first] and [second] are the
    outcomes of the two calls to the completion provider. *)
Definition generateViralityPacks (this : AIService) (first second : result string)
    : result ViralityAnalysisOutput :=
  try_catch
    (text <- first ;;
     analysis <- parseViralityAnalysis this text ;;
     additionalPacks <- generateAdditionalPacks this (virality_packs analysis) second ;;
     ret (mkOutput (overall_sentiment_score analysis)
                   (overall_virality_potential analysis)
                   (key_insights analysis)
                   (virality_packs analysis ++ additionalPacks)%list
                   (recommendations analysis)))
    (fun _ => throw (Error "Failed to generate AI-powered virality insights")).

End Service.

End AI.

(* ================================================================== *)
(** * Scraping manager: dispatch on the URL                           *)
(* ================================================================== *)

Module Scraping.

Import Js JsString.
#[local] Open Scope string_scope.

(** The parts of a parsed [URL] the scrapers look at. *)
Record URL := mkURL { hostname : string; pathname : string }.

Inductive Scraper :=
| TikTokShopScraper
| AmazonScraper
| AliExpressScraper
| GenericExternalScraper.

Record ScrapingResult (Data : Type) := mkResult {
  success : bool;
  data : option Data;
  error : option string
}.

Arguments mkResult {Data} _ _ _.
Arguments success {Data} _.
Arguments data {Data} _.
Arguments error {Data} _.

(** What a connector can throw, as the [catch] of [scrapeProduct] sees it:
    an [Error] of whatever class, with its message, or a value that is not
    an [Error]. *)
Inductive thrown :=
| ThrownError (message : string)
| ThrownValue.

Section Manager.

(** [new URL(url)]; [None] when the constructor throws. *)
Variable URL_parse : string -> option URL.

(** What a scraper brings back: product data, reviews, warning. *)
Variable Data : Type.

(** [scraper.scrapeProduct(url)] of the four connectors: it throws ([inl])
    or returns ([inr]). *)
Variable connector : Scraper -> string -> thrown + ScrapingResult Data.

(** [canHandle] of each scraper class. *)
Definition canHandle (s : Scraper) (url : string) : bool :=
  match s with
  | AmazonScraper =>
    match URL_parse url with
    | Some u => includes (hostname u) "amazon.com" || includes (hostname u) "amzn.to"
    | None => false
    end
  | AliExpressScraper =>
    match URL_parse url with
    | Some u => includes (hostname u) "aliexpress.com"
                || includes (hostname u) "s.click.aliexpress.com"
    | None => false
    end
  | TikTokShopScraper =>
    match URL_parse url with
    | Some u => includes (hostname u) "tiktok.com" && includes (pathname u) "/shop/"
    | None => false
    end
  | GenericExternalScraper => true
  end.

(** The [scrapers] array built by the constructor. *)
Definition scrapers : list Scraper :=
  [TikTokShopScraper; AmazonScraper; AliExpressScraper; GenericExternalScraper].

Definition failure (msg : string) : ScrapingResult Data :=
  mkResult false None (Some msg).

(** [error instanceof Error ? error.message : otherwise] *)
Definition error_message (e : thrown) (otherwise : string) : string :=
  match e with
  | ThrownError message => message
  | ThrownValue => otherwise
  end.

(** [ScrapingManager.scrapeProduct] *)
Definition scrapeProduct (url : string) : ScrapingResult Data :=
  match find (fun s => canHandle s url) scrapers with
  | None => failure "No suitable scraper found for this URL"
  | Some scraper =>
    match connector scraper url with
    | inr r => r
    | inl e => failure (error_message e "Scraping failed")
    end
  end.

(** [ScrapingManager.getPlatform] *)
Definition getPlatform (url : string) : string :=
  if canHandle AmazonScraper url then "amazon"
  else if canHandle AliExpressScraper url then "aliexpress"
  else if canHandle TikTokShopScraper url then "tiktok_shop"
  else "external".

End Manager.

End Scraping.

(* ================================================================== *)
(** * Script editor service: the AI suggestions                       *)
(* ================================================================== *)

Module Suggestions.

Import Js JsString AI.
#[local] Open Scope string_scope.
#[local] Open Scope js_scope.

(** [StreamingScriptSuggestion]; [type] is whatever truthy value the
    answer holds under that name, [confidence] a JavaScript number. *)
Record StreamingScriptSuggestion := mkSuggestion {
  s_type : json;
  s_content : string;
  s_reason : string;
  confidence : jsnum
}.

(** [n || 0.5] *)
Definition or_half (n : jsnum) : jsnum :=
  match n with
  | JNaN => JFin (1 # 2)
  | JFin q => if Qeq_bool q 0 then JFin (1 # 2) else n
  | JInf _ => n
  end.

(** [Math.max(0, n)] and [Math.min(1, n)] *)
Definition max_0 (n : jsnum) : jsnum :=
  match n with
  | JNaN => JNaN
  | JFin q => JFin (if Qle_bool 0 q then q else 0)
  | JInf false => JInf false
  | JInf true => JFin 0
  end.

Definition min_1 (n : jsnum) : jsnum :=
  match n with
  | JNaN => JNaN
  | JFin q => JFin (if Qle_bool 1 q then 1 else q)
  | JInf false => JFin 1
  | JInf true => JInf true
  end.

Section Service.

Variable JSON_parse : string -> option json.
Variable Number_toString : jsnum -> string.
Variable StringToNumber : string -> jsnum.

(** [ScriptEditorService.validateSuggestion] *)
Definition validateSuggestion (suggestion : json) : result StreamingScriptSuggestion :=
  t <- get_prop suggestion "type" ;;
  c <- get_prop suggestion "content" ;;
  content <- ToString Number_toString (or_default c "Review script for compliance") ;;
  r <- get_prop suggestion "reason" ;;
  reason <- ToString Number_toString (or_default r "To improve compliance") ;;
  cf <- get_prop suggestion "confidence" ;;
  n <- ToNumber Number_toString StringToNumber cf ;;
  ret (mkSuggestion (or_default t "suggestion") content reason (min_1 (max_0 (or_half n)))).

(** [ScriptEditorService.generateScriptSuggestions]; [answer] is what the
    call to the completion provider returns or throws.  With no flag the
    provider is not called. *)
Definition generateScriptSuggestions (complianceFlags : list ComplianceFlag)
    (answer : result string) : result (list StreamingScriptSuggestion) :=
  try_catch
    (match complianceFlags with
     | [] => ret []
     | _ =>
       text <- answer ;;
       try_catch
         (match JSON_parse text with
          | None => throw SyntaxError
          | Some suggestions =>
            match as_array (Some suggestions) with
            | Some l => map_result validateSuggestion l
            | None => ret []
            end
          end)
         (fun _ => ret [])
     end)
    (fun _ => ret []).

End Service.

(** A confidence between 0 and 1. *)
Definition unit_confidence (s : StreamingScriptSuggestion) : Prop :=
  exists q, confidence s = JFin q /\ (0 <= q <= 1)%Q.

End Suggestions.

(* ================================================================== *)
(** * Script editor service: the whole of [analyzeScript]             *)
(* ================================================================== *)

Module ScriptAnalysis.

Import Js JsString AI ScriptEditor Suggestions.
#[local] Open Scope string_scope.
#[local] Open Scope js_scope.

(** [ScriptAnalysisResult] *)
Record ScriptAnalysisResult := mkScriptAnalysis {
  compliance_flags : list ComplianceFlag;
  suggestions : list StreamingScriptSuggestion;
  overall_compliance_score : Q;
  risk_level : RiskLevel
}.

(** [ScriptEditorService.updateScriptCompliance]; [response] is what the
    awaited update of the [scripts] table gives: it throws, or it resolves
    with the [error] of the response, [None] for no error, [Some message]
    for an error with that message. *)
Definition updateScriptCompliance (response : result (option string)) : result unit :=
  try_catch
    (error <- response ;;
     match error with
     | Some message => throw (Error ("Failed to update script compliance: " ++ message))
     | None => ret tt
     end)
    (fun e => throw e).

Section Service.

Variable JSON_parse : string -> option json.
Variable Number_toString : jsnum -> string.
Variable StringToNumber : string -> jsnum.

(** [ScriptEditorService.analyzeScript]; [answer] is what the completion
    provider returns or throws, [response] what the update of the database
    gives.  [None] when the fuel of the scan runs out. *)
Definition analyzeScript (fuel : nat) (content : string) (brandRules : option BrandRule)
    (answer : result string) (response : result (option string))
    : option (result ScriptAnalysisResult) :=
  match complianceFlags fuel content brandRules with
  | None => None
  | Some complianceFlags =>
    Some (try_catch
            (suggestions <-
               generateScriptSuggestions JSON_parse Number_toString StringToNumber
                 complianceFlags answer ;;
             let complianceScore :=
               calculateComplianceScore complianceFlags (String.length content) in
             let riskLevel := determineRiskLevel complianceFlags in
             updated <- updateScriptCompliance response ;;
             ret (mkScriptAnalysis complianceFlags suggestions complianceScore riskLevel))
            (fun _ => throw (Error "Failed to analyze script compliance")))
  end.

End Service.

End ScriptAnalysis.

(* ================================================================== *)
(** * Ingestion service: notions used to state its properties         *)
(* ================================================================== *)

Module IngestionSpec.

Import JsString Regex Ingestion.
#[local] Open Scope string_scope.

(** The theme tags of the table, and the tag of a review that matches no
    row. *)
Definition taxonomy : list string := (map snd theme_table ++ ["general_experience"])%list.

(** What one mention does to the bucket of its theme. *)
Definition bump (sentiment : Q) (quote : string) (point : Bucket) : Bucket :=
  mkBucket (b_sentiment point + sentiment)%Q
           (b_mentions point + 1)
           (b_quotes point ++ [quote])%list.

(** A review whose sentiment lies in [0, 0.3]. *)
Definition lukewarm (review : ScrapedReviewData) : bool :=
  negb (Qlt_bool (calculateSentiment (rating review)) 0)
  && negb (Qlt_bool (3 # 10) (calculateSentiment (rating review))).

(** The shape of an emitted insight: at least one mention, and the first
    three quotes of its mentions. *)
Definition well_formed (p : ThemeInsight) : Prop :=
  (1 <= mentions p)%nat
  /\ List.length (example_quotes p) = Nat.min 3 (mentions p)
  /\ In (theme p) taxonomy.

(** Ordered by falling number of mentions. *)
Definition by_falling_mentions (l : list ThemeInsight) : Prop :=
  StronglySorted (fun a b => (mentions b <= mentions a)%nat) l.

(** Invariants of the two maps while the reviews are read; [q] is the sum
    of the sentiments of the [n] mentions of a theme. *)
Definition entry_shape (e : string * Bucket) : Prop :=
  (1 <= b_mentions (snd e))%nat
  /\ List.length (b_quotes (snd e)) = b_mentions (snd e)
  /\ In (fst e) taxonomy.

Definition pain_entry (e : string * Bucket) : Prop := (b_sentiment (snd e) < 0)%Q.

Definition delight_entry (e : string * Bucket) : Prop := (0 < b_sentiment (snd e))%Q.

Definition ranged_entry (e : string * Bucket) : Prop :=
  (- inject_Z (Z.of_nat (b_mentions (snd e))) <= b_sentiment (snd e)
   /\ b_sentiment (snd e) <= inject_Z (Z.of_nat (b_mentions (snd e))))%Q.

(** An invariant of the pair of maps: every entry of the pain points
    satisfies [Pp], every entry of the delight factors [Pd], and no key
    occurs twice. *)
Definition kept (Pp Pd : string * Bucket -> Prop) (st : Maps) : Prop :=
  (Forall Pp (fst st) /\ NoDup (map fst (fst st)))
  /\ (Forall Pd (snd st) /\ NoDup (map fst (snd st))).

(** The entry an insight is made from. *)
Definition insight_of (entry : string * Bucket) : ThemeInsight :=
  mkInsight (fst entry)
    (b_sentiment (snd entry) / inject_Z (Z.of_nat (b_mentions (snd entry))))%Q
    (b_mentions (snd entry))
    (firstn 3 (b_quotes (snd entry))).

End IngestionSpec.

(* ================================================================== *)
(** * Angle reasoning service: audience and analytics                 *)
(* ================================================================== *)

Module AngleReasoning.

Import JsString Ingestion.
#[local] Open Scope string_scope.

(** [AngleReasoningService.inferTargetAudience], on the themes of the pain
    points and of the delight factors; the container is not read. *)
Definition inferTargetAudience (painThemes delightThemes : list string) : string :=
  let productThemes := toLowerCase (join " " (painThemes ++ delightThemes)%list) in
  if includes productThemes "health" || includes productThemes "wellness"
     || includes productThemes "fitness"
  then "Health-conscious individuals looking to improve their wellness"
  else if includes productThemes "beauty" || includes productThemes "skin"
          || includes productThemes "makeup"
  then "Beauty enthusiasts seeking effective skincare solutions"
  else if includes productThemes "tech" || includes productThemes "gadget"
          || includes productThemes "electronic"
  then "Tech-savvy consumers interested in innovative gadgets"
  else if includes productThemes "fitness" || includes productThemes "workout"
          || includes productThemes "gym"
  then "Fitness enthusiasts and gym-goers"
  else if includes productThemes "home" || includes productThemes "kitchen"
          || includes productThemes "decor"
  then "Homeowners interested in lifestyle improvements"
  else "General consumers looking for quality products".

(** The words [inferTargetAudience] looks for. *)
Definition audience_words : list string :=
  [ "health"; "wellness"; "fitness"; "beauty"; "skin"; "makeup"; "tech"; "gadget";
    "electronic"; "workout"; "gym"; "home"; "kitchen"; "decor" ].

Fixpoint no_space (s : string) : bool :=
  match s with
  | "" => true
  | String c s' => negb (Ascii.eqb c " ") && no_space s'
  end.

(** A row of [virality_packs] as [getViralityAnalytics] selects it; a score
    that is [null] is [None]. *)
Record PackScores := mkScores {
  p_angle_name : string;
  p_sentiment_score : option Q;
  p_virality_score : option Q
}.

(** [x || 0] *)
Definition or_zero (x : option Q) : Q :=
  match x with
  | Some q => q
  | None => 0
  end.

Record Distribution := mkDistribution {
  positive : nat;
  neutral : nat;
  negative : nat
}.

Record ViralityAnalytics := mkAnalytics {
  total_packs : nat;
  average_sentiment_score : Q;
  average_virality_score : Q;
  top_performing_angles : list string;
  sentiment_distribution : Distribution
}.

(** A stable sort by [(b.virality_score || 0) - (a.virality_score || 0)]. *)
Fixpoint insert_by_virality (x : PackScores) (l : list PackScores) : list PackScores :=
  match l with
  | [] => [x]
  | y :: l' =>
    if Qle_bool (or_zero (p_virality_score y)) (or_zero (p_virality_score x))
    then x :: l
    else y :: insert_by_virality x l'
  end.

Definition sort_by_virality (l : list PackScores) : list PackScores :=
  fold_right insert_by_virality [] l.

(** The callback of the [reduce] that builds the distribution. *)
Definition tally (acc : Distribution) (pack : PackScores) : Distribution :=
  let sentiment := or_zero (p_sentiment_score pack) in
  if Qlt_bool (1 # 10) sentiment
  then mkDistribution (positive acc + 1) (neutral acc) (negative acc)
  else if Qlt_bool sentiment (- (1 # 10))
  then mkDistribution (positive acc) (neutral acc) (negative acc + 1)
  else mkDistribution (positive acc) (neutral acc + 1) (negative acc).

(** Ordered by falling virality score, a missing score counting as 0. *)
Definition by_falling_virality (l : list PackScores) : Prop :=
  StronglySorted
    (fun a b => (or_zero (p_virality_score b) <= or_zero (p_virality_score a))%Q) l.

Definition tallied (d : Distribution) : nat := positive d + neutral d + negative d.

Definition no_analytics : ViralityAnalytics :=
  mkAnalytics 0 0 0 [] (mkDistribution 0 0 0).

(** [AngleReasoningService.getViralityAnalytics], on the rows the query
    returns; [None] is a missing [data]. *)
Definition getViralityAnalytics (packs : option (list PackScores)) : ViralityAnalytics :=
  match packs with
  | None | Some [] => no_analytics
  | Some packs =>
    let totalPacks := List.length packs in
    let avgSentiment :=
      (fold_left (fun sum pack => sum + or_zero (p_sentiment_score pack)) packs 0
       / inject_Z (Z.of_nat totalPacks))%Q in
    let avgVirality :=
      (fold_left (fun sum pack => sum + or_zero (p_virality_score pack)) packs 0
       / inject_Z (Z.of_nat totalPacks))%Q in
    let sorted := sort_by_virality packs in
    let topAngles := map p_angle_name (firstn 3 sorted) in
    let sentimentDistribution := fold_left tally sorted (mkDistribution 0 0 0) in
    mkAnalytics totalPacks avgSentiment avgVirality topAngles sentimentDistribution
  end.

End AngleReasoning.

(* ================================================================== *)
(** * AI configuration and the choice of the provider                 *)
(* ================================================================== *)

Module AIConfig.

#[local] Open Scope string_scope.

Inductive Provider := openai | anthropic.

(** [AIConfig]; a key that is not set is [None]. *)
Record Config := mkConfig {
  openaiApiKey : option string;
  anthropicApiKey : option string;
  preferredModel : Provider;
  maxTokens : nat;
  temperature : Q
}.

(** The truth value of an optional string: set and not empty. *)
Definition set (k : option string) : bool :=
  match k with
  | Some s => negb (String.eqb s "")
  | None => false
  end.

(** [key && key !== placeholder ? key : undefined] *)
Definition usable (key : option string) (placeholder : string) : option string :=
  match key with
  | Some k => if set key && negb (String.eqb k placeholder) then Some k else None
  | None => None
  end.

(** [getAIConfig], on the two environment variables. *)
Definition getAIConfig (OPENAI_API_KEY ANTHROPIC_API_KEY : option string) : Config :=
  let openaiKey := usable OPENAI_API_KEY "your_openai_api_key_here" in
  let anthropicKey := usable ANTHROPIC_API_KEY "your_anthropic_api_key_here" in
  mkConfig openaiKey anthropicKey
    (if negb (set anthropicKey) && set openaiKey then openai else anthropic)
    4000 (7 # 10).

(** [validateAIConfig]: the list of errors. *)
Definition validateAIConfig (config : Config) : bool * list string :=
  let errors :=
    if negb (set (openaiApiKey config)) && negb (set (anthropicApiKey config))
    then ["No AI API keys configured. Please set OPENAI_API_KEY or ANTHROPIC_API_KEY"]
    else [] in
  ((List.length errors =? 0)%nat, errors).

(** The [model] field after the constructor of [AIService] has run. *)
Definition constructor (config : Config) (model : option Provider) : Provider :=
  let this_model := match model with Some m => m | None => preferredModel config end in
  match this_model with
  | openai => if negb (set (openaiApiKey config)) then anthropic else openai
  | anthropic => if negb (set (anthropicApiKey config)) then openai else anthropic
  end.

(** The key of a provider. *)
Definition key_of (config : Config) (p : Provider) : option string :=
  match p with
  | openai => openaiApiKey config
  | anthropic => anthropicApiKey config
  end.

End AIConfig.

(* ================================================================== *)
(** * Product service: URL validation and platform detection          *)
(* ================================================================== *)

Module ProductService.

Import Js JsString Scraping.
#[local] Open Scope string_scope.

(** The [platform] each scraper writes into its product data. *)
Definition platform_of (s : Scraper) : string :=
  match s with
  | TikTokShopScraper => "tiktok_shop"
  | AmazonScraper => "amazon"
  | AliExpressScraper => "aliexpress"
  | GenericExternalScraper => "external"
  end.

Record Detection := mkDetection {
  valid : bool;
  platform : string;
  detection_error : option string
}.

Section Service.

(** [new URL(url)] with its [protocol]; [None] when the constructor
    throws. *)
Variable URL_parse_full : string -> option (string * URL).

(** The parser the scrapers see. *)
Definition URL_parse (url : string) : option URL := option_map snd (URL_parse_full url).

(** [validateAndDetectPlatform] *)
Definition validateAndDetectPlatform (url : string) : Detection :=
  match URL_parse_full url with
  | None => mkDetection false "" (Some "Invalid URL format")
  | Some (protocol, urlObj) =>
    if negb (String.eqb protocol "http:" || String.eqb protocol "https:")
    then mkDetection false "" (Some "Invalid URL protocol")
    else if includes (hostname urlObj) "tiktok.com" && includes (pathname urlObj) "/shop/"
    then mkDetection true "tiktok_shop" None
    else if includes (hostname urlObj) "amazon.com" || includes (hostname urlObj) "amzn.to"
    then mkDetection true "amazon" None
    else if includes (hostname urlObj) "aliexpress.com"
            || includes (hostname urlObj) "s.click.aliexpress.com"
    then mkDetection true "aliexpress" None
    else mkDetection true "external" None
  end.

End Service.

End ProductService.

(* ================================================================== *)
(** * Script editor service: notions used to state its properties     *)
(* ================================================================== *)

Module RuleEngineSpec.

Import JsString Regex ScriptEditor.
#[local] Open Scope nat_scope.

(** ['low' < 'medium' < 'high'] *)
Definition risk_rank (r : RiskLevel) : nat :=
  match r with
  | risk_low => 0
  | risk_medium => 1
  | risk_high => 2
  end.

(** The position of a flag, when it has one, is a span of the content. *)
Definition in_bounds (content : string) (f : ComplianceFlag) : Prop :=
  match position f with
  | Some p => start p <= end_ p /\ end_ p <= String.length content
  | None => True
  end.

(** A pattern without character classes of its own: under the [i] flag it
    cannot tell the letter case of the input. *)
Fixpoint case_blind (r : regex) : bool :=
  match r with
  | Eps | Chr _ | WordB => true
  | CSet _ => false
  | StarSet p => forallb (fun n => Bool.eqb (p (lower_char (ascii_of_nat n))) (p (ascii_of_nat n)))
                         (seq 0 256)
  | Seq r1 r2 | Alt r1 r2 => case_blind r1 && case_blind r2
  end.

(** The lower-case form of the character before the current position. *)
Definition lowp (prev : option ascii) : option ascii := option_map lower_char prev.

End RuleEngineSpec.

(* ================================================================== *)
(** * Compliance scorer: notions used to state its properties         *)
(* ================================================================== *)

Module ScoreSpec.

Import JsString Regex ScriptEditor.
#[local] Open Scope Q_scope.

(** What the flags take off the score, and what the length gives back. *)
Definition deduction (flags : list ComplianceFlag) : Q :=
  (3 # 10) * count_q high flags + (15 # 100) * count_q medium flags
  + (5 # 100) * count_q low flags.

Definition bonus (n : nat) : Q := Qmin (1 # 10) (inject_Z (Z.of_nat n) / 1000).

(** Two values of the score: 0.8499999999999999, which is the score of
    three low-severity flags on an empty content and lies two binary64
    numbers below 0.85, and 0.7999999999999999, the score of one
    high-severity flag on a content of 1000 characters. *)
Definition three_low_score : Q := 3828059683264921 # 4503599627370496.
Definition one_high_score : Q := 7205759403792793 # 9007199254740992.

(** The highest score a risk level goes with. *)
Definition score_ceiling (r : RiskLevel) : Q :=
  match r with
  | risk_high => 8 # 10
  | risk_medium => 95 # 100
  | risk_low => 1
  end.

(** Spans that are not empty, follow one another and do not overlap. *)
Definition disjoint_in_order (ms : list Position) : Prop :=
  StronglySorted (fun a b => (end_ a <= start b)%nat) ms
  /\ Forall (fun m => (start m < end_ m)%nat) ms.

End ScoreSpec.

(* ================================================================== *)
(** * Properties of the rounding to binary64                          *)
(* ================================================================== *)

Module Binary64Facts.

Import Binary64.
#[local] Open Scope Q_scope.

Lemma two_nonzero : ~ 2 == 0.
Proof. discriminate. Qed.

Lemma p2_pos (k : Z) : 0 < 2 ^ k.
Proof. apply Qpower_0_lt. reflexivity. Qed.

Lemma p2_add (a b : Z) : 2 ^ (a + b) == 2 ^ a * 2 ^ b.
Proof. apply Qpower_plus, two_nonzero. Qed.

Lemma p2_le (a b : Z) : (a <= b)%Z -> 2 ^ a <= 2 ^ b.
Proof. intro H. apply Qpower_le_compat_l; [exact H | discriminate]. Qed.

Lemma p2_lt (a b : Z) : (a < b)%Z -> 2 ^ a < 2 ^ b.
Proof. intro H. apply Qpower_lt_compat_l; [exact H | reflexivity]. Qed.

Lemma p2_lt_inv (a b : Z) : 2 ^ a < 2 ^ b -> (a < b)%Z.
Proof. intro H. apply (Qpower_lt_compat_l_inv 2); [exact H | reflexivity]. Qed.

Lemma p2_Z (k : Z) : (0 <= k)%Z -> 2 ^ k == inject_Z (2 ^ k).
Proof. intro H. rewrite Zpower_Qpower by exact H. reflexivity. Qed.

Lemma p2_cancel (a : Z) : 2 ^ a * 2 ^ (- a) == 1.
Proof. rewrite <- p2_add, Z.add_opp_diag_r. reflexivity. Qed.

(** Scaling by a power of two keeps the order. *)
Lemma scale_le (x y : Q) (k : Z) : x <= y -> x * 2 ^ k <= y * 2 ^ k.
Proof. intro H. apply Qmult_le_compat_r; [exact H | apply Qlt_le_weak, p2_pos]. Qed.

Lemma scale_lt (x y : Q) (k : Z) : x < y -> x * 2 ^ k < y * 2 ^ k.
Proof. intro H. apply Qmult_lt_compat_r; [apply p2_pos | exact H]. Qed.

Lemma ilog2_spec (x : Q) : 0 < x -> 2 ^ ilog2 x <= x /\ x < 2 ^ (ilog2 x + 1).
Proof.
  intro P. unfold ilog2. destruct (Qle_bool 1 x) eqn:E.
  - apply Qle_bool_iff in E.
    assert (F : (1 <= Qfloor x)%Z).
    { change 1%Z with (Qfloor 1). now apply Qfloor_resp_le. }
    destruct (Z.log2_spec (Qfloor x)) as (L & U); [lia|].
    pose proof (Z.log2_nonneg (Qfloor x)) as N.
    split.
    + rewrite p2_Z by exact N. apply Qle_trans with (inject_Z (Qfloor x)).
      * now rewrite <- Zle_Qle.
      * apply Qfloor_le.
    + rewrite p2_Z by lia. apply Qlt_le_trans with (inject_Z (Qfloor x + 1)).
      * apply Qlt_floor.
      * rewrite <- Zle_Qle. replace (Z.log2 (Qfloor x) + 1)%Z with (Z.succ (Z.log2 (Qfloor x))) by lia.
        lia.
  - assert (L1 : x < 1).
    { apply Qnot_le_lt. intro H. apply Qle_bool_iff in H. congruence. }
    set (y := / x). set (c := Qceiling y).
    assert (Y : 1 < y).
    { unfold y. apply Qlt_shift_inv_l; [exact P|]. now rewrite Qmult_1_l. }
    assert (XY : x * y == 1).
    { unfold y. apply Qmult_inv_r. intro Z0. rewrite Z0 in P. discriminate P. }
    assert (C : (1 < c)%Z).
    { apply Z.lt_le_trans with (Qceiling y); [|reflexivity].
      rewrite Zlt_Qlt. apply Qlt_le_trans with y; [exact Y | apply Qle_ceiling]. }
    destruct (Z.log2_up_spec c C) as (L & U).
    pose proof (Z.log2_up_pos c C) as N.
    set (p := Z.log2_up c) in *.
    assert (U' : y <= 2 ^ p).
    { rewrite p2_Z by lia. apply Qle_trans with (inject_Z c); [apply Qle_ceiling|].
      now rewrite <- Zle_Qle. }
    assert (L' : 2 ^ (p - 1) < y).
    { rewrite p2_Z by lia. apply Qle_lt_trans with (inject_Z (c - 1)).
      - rewrite <- Zle_Qle. replace (p - 1)%Z with (Z.pred p) by lia. lia.
      - apply Qceiling_lt. }
    split.
    + (* 2^-p <= x *)
      assert (H : 2 ^ (- p) * (x * y) <= 2 ^ (- p) * (x * 2 ^ p)).
      { apply Qmult_le_l; [apply p2_pos|]. apply Qmult_le_l; [exact P | exact U']. }
      rewrite XY, Qmult_1_r in H.
      setoid_replace (2 ^ (- p) * (x * 2 ^ p)) with (x * (2 ^ p * 2 ^ (- p))) in H by ring.
      rewrite p2_cancel, Qmult_1_r in H. exact H.
    + replace (- p + 1)%Z with (- (p - 1))%Z by lia.
      assert (H : 2 ^ (- (p - 1)) * (x * 2 ^ (p - 1)) < 2 ^ (- (p - 1)) * (x * y)).
      { apply Qmult_lt_l; [apply p2_pos|]. apply Qmult_lt_l; [exact P | exact L']. }
      rewrite XY, Qmult_1_r in H.
      setoid_replace (2 ^ (- (p - 1)) * (x * 2 ^ (p - 1)))
        with (x * (2 ^ (p - 1) * 2 ^ (- (p - 1)))) in H by ring.
      rewrite p2_cancel, Qmult_1_r in H. exact H.
Qed.

Lemma ilog2_unique (x : Q) (e : Z) : 2 ^ e <= x -> x < 2 ^ (e + 1) -> ilog2 x = e.
Proof.
  intros L U.
  assert (P : 0 < x) by (apply Qlt_le_trans with (2 ^ e); [apply p2_pos | exact L]).
  destruct (ilog2_spec x P) as (L' & U').
  assert (A : (ilog2 x < e + 1)%Z).
  { apply p2_lt_inv. apply Qle_lt_trans with x; assumption. }
  assert (B : (e < ilog2 x + 1)%Z).
  { apply p2_lt_inv. apply Qle_lt_trans with x; assumption. }
  lia.
Qed.

Lemma ilog2_le (x y : Q) : 0 < x -> x <= y -> (ilog2 x <= ilog2 y)%Z.
Proof.
  intros P H.
  assert (Py : 0 < y) by (apply Qlt_le_trans with x; assumption).
  destruct (ilog2_spec x P) as (L & _). destruct (ilog2_spec y Py) as (_ & U).
  assert (A : (ilog2 x < ilog2 y + 1)%Z).
  { apply p2_lt_inv. apply Qle_lt_trans with x; [exact L|].
    apply Qle_lt_trans with y; assumption. }
  lia.
Qed.

Lemma ilog2_proper : Proper (Qeq ==> eq) ilog2.
Proof.
  intros x y E. unfold ilog2.
  assert (B : Qle_bool 1 x = Qle_bool 1 y).
  { destruct (Qle_bool 1 x) eqn:A, (Qle_bool 1 y) eqn:B; auto.
    - apply Qle_bool_iff in A. rewrite E in A. apply Qle_bool_iff in A. congruence.
    - apply Qle_bool_iff in B. rewrite <- E in B. apply Qle_bool_iff in B. congruence. }
  rewrite B. destruct (Qle_bool 1 y); now rewrite E.
Qed.

#[global] Existing Instance ilog2_proper.


Lemma rne_proper : Proper (Qeq ==> eq) rne.
Proof.
  intros x y E. unfold rne.
  assert (F : Qfloor x = Qfloor y) by now apply Qfloor_comp.
  rewrite F.
  assert (C : Qcompare (x - inject_Z (Qfloor y)) (1 # 2)
              = Qcompare (y - inject_Z (Qfloor y)) (1 # 2)).
  { apply Qcompare_comp; [|reflexivity]. now rewrite E. }
  now rewrite C.
Qed.

#[global] Existing Instance rne_proper.

Lemma rne_cases (x : Q) :
  (rne x = Qfloor x /\ x - inject_Z (Qfloor x) <= 1 # 2
   /\ (x - inject_Z (Qfloor x) == 1 # 2 -> Z.even (Qfloor x) = true))
  \/ (rne x = (Qfloor x + 1)%Z /\ 1 # 2 <= x - inject_Z (Qfloor x)
      /\ (x - inject_Z (Qfloor x) == 1 # 2 -> Z.even (Qfloor x) = false)).
Proof.
  unfold rne. destruct (Qcompare (x - inject_Z (Qfloor x)) (1 # 2)) eqn:C.
  - apply Qeq_alt in C. destruct (Z.even (Qfloor x)) eqn:Ev.
    + left. repeat split; auto. rewrite C. apply Qle_refl.
    + right. repeat split; auto. rewrite C. apply Qle_refl.
  - apply Qlt_alt in C. left. repeat split; [now apply Qlt_le_weak|].
    intro E. rewrite E in C. discriminate C.
  - apply Qgt_alt in C. right. repeat split; [now apply Qlt_le_weak|].
    intro E. rewrite E in C. discriminate C.
Qed.

Lemma rne_inject (z : Z) : rne (inject_Z z) = z.
Proof.
  destruct (rne_cases (inject_Z z)) as [(E & _) | (_ & H & _)].
  - now rewrite E, Qfloor_Z.
  - rewrite Qfloor_Z in H. exfalso. lra.
Qed.

Lemma rne_monotone (x y : Q) : x <= y -> (rne x <= rne y)%Z.
Proof.
  intro H. pose proof (Qfloor_resp_le x y H) as F.
  destruct (rne_cases x) as [(Ex & Hx & Tx) | (Ex & Hx & Tx)];
    destruct (rne_cases y) as [(Ey & Hy & Ty) | (Ey & Hy & Ty)]; rewrite Ex, Ey; try lia.
  destruct (Z.eq_dec (Qfloor x) (Qfloor y)) as [Eq | Ne]; [|lia].
  exfalso. rewrite <- Eq in Hy, Ty.
  assert (A : x - inject_Z (Qfloor x) == 1 # 2) by lra.
  assert (B : y - inject_Z (Qfloor x) == 1 # 2) by lra.
  specialize (Tx A). specialize (Ty B). congruence.
Qed.

Lemma rne_error (x : Q) : Qabs (inject_Z (rne x) - x) <= 1 # 2.
Proof.
  pose proof (Qfloor_le x) as L. pose proof (Qlt_floor x) as U.
  rewrite inject_Z_plus in U. change (inject_Z 1) with 1 in U.
  apply Qabs_Qle_condition.
  destruct (rne_cases x) as [(E & H & _) | (E & H & _)]; rewrite E;
    try (rewrite inject_Z_plus; change (inject_Z 1) with 1); split; lra.
Qed.

Lemma rne_lower (x : Q) (a : Z) : inject_Z a <= x -> (a <= rne x)%Z.
Proof. intro H. rewrite <- (rne_inject a). now apply rne_monotone. Qed.

Lemma rne_upper (x : Q) (b : Z) : x <= inject_Z b -> (rne x <= b)%Z.
Proof. intro H. rewrite <- (rne_inject b). now apply rne_monotone. Qed.

(** The exponent used for a positive number, and what it says of the
    scaled number. *)
Lemma expo_scaled (x : Q) :
  0 < x ->
  let e := Z.max (ilog2 x) min_exponent in
  0 < x * 2 ^ (52 - e) /\ x * 2 ^ (52 - e) < 2 ^ 53
  /\ ((min_exponent <= ilog2 x)%Z -> 2 ^ 52 <= x * 2 ^ (52 - e)).
Proof.
  intros P e. destruct (ilog2_spec x P) as (L & U).
  split; [|split].
  - apply Qmult_lt_0_compat; [exact P | apply p2_pos].
  - apply Qlt_le_trans with (2 ^ (ilog2 x + 1) * 2 ^ (52 - e)).
    + now apply scale_lt.
    + rewrite <- p2_add. apply p2_le. unfold e. lia.
  - intro N. assert (E : e = ilog2 x) by (unfold e; lia). rewrite E.
    apply Qle_trans with (2 ^ ilog2 x * 2 ^ (52 - ilog2 x)).
    + rewrite <- p2_add. apply p2_le. lia.
    + now apply scale_le.
Qed.

Lemma round_pos_bounds (x : Q) :
  0 < x ->
  let e := Z.max (ilog2 x) min_exponent in
  0 <= round_pos x /\ round_pos x <= 2 ^ (e + 1)
  /\ ((min_exponent <= ilog2 x)%Z -> 2 ^ e <= round_pos x)
  /\ (0 <= rne (x * 2 ^ (52 - e)) <= 2 ^ 53)%Z.
Proof.
  intros P e. destruct (expo_scaled x P) as (S0 & S1 & S2). fold e in S0, S1, S2.
  assert (R0 : (0 <= rne (x * 2 ^ (52 - e)))%Z).
  { apply rne_lower. now apply Qlt_le_weak. }
  assert (R1 : (rne (x * 2 ^ (52 - e)) <= 2 ^ 53)%Z).
  { apply rne_upper. rewrite <- p2_Z by lia. now apply Qlt_le_weak. }
  unfold round_pos. fold e.
  split; [|split; [|split]].
  - apply Qmult_le_0_compat; [|apply Qlt_le_weak, p2_pos].
    change 0 with (inject_Z 0). now rewrite <- Zle_Qle.
  - apply Qle_trans with (inject_Z (2 ^ 53) * 2 ^ (e - 52)).
    + apply scale_le. now rewrite <- Zle_Qle.
    + rewrite <- p2_Z by lia. rewrite <- p2_add. apply p2_le. lia.
  - intro N. specialize (S2 N).
    assert (R2 : (2 ^ 52 <= rne (x * 2 ^ (52 - e)))%Z).
    { apply rne_lower. rewrite <- p2_Z by lia. exact S2. }
    apply Qle_trans with (inject_Z (2 ^ 52) * 2 ^ (e - 52)).
    + rewrite <- p2_Z by lia. rewrite <- p2_add. apply p2_le. lia.
    + apply scale_le. now rewrite <- Zle_Qle.
  - split; assumption.
Qed.

Lemma round_pos_proper : Proper (Qeq ==> Qeq) round_pos.
Proof. intros x y E. unfold round_pos. now rewrite E. Qed.

#[global] Existing Instance round_pos_proper.

Lemma round_pos_monotone (x y : Q) : 0 < x -> x <= y -> round_pos x <= round_pos y.
Proof.
  intros P H.
  assert (Py : 0 < y) by (apply Qlt_le_trans with x; assumption).
  pose proof (ilog2_le x y P H) as I.
  destruct (Z.eq_dec (Z.max (ilog2 x) min_exponent) (Z.max (ilog2 y) min_exponent)) as [E | N].
  - unfold round_pos. rewrite E. apply scale_le. rewrite <- Zle_Qle.
    apply rne_monotone. now apply scale_le.
  - destruct (round_pos_bounds x P) as (_ & U & _).
    destruct (round_pos_bounds y Py) as (_ & _ & L & _).
    apply Qle_trans with (2 ^ (Z.max (ilog2 x) min_exponent + 1)); [exact U|].
    apply Qle_trans with (2 ^ Z.max (ilog2 y) min_exponent); [apply p2_le; lia | apply L; lia].
Qed.

Lemma round_eq (x : Q) :
  round x == match Qcompare x 0 with
             | Eq => 0
             | Gt => round_pos x
             | Lt => - round_pos (- x)
             end.
Proof. unfold round. apply Qred_correct. Qed.

Lemma round_of_pos (x : Q) : 0 < x -> round x == round_pos x.
Proof.
  intro P. rewrite round_eq. destruct (Qcompare x 0) eqn:C; [| |reflexivity].
  - apply Qeq_alt in C. lra.
  - apply Qlt_alt in C. lra.
Qed.

Lemma round_of_neg (x : Q) : x < 0 -> round x == - round_pos (- x).
Proof.
  intro P. rewrite round_eq. destruct (Qcompare x 0) eqn:C; [|reflexivity|].
  - apply Qeq_alt in C. lra.
  - apply Qgt_alt in C. lra.
Qed.

Lemma round_of_zero (x : Q) : x == 0 -> round x == 0.
Proof.
  intro P. rewrite round_eq. destruct (Qcompare x 0) eqn:C; [reflexivity| |].
  - apply Qlt_alt in C. lra.
  - apply Qgt_alt in C. lra.
Qed.

Lemma round_proper : Proper (Qeq ==> Qeq) round.
Proof.
  intros x y E. rewrite !round_eq.
  assert (C : Qcompare x 0 = Qcompare y 0) by (apply Qcompare_comp; [exact E | reflexivity]).
  rewrite C. destruct (Qcompare y 0); [reflexivity | | ]; now rewrite E.
Qed.

#[global] Existing Instance round_proper.

Lemma round_sign (x : Q) :
  (0 <= x -> 0 <= round x) /\ (x <= 0 -> round x <= 0).
Proof.
  destruct (Q_dec x 0) as [[N | P] | Z0].
  - rewrite (round_of_neg x N).
    assert (P : 0 < - x) by lra. destruct (round_pos_bounds (- x) P) as (B & _).
    split; intro; lra.
  - rewrite (round_of_pos x P). destruct (round_pos_bounds x P) as (B & _).
    split; intro; lra.
  - rewrite (round_of_zero x Z0). split; intro; apply Qle_refl.
Qed.

(** Rounding keeps the order. *)
Theorem round_monotone (x y : Q) : x <= y -> round x <= round y.
Proof.
  intro H. destruct (Q_dec x 0) as [[Nx | Px] | Zx].
  - destruct (Q_dec y 0) as [[Ny | Py] | Zy].
    + rewrite (round_of_neg x Nx), (round_of_neg y Ny).
      apply Qopp_le_compat. apply round_pos_monotone; lra.
    + apply Qle_trans with 0; [apply round_sign | apply round_sign]; lra.
    + apply Qle_trans with 0; [apply round_sign | apply round_sign]; lra.
  - rewrite (round_of_pos x Px), (round_of_pos y) by lra.
    now apply round_pos_monotone.
  - apply Qle_trans with 0; [apply round_sign | apply round_sign]; lra.
Qed.


Lemma round_pos_fixed_core (x : Q) (m k : Z) :
  x == inject_Z m * 2 ^ k -> (0 < m < 2 ^ 53)%Z -> (-1074 <= k)%Z -> round_pos x == x.
Proof.
  intros E M K.
  destruct (Z.log2_spec m) as (L & U); [lia|].
  pose proof (Z.log2_nonneg m) as N.
  assert (L53 : (Z.log2 m < 53)%Z).
  { apply Z.log2_lt_pow2; lia. }
  assert (I : ilog2 x = (Z.log2 m + k)%Z).
  { apply ilog2_unique; rewrite E.
    - rewrite p2_add. apply scale_le. rewrite p2_Z by lia. now rewrite <- Zle_Qle.
    - replace (Z.log2 m + k + 1)%Z with (Z.succ (Z.log2 m) + k)%Z by lia.
      rewrite p2_add. apply scale_lt. rewrite p2_Z by lia. now rewrite <- Zlt_Qlt. }
  unfold round_pos. rewrite I.
  set (e := Z.max (Z.log2 m + k) min_exponent).
  assert (T : (0 <= 52 - e + k)%Z) by (unfold e, min_exponent; lia).
  assert (S : x * 2 ^ (52 - e) == inject_Z (m * 2 ^ (52 - e + k))).
  { rewrite E, inject_Z_mult, <- (p2_Z _ T).
    replace (52 - e + k)%Z with (k + (52 - e))%Z by lia. rewrite p2_add. ring. }
  rewrite S, rne_inject, inject_Z_mult, <- (p2_Z _ T), E.
  rewrite <- Qmult_assoc, <- p2_add.
  replace (52 - e + k + (e - 52))%Z with k by lia. reflexivity.
Qed.

Lemma round_pos_fixed (x : Q) (m k : Z) :
  x == inject_Z m * 2 ^ k -> (0 < m <= 2 ^ 53)%Z -> (-1074 <= k)%Z -> round_pos x == x.
Proof.
  intros E M K. destruct (Z.eq_dec m (2 ^ 53)) as [-> | Ne].
  - apply (round_pos_fixed_core x (2 ^ 52) (k + 1)); [|lia|lia].
    rewrite E, p2_add. change (2 ^ 1) with 2.
    change (inject_Z (2 ^ 53)) with (inject_Z (2 ^ 52) * 2). ring.
  - apply (round_pos_fixed_core x m k); [exact E | lia | exact K].
Qed.

(** Rounding leaves the numbers of binary64 as they are. *)
Theorem round_fixed (x : Q) : representable x -> round x == x.
Proof.
  intros (m & k & E & M & K).
  destruct (Z.lt_trichotomy m 0) as [N | [Z0 | P]].
  - assert (Nx : x < 0).
    { rewrite E. setoid_replace 0 with (0 * 2 ^ k) by ring. apply scale_lt.
      change 0 with (inject_Z 0). now rewrite <- Zlt_Qlt. }
    rewrite (round_of_neg x Nx).
    rewrite (round_pos_fixed (- x) (- m) k); [ring | | lia | exact K].
    rewrite E, inject_Z_opp. ring.
  - subst m. assert (Zx : x == 0) by (rewrite E; ring).
    rewrite (round_of_zero x Zx), Zx. reflexivity.
  - assert (Px : 0 < x).
    { rewrite E. setoid_replace 0 with (0 * 2 ^ k) by ring. apply scale_lt.
      change 0 with (inject_Z 0). now rewrite <- Zlt_Qlt. }
    rewrite (round_of_pos x Px). apply (round_pos_fixed x m k); [exact E | lia | exact K].
Qed.

Lemma round_pos_representable (x : Q) : 0 < x -> representable (round_pos x).
Proof.
  intro P. destruct (round_pos_bounds x P) as (_ & _ & _ & R0 & R1).
  exists (rne (x * 2 ^ (52 - Z.max (ilog2 x) min_exponent))), (Z.max (ilog2 x) min_exponent - 52)%Z.
  split; [reflexivity|]. split; [lia | unfold min_exponent; lia].
Qed.

Theorem round_representable (x : Q) : representable (round x).
Proof.
  destruct (Q_dec x 0) as [[N | P] | Z0].
  - assert (P : 0 < - x) by lra.
    destruct (round_pos_representable (- x) P) as (m & k & E & M & K).
    exists (- m)%Z, k. split; [|split; [lia | exact K]].
    rewrite (round_of_neg x N), E, inject_Z_opp. ring.
  - destruct (round_pos_representable x P) as (m & k & E & M & K).
    exists m, k. split; [|split; [exact M | exact K]].
    now rewrite (round_of_pos x P).
  - exists 0%Z, 0%Z. split; [|split; lia].
    rewrite (round_of_zero x Z0). reflexivity.
Qed.

Theorem round_idempotent (x : Q) : round (round x) == round x.
Proof. apply round_fixed, round_representable. Qed.

(** The rounding error is at most half a unit in the last place. *)
Lemma round_pos_error (x : Q) :
  0 < x -> Qabs (round_pos x - x) <= 2 ^ (Z.max (ilog2 x) min_exponent - 53).
Proof.
  intro P. unfold round_pos. set (e := Z.max (ilog2 x) min_exponent).
  set (y := x * 2 ^ (52 - e)).
  assert (X : x == y * 2 ^ (e - 52)).
  { unfold y. rewrite <- Qmult_assoc, <- p2_add.
    replace (52 - e + (e - 52))%Z with 0%Z by lia. change (2 ^ 0) with 1. ring. }
  setoid_replace (inject_Z (rne y) * 2 ^ (e - 52) - x)
    with ((inject_Z (rne y) - y) * 2 ^ (e - 52)) by (rewrite X at 1; ring).
  rewrite Qabs_Qmult, (Qabs_pos (2 ^ (e - 52))) by apply Qlt_le_weak, p2_pos.
  replace (e - 53)%Z with (-1 + (e - 52))%Z by lia. rewrite p2_add.
  apply scale_le. change (2 ^ (-1)) with (1 # 2). apply rne_error.
Qed.

Theorem round_error (x : Q) : Qabs x < 2 -> Qabs (round x - x) <= 2 ^ (-53).
Proof.
  intro B.
  assert (Small : forall z, 0 < z -> z < 2 ->
                    Qabs (round_pos z - z) <= 2 ^ (-53)).
  { intros z P U. apply Qle_trans with (2 ^ (Z.max (ilog2 z) min_exponent - 53)).
    - now apply round_pos_error.
    - apply p2_le. destruct (ilog2_spec z P) as (L & _).
      assert (I : (ilog2 z < 1)%Z).
      { apply p2_lt_inv. apply Qle_lt_trans with z; [exact L | exact U]. }
      unfold min_exponent. lia. }
  destruct (Q_dec x 0) as [[N | P] | Z0].
  - rewrite (round_of_neg x N).
    setoid_replace (- round_pos (- x) - x) with (- (round_pos (- x) - - x)) by ring.
    rewrite Qabs_opp. apply Small; [lra|].
    rewrite (Qabs_neg x) in B by lra. exact B.
  - rewrite (round_of_pos x P). apply Small; [exact P|].
    rewrite (Qabs_pos x) in B by lra. exact B.
  - rewrite (round_of_zero x Z0), Z0. vm_compute. discriminate.
Qed.


(** The rounding agrees with the primitive binary64 numbers of the proof
    assistant, here on the literals of the scorer, on sums, differences and
    quotients of its kind, on a tie and on subnormal numbers. *)
Lemma round_agrees_with_primitive_floats :
  of_float (float_literal 3 10) = Some (double (3 # 10))
  /\ of_float (float_literal 15 100) = Some (double (15 # 100))
  /\ of_float (float_literal 5 100) = Some (double (5 # 100))
  /\ of_float (float_literal 1 10) = Some (double (1 # 10))
  /\ of_float (PrimFloat.sub (float_of_Z 1) (float_literal 3 10))
     = Some (sub 1 (double (3 # 10)))
  /\ of_float (PrimFloat.sub
                 (PrimFloat.sub
                    (PrimFloat.sub (float_of_Z 1) (float_literal 5 100))
                    (float_literal 5 100))
                 (float_literal 5 100))
     = Some (sub (sub (sub 1 (double (5 # 100))) (double (5 # 100))) (double (5 # 100)))
  /\ of_float (PrimFloat.add (PrimFloat.sub (float_of_Z 1) (float_literal 3 10))
                             (float_literal 1 10))
     = Some (add (sub 1 (double (3 # 10))) (double (1 # 10)))
  /\ of_float (float_literal 7 1000) = Some (div 7 1000)
  /\ of_float (float_literal 1 3) = Some (div 1 3)
  /\ of_float (PrimFloat.add (float_of_Z 9007199254740992) (float_of_Z 1))
     = Some (add 9007199254740992 1)
  /\ of_float (PrimFloat.add (float_of_Z 9007199254740994) (float_of_Z 1))
     = Some (add 9007199254740994 1)
  /\ of_float (PrimFloat.mul (FloatOps.Z.ldexp (float_of_Z 1) (-1074)%Z) (float_literal 3 2))
     = Some (round (2 ^ (-1074) * (3 # 2)))
  /\ of_float (PrimFloat.mul (FloatOps.Z.ldexp (float_of_Z 1) (-1074)%Z) (float_literal 1 2))
     = Some (round (2 ^ (-1074) * (1 # 2)))
  /\ of_float (PrimFloat.div (FloatOps.Z.ldexp (float_of_Z 1) (-1022)%Z) (float_of_Z 3))
     = Some (round (2 ^ (-1022) / 3)).
Proof. vm_compute. repeat split. Qed.

Lemma round_nonneg (x : Q) : 0 <= x -> 0 <= round x.
Proof. apply round_sign. Qed.

Lemma round_le_fixed (x c : Q) : representable c -> x <= c -> round x <= c.
Proof. intros R H. rewrite <- (round_fixed c R). now apply round_monotone. Qed.

Lemma round_ge_fixed (x c : Q) : representable c -> c <= x -> c <= round x.
Proof. intros R H. rewrite <- (round_fixed c R). now apply round_monotone. Qed.

Lemma representable_Z (z : Z) : (Z.abs z <= 2 ^ 53)%Z -> representable (inject_Z z).
Proof. intro H. exists z, 0%Z. split; [change (2 ^ 0) with 1; ring | split; [exact H | lia]]. Qed.

Lemma representable_proper : Proper (Qeq ==> iff) representable.
Proof.
  intros x y E. split; intros (m & k & H & B); exists m, k; split; auto.
  - now rewrite <- E.
  - now rewrite E.
Qed.

#[global] Existing Instance representable_proper.

End Binary64Facts.

(* ================================================================== *)
(** * Properties of the compliance scorer                             *)
(* ================================================================== *)

Module ScorerProofs.

Import Binary64 ScriptEditor ScoreSpec Binary64Facts.
#[local] Open Scope Q_scope.

Lemma Math_min_Qmin (a b : Q) : Math_min a b == Qmin a b.
Proof.
  unfold Math_min. destruct (Qle_bool a b) eqn:E.
  - apply Qle_bool_iff in E. symmetry. now apply Q.min_l.
  - assert (H : b <= a).
    { apply Qlt_le_weak, Qnot_le_lt. intro H. apply Qle_bool_iff in H. congruence. }
    symmetry. now apply Q.min_r.
Qed.

Lemma Math_max_Qmax (a b : Q) : Math_max a b == Qmax a b.
Proof.
  unfold Math_max. destruct (Qle_bool a b) eqn:E.
  - apply Qle_bool_iff in E. symmetry. now apply Q.max_r.
  - assert (H : b <= a).
    { apply Qlt_le_weak, Qnot_le_lt. intro H. apply Qle_bool_iff in H. congruence. }
    symmetry. now apply Q.max_l.
Qed.

Lemma clamp01_bounds (x : Q) : 0 <= clamp01 x <= 1.
Proof.
  unfold clamp01. split.
  - apply Q.le_max_l.
  - apply Q.max_lub; [discriminate | apply Q.le_min_l].
Qed.

Lemma clamp01_above (x : Q) : 1 <= x -> clamp01 x == 1.
Proof.
  intro H. unfold clamp01. rewrite (Q.min_l 1 x H). apply Q.max_r. discriminate.
Qed.

Lemma clamp01_below (x : Q) : x <= 0 -> clamp01 x == 0.
Proof.
  intro H. unfold clamp01. rewrite (Q.min_r 1 x) by lra. now apply Q.max_l.
Qed.

Lemma clamp01_lower (c x : Q) : c <= 1 -> c <= x -> c <= clamp01 x.
Proof.
  intros H1 Hx. unfold clamp01.
  apply Qle_trans with (Qmin 1 x); [|apply Q.le_max_r].
  now apply Q.min_glb.
Qed.

Lemma clamp01_upper (c x : Q) : 0 <= c -> x <= c -> clamp01 x <= c.
Proof.
  intros C H. unfold clamp01. apply Q.max_lub; [exact C|].
  apply Qle_trans with x; [apply Q.le_min_r | exact H].
Qed.

Lemma clamp01_monotone (x y : Q) : x <= y -> clamp01 x <= clamp01 y.
Proof.
  intro H. unfold clamp01.
  apply Q.max_le_compat_l. now apply Q.min_le_compat_l.
Qed.

Lemma clamp01_equal (x y : Q) : x == y -> clamp01 x == clamp01 y.
Proof.
  intro E. apply Qle_antisym; apply clamp01_monotone; rewrite E; apply Qle_refl.
Qed.

(** The operators keep the order and the equality of rationals. *)
Lemma add_monotone (a a' b b' : Q) : a <= a' -> b <= b' -> add a b <= add a' b'.
Proof. intros A B. apply round_monotone. lra. Qed.

Lemma sub_monotone (a a' b b' : Q) : a <= a' -> b' <= b -> sub a b <= sub a' b'.
Proof. intros A B. apply round_monotone. lra. Qed.

Lemma add_equal (a a' b b' : Q) : a == a' -> b == b' -> add a b == add a' b'.
Proof. intros A B. unfold add. now rewrite A, B. Qed.

Lemma sub_equal (a a' b : Q) : a == a' -> sub a b == sub a' b.
Proof. intros A. unfold sub. now rewrite A. Qed.

Lemma representable_1 : representable 1.
Proof. apply (representable_Z 1). vm_compute. discriminate. Qed.

Lemma representable_0 : representable 0.
Proof. apply (representable_Z 0). vm_compute. discriminate. Qed.

(** The weights. *)
Lemma weight_nonneg (f : ComplianceFlag) : 0 <= weight f.
Proof. unfold weight. destruct (severity f); by_computation. Qed.

Lemma weight_low_least (f : ComplianceFlag) : double (5 # 100) <= weight f.
Proof. unfold weight. destruct (severity f); by_computation. Qed.

Lemma weight_of (f : ComplianceFlag) (s : Severity) :
  severity f = s ->
  weight f = match s with
             | high => double (3 # 10)
             | medium => double (15 # 100)
             | low => double (5 # 100)
             end.
Proof. intros <-. reflexivity. Qed.

(** The running total of the [forEach]. *)
Lemma deducted_cons (f : ComplianceFlag) (l : list ComplianceFlag) (s : Q) :
  deducted (f :: l) s = deducted l (sub s (weight f)).
Proof. reflexivity. Qed.

Lemma deducted_app (l l' : list ComplianceFlag) (s : Q) :
  deducted (l ++ l') s = deducted l' (deducted l s).
Proof. unfold deducted. apply fold_left_app. Qed.

Lemma deducted_representable (l : list ComplianceFlag) :
  forall s, representable s -> representable (deducted l s).
Proof.
  induction l as [|f l IH]; intros s R; [exact R|].
  rewrite deducted_cons. apply IH, round_representable.
Qed.

Lemma sub_weight_le (s : Q) (f : ComplianceFlag) : representable s -> sub s (weight f) <= s.
Proof.
  intro R. apply round_le_fixed; [exact R|]. pose proof (weight_nonneg f). lra.
Qed.

Lemma deducted_decreasing (l : list ComplianceFlag) :
  forall s, representable s -> deducted l s <= s.
Proof.
  induction l as [|f l IH]; intros s R; [apply Qle_refl|].
  rewrite deducted_cons. apply Qle_trans with (sub s (weight f)).
  - apply IH, round_representable.
  - now apply sub_weight_le.
Qed.

(** The running total never comes near the overflow of binary64: below
    [-2^53] a subtraction of a weight is rounded away. *)
Lemma deducted_stays_finite (l : list ComplianceFlag) :
  forall s, representable s -> - (2 ^ 53) <= s -> s <= 1 ->
            - (2 ^ 53) <= deducted l s <= 1.
Proof.
  induction l as [|f l IH]; intros s R L U; [split; assumption|].
  rewrite deducted_cons. apply IH.
  - apply round_representable.
  - apply Qle_trans with (round (- (2 ^ 53) - double (3 # 10))); [by_computation|].
    apply round_monotone.
    assert (W : weight f <= double (3 # 10))
      by (unfold weight; destruct (severity f); by_computation).
    lra.
  - apply Qle_trans with s; [now apply sub_weight_le | exact U].
Qed.

Lemma deducted_monotone (l : list ComplianceFlag) :
  forall s s', s <= s' -> deducted l s <= deducted l s'.
Proof.
  induction l as [|f l IH]; intros s s' H; [exact H|].
  rewrite !deducted_cons. apply IH. apply sub_monotone; [exact H | apply Qle_refl].
Qed.

Lemma deducted_equal (l : list ComplianceFlag) (s s' : Q) :
  s == s' -> deducted l s == deducted l s'.
Proof.
  intro E. apply Qle_antisym; apply deducted_monotone; rewrite E; apply Qle_refl.
Qed.

(** Leaving flags out never lowers the running total. *)
Lemma deducted_filter (p : ComplianceFlag -> bool) (l : list ComplianceFlag) :
  forall s, representable s -> deducted l s <= deducted (filter p l) s.
Proof.
  induction l as [|f l IH]; intros s R; [apply Qle_refl|].
  simpl filter. rewrite deducted_cons. destruct (p f).
  - rewrite deducted_cons. apply IH, round_representable.
  - apply Qle_trans with (deducted l s); [|now apply IH].
    apply deducted_monotone. now apply sub_weight_le.
Qed.

(** The length bonus. *)
Lemma lengthBonus_Qmin (n : nat) :
  lengthBonus n == Qmin (double (1 # 10)) (div (inject_Z (Z.of_nat n)) 1000).
Proof. apply Math_min_Qmin. Qed.

Lemma length_ratio_le (n m : nat) :
  (n <= m)%nat -> inject_Z (Z.of_nat n) / 1000 <= inject_Z (Z.of_nat m) / 1000.
Proof.
  intro H. apply Qmult_le_compat_r; [|discriminate].
  rewrite <- Zle_Qle. lia.
Qed.

Lemma lengthBonus_nonneg (n : nat) : 0 <= lengthBonus n.
Proof.
  rewrite lengthBonus_Qmin. apply Q.min_glb; [by_computation|].
  apply round_nonneg. apply Qle_shift_div_l; [reflexivity|].
  rewrite Qmult_0_l. change 0 with (inject_Z 0). rewrite <- Zle_Qle. lia.
Qed.

Lemma lengthBonus_le (n : nat) : lengthBonus n <= double (1 # 10).
Proof. rewrite lengthBonus_Qmin. apply Q.le_min_l. Qed.

Lemma lengthBonus_monotone (n m : nat) : (n <= m)%nat -> lengthBonus n <= lengthBonus m.
Proof.
  intro H. rewrite !lengthBonus_Qmin. apply Q.min_le_compat_l.
  apply round_monotone. now apply length_ratio_le.
Qed.

Lemma lengthBonus_saturated (n : nat) : (100 <= n)%nat -> lengthBonus n == double (1 # 10).
Proof.
  intro H. rewrite lengthBonus_Qmin. apply Q.min_l.
  apply round_monotone.
  apply Qle_trans with (inject_Z (Z.of_nat 100) / 1000); [by_computation|].
  now apply length_ratio_le.
Qed.

(** The score, by cases on the flag list. *)
Lemma score_nonempty (flags : list ComplianceFlag) (n : nat) :
  flags <> [] ->
  calculateComplianceScore flags n
  == clamp01 (add (deducted flags 1) (lengthBonus n)).
Proof.
  intro H. destruct flags as [|f flags]; [congruence|].
  unfold calculateComplianceScore, clamp01.
  rewrite Math_max_Qmax, Math_min_Qmin. reflexivity.
Qed.

Lemma score_cases (flags : list ComplianceFlag) (n : nat) :
  (flags = [] /\ calculateComplianceScore flags n = 1)
  \/ (flags <> []
      /\ calculateComplianceScore flags n
         == clamp01 (add (deducted flags 1) (lengthBonus n))).
Proof.
  destruct flags as [|f flags].
  - left. split; reflexivity.
  - right. split; [discriminate | apply score_nonempty; discriminate].
Qed.

Lemma score_bounds (flags : list ComplianceFlag) (n : nat) :
  0 <= calculateComplianceScore flags n <= 1.
Proof.
  destruct (score_cases flags n) as [(_ & ->) | (_ & ->)].
  - split; discriminate.
  - apply clamp01_bounds.
Qed.

Lemma steps_at_least_one (n : nat) :
  1 <= add (deducted [] 1) (lengthBonus n).
Proof.
  apply round_ge_fixed; [apply representable_1|].
  pose proof (lengthBonus_nonneg n). unfold deducted. simpl. lra.
Qed.

Lemma score_is_by_steps (flags : list ComplianceFlag) (n : nat) :
  calculateComplianceScore flags n == score_by_steps flags n.
Proof.
  unfold score_by_steps. fold (deducted flags 1).
  assert (B : Qmin (double (1 # 10)) (div (inject_Z (Z.of_nat n)) 1000) == lengthBonus n)
    by (symmetry; apply lengthBonus_Qmin).
  rewrite (clamp01_equal _ (add (deducted flags 1) (lengthBonus n)))
    by (apply add_equal; [reflexivity | exact B]).
  destruct (score_cases flags n) as [(-> & ->) | (_ & ->)]; [|reflexivity].
  symmetry. apply clamp01_above, steps_at_least_one.
Qed.

Lemma score_upper (flags : list ComplianceFlag) (n : nat) (t c : Q) :
  flags <> [] ->
  deducted flags 1 <= t ->
  add t (double (1 # 10)) <= c ->
  0 <= c ->
  calculateComplianceScore flags n <= c.
Proof.
  intros Ne T A C. rewrite (score_nonempty flags n Ne).
  apply clamp01_upper; [exact C|].
  apply Qle_trans with (add t (double (1 # 10))); [|exact A].
  apply add_monotone; [exact T | apply lengthBonus_le].
Qed.

Lemma score_lower (flags : list ComplianceFlag) (n : nat) (t c : Q) :
  representable t ->
  t <= deducted flags 1 ->
  c <= t ->
  c <= 1 ->
  c <= calculateComplianceScore flags n.
Proof.
  intros R T C C1. destruct (score_cases flags n) as [(_ & ->) | (_ & ->)]; [exact C1|].
  apply clamp01_lower; [exact C1|].
  apply Qle_trans with t; [exact C|].
  apply round_ge_fixed; [exact R|].
  pose proof (lengthBonus_nonneg n). lra.
Qed.


(** ** The distance between the score and the closed formula *)

Lemma count_q_cons (s : Severity) (f : ComplianceFlag) (flags : list ComplianceFlag) :
  count_q s (f :: flags) ==
  (if Severity_eqb (severity f) s then 1 else 0) + count_q s flags.
Proof.
  unfold count_q, count_severity. simpl.
  destruct (Severity_eqb (severity f) s); simpl List.length.
  - rewrite Nat2Z.inj_succ, <- Z.add_1_l, inject_Z_plus. reflexivity.
  - ring.
Qed.

(** In exact arithmetic the [forEach] subtracts, in total, the weighted
    counts. *)
Lemma fold_weights (flags : list ComplianceFlag) (a : Q) :
  exact_deducted flags a ==
  a - (3 # 10) * count_q high flags
    - (15 # 100) * count_q medium flags
    - (5 # 100) * count_q low flags.
Proof.
  unfold exact_deducted. revert a. induction flags as [|f flags IH]; intro a.
  - simpl. unfold count_q, count_severity. simpl. ring.
  - simpl fold_left. rewrite IH, !count_q_cons.
    unfold exact_weight. destruct (severity f); simpl; ring.
Qed.

Lemma count_q_nonneg (s : Severity) (flags : list ComplianceFlag) : 0 <= count_q s flags.
Proof.
  unfold count_q. change 0 with (inject_Z 0). rewrite <- Zle_Qle. lia.
Qed.

Lemma exact_bonus_bounds (n : nat) :
  0 <= Qmin (1 # 10) (inject_Z (Z.of_nat n) / 1000) <= 1 # 10.
Proof.
  split; [|apply Q.le_min_l].
  apply Q.min_glb; [discriminate|].
  apply Qle_shift_div_l; [reflexivity|].
  rewrite Qmult_0_l. change 0 with (inject_Z 0). rewrite <- Zle_Qle. lia.
Qed.

Lemma score_formula_exact (flags : list ComplianceFlag) (n : nat) :
  score_formula flags n
  == clamp01 (exact_deducted flags 1 + Qmin (1 # 10) (inject_Z (Z.of_nat n) / 1000)).
Proof. unfold score_formula. apply clamp01_equal. rewrite fold_weights. reflexivity. Qed.

Lemma exact_weight_bounds (f : ComplianceFlag) : 1 # 20 <= exact_weight f <= 3 # 10.
Proof. unfold exact_weight. destruct (severity f); split; discriminate. Qed.

Lemma weight_error (f : ComplianceFlag) :
  - (1 # 36028797018963968) <= weight f - exact_weight f <= 1 # 36028797018963968.
Proof. unfold weight, exact_weight. destruct (severity f); split; by_computation. Qed.

Lemma exact_deducted_cons (f : ComplianceFlag) (l : list ComplianceFlag) (s : Q) :
  exact_deducted (f :: l) s = exact_deducted l (s - exact_weight f).
Proof. reflexivity. Qed.

Lemma exact_deducted_decreasing (l : list ComplianceFlag) :
  forall s, exact_deducted l s <= s.
Proof.
  induction l as [|f l IH]; intro s; [apply Qle_refl|].
  rewrite exact_deducted_cons. specialize (IH (s - exact_weight f)).
  pose proof (exact_weight_bounds f). lra.
Qed.

Lemma round_error_53 (x : Q) :
  -2 < x -> x < 2 ->
  - (1 # 9007199254740992) <= round x - x <= 1 # 9007199254740992.
Proof.
  intros L U. apply Qabs_Qle_condition.
  change (1 # 9007199254740992) with (2 ^ (-53)). apply round_error.
  apply Qabs_Qlt_condition. split; assumption.
Qed.

(** While the exact total stays above -1/2 the rounded total follows it,
    with an error that grows with the amount subtracted; once the exact
    total is below -1/2 the rounded total stays below -1/4. *)
Lemma deducted_tracks (l : list ComplianceFlag) :
  forall sf se,
    representable sf -> sf <= 1 -> - (1 # 2) <= se -> se <= 1 ->
    - ((1 - se) * (20 # 4503599627370496)) <= sf - se ->
    sf - se <= (1 - se) * (20 # 4503599627370496) ->
    (- (1 # 2) <= exact_deducted l se
     /\ - ((1 - exact_deducted l se) * (20 # 4503599627370496))
        <= deducted l sf - exact_deducted l se
     /\ deducted l sf - exact_deducted l se
        <= (1 - exact_deducted l se) * (20 # 4503599627370496))
    \/ (exact_deducted l se < - (1 # 2) /\ deducted l sf <= - (1 # 4)).
Proof.
  induction l as [|f l IH]; intros sf se R S1 E0 E1 D0 D1.
  - left. unfold exact_deducted, deducted. simpl. auto.
  - rewrite deducted_cons, exact_deducted_cons.
    pose proof (exact_weight_bounds f) as (W0 & W1).
    pose proof (weight_error f) as (V0 & V1).
    assert (A0 : -2 < sf - weight f) by lra.
    assert (A1 : sf - weight f < 2) by lra.
    pose proof (round_error_53 (sf - weight f) A0 A1) as (X0 & X1).
    fold (sub sf (weight f)) in X0, X1.
    assert (R' : representable (sub sf (weight f))) by apply round_representable.
    assert (S1' : sub sf (weight f) <= 1).
    { apply round_le_fixed; [apply representable_1 | lra]. }
    destruct (Qlt_le_dec (se - exact_weight f) (- (1 # 2))) as [Low | Up].
    + right. split.
      * apply Qle_lt_trans with (se - exact_weight f);
          [apply exact_deducted_decreasing | exact Low].
      * apply Qle_trans with (sub sf (weight f));
          [now apply deducted_decreasing | lra].
    + apply IH; try assumption; lra.
Qed.

Lemma bonus_error (n : nat) :
  - (1 # 9007199254740992)
  <= lengthBonus n - Qmin (1 # 10) (inject_Z (Z.of_nat n) / 1000)
  <= 1 # 9007199254740992.
Proof.
  destruct (Nat.le_gt_cases 100 n) as [H | H].
  - rewrite (lengthBonus_saturated n H).
    rewrite Q.min_l.
    + split; by_computation.
    + apply Qle_trans with (inject_Z (Z.of_nat 100) / 1000); [discriminate|].
      now apply length_ratio_le.
  - rewrite lengthBonus_Qmin. unfold div.
    set (r := inject_Z (Z.of_nat n) / 1000).
    assert (R0 : 0 <= r).
    { apply Qle_shift_div_l; [reflexivity|].
      rewrite Qmult_0_l. change 0 with (inject_Z 0). rewrite <- Zle_Qle. lia. }
    assert (R1 : r <= 1 # 10).
    { apply Qle_trans with (inject_Z (Z.of_nat 100) / 1000); [|discriminate].
      apply length_ratio_le. lia. }
    assert (A0 : -2 < r) by lra. assert (A1 : r < 2) by lra.
    pose proof (round_error_53 r A0 A1) as (X0 & X1).
    assert (T0 : - (1 # 9007199254740992) <= double (1 # 10) - (1 # 10)) by by_computation.
    assert (T1 : double (1 # 10) - (1 # 10) <= 1 # 9007199254740992) by by_computation.
    set (t := double (1 # 10)) in *. set (d := round r) in *.
    destruct (Q.min_spec t d) as [(C' & ->) | (C' & ->)];
      destruct (Q.min_spec (1 # 10) r) as [(C & ->) | (C & ->)]; split; lra.
Qed.

Lemma clamp01_spec (x : Q) :
  (x <= 0 /\ clamp01 x == 0) \/ (0 <= x <= 1 /\ clamp01 x == x)
  \/ (1 <= x /\ clamp01 x == 1).
Proof.
  destruct (Qlt_le_dec x 0) as [L | L].
  - left. split; [lra | apply clamp01_below; lra].
  - destruct (Qlt_le_dec 1 x) as [U | U].
    + right. right. split; [lra | apply clamp01_above; lra].
    + right. left. split; [split; assumption|].
      unfold clamp01. rewrite (Q.min_r 1 x U). now apply Q.max_r.
Qed.

Lemma clamp01_lipschitz (x y e : Q) :
  - e <= x - y <= e -> - e <= clamp01 x - clamp01 y <= e.
Proof.
  intros (L & U).
  destruct (clamp01_spec x) as [(A & Ex) | [(A & Ex) | (A & Ex)]];
    destruct (clamp01_spec y) as [(B & Ey) | [(B & Ey) | (B & Ey)]];
    split; lra.
Qed.

Lemma score_error (flags : list ComplianceFlag) (n : nat) :
  - (1 # 140737488355328)
  <= calculateComplianceScore flags n - score_formula flags n
  <= 1 # 140737488355328.
Proof.
  rewrite score_formula_exact.
  pose proof (exact_bonus_bounds n) as (Q0 & Q1).
  pose proof (bonus_error n) as (B0 & B1).
  pose proof (lengthBonus_nonneg n) as N0. pose proof (lengthBonus_le n) as N1.
  assert (T : double (1 # 10) <= 1 # 8) by by_computation.
  set (bq := Qmin (1 # 10) (inject_Z (Z.of_nat n) / 1000)) in *.
  destruct (score_cases flags n) as [(-> & ->) | (_ & ->)].
  - unfold exact_deducted. simpl fold_left.
    rewrite (clamp01_above (1 + bq)) by lra. split; lra.
  - destruct (deducted_tracks flags 1 1 representable_1) as [(E0 & D0 & D1) | (E & F)];
      try lra.
    + pose proof (exact_deducted_decreasing flags 1) as E1.
      pose proof (deducted_decreasing flags 1 representable_1) as F1.
      set (F := deducted flags 1) in *. set (E := exact_deducted flags 1) in *.
      assert (A0 : -2 < F + lengthBonus n) by lra.
      assert (A1 : F + lengthBonus n < 2) by lra.
      pose proof (round_error_53 (F + lengthBonus n) A0 A1) as (X0 & X1).
      fold (add F (lengthBonus n)) in X0, X1.
      apply clamp01_lipschitz. split; lra.
    + rewrite (clamp01_below (exact_deducted flags 1 + bq)) by lra.
      rewrite clamp01_below; [split; lra|].
      apply Qle_trans with (round 0); [|by_computation].
      apply round_monotone. lra.
Qed.


(** ** The risk classifier *)

Lemma count_severity_pos (s : Severity) (flags : list ComplianceFlag) :
  (0 < count_severity s flags)%nat <-> exists f, In f flags /\ severity f = s.
Proof.
  unfold count_severity. induction flags as [|g flags IH]; simpl.
  - split; [lia | intros (f & [] & _)].
  - destruct (Severity_eqb (severity g) s) eqn:E; simpl.
    + split; [intros _ | lia]. exists g. split; [now left|].
      destruct (severity g), s; simpl in E; congruence.
    + rewrite IH. split.
      * intros (f & Hin & Hs). exists f. auto.
      * intros (f & [Heq | Hin] & Hs); [|exists f; auto].
        subst g. rewrite Hs in E. destruct s; discriminate.
Qed.

Lemma count_severity_le (s : Severity) (flags : list ComplianceFlag) :
  (count_severity s flags <= List.length flags)%nat.
Proof. unfold count_severity. apply filter_length_le. Qed.

Lemma risk_cases (flags : list ComplianceFlag) :
  (high_condition flags /\ determineRiskLevel flags = risk_high)
  \/ (~ high_condition flags /\ medium_condition flags
      /\ determineRiskLevel flags = risk_medium)
  \/ (~ high_condition flags /\ ~ medium_condition flags
      /\ determineRiskLevel flags = risk_low).
Proof.
  unfold high_condition, medium_condition, has_severity, determineRiskLevel.
  rewrite <- !count_severity_pos.
  destruct (0 <? count_severity high flags)%nat eqn:H.
  { apply Nat.ltb_lt in H. left. auto. }
  apply Nat.ltb_ge in H.
  destruct (2 <? count_severity medium flags)%nat eqn:M.
  { apply Nat.ltb_lt in M. left. auto. }
  apply Nat.ltb_ge in M. right.
  destruct (0 <? count_severity medium flags)%nat eqn:M0; simpl.
  { apply Nat.ltb_lt in M0. left. repeat split; auto. lia. }
  apply Nat.ltb_ge in M0.
  destruct (3 <? List.length flags)%nat eqn:L.
  { apply Nat.ltb_lt in L. left. repeat split; auto. lia. }
  apply Nat.ltb_ge in L. right. repeat split; auto; lia.
Qed.

(** ** Flags that bound the running total *)

(** The running total is at most that of a beginning of the flags of some
    kind. *)
Lemma deducted_le_prefix (p : ComplianceFlag -> bool) (flags l1 rest : list ComplianceFlag) :
  filter p flags = (l1 ++ rest)%list -> deducted flags 1 <= deducted l1 1.
Proof.
  intro E. apply Qle_trans with (deducted (filter p flags) 1).
  - apply deducted_filter, representable_1.
  - rewrite E, deducted_app. apply deducted_decreasing, deducted_representable, representable_1.
Qed.

Lemma severe_prefix (s : Severity) (k : nat) (flags : list ComplianceFlag) :
  (k <= count_severity s flags)%nat ->
  exists l1 rest,
    filter (fun f => Severity_eqb (severity f) s) flags = (l1 ++ rest)%list
    /\ List.length l1 = k
    /\ Forall (fun f => severity f = s) l1.
Proof.
  intro H. unfold count_severity in H.
  set (l := filter (fun f => Severity_eqb (severity f) s) flags) in *.
  exists (firstn k l), (skipn k l). split; [symmetry; apply firstn_skipn|].
  split; [apply firstn_length_le; exact H|].
  apply Forall_forall. intros f I.
  assert (I' : In f l) by (rewrite <- (firstn_skipn k l); apply in_or_app; now left).
  apply filter_In in I' as (_ & E).
  destruct (severity f), s; simpl in E; congruence.
Qed.

Lemma first_flags (k : nat) (flags : list ComplianceFlag) :
  (k <= List.length flags)%nat ->
  exists l1 rest,
    filter (fun _ => true) flags = (l1 ++ rest)%list /\ List.length l1 = k.
Proof.
  intro H. exists (firstn k flags), (skipn k flags). split.
  - rewrite firstn_skipn. induction flags as [|f l IH]; simpl; [reflexivity|].
    f_equal. destruct k; [apply IH; lia|]. clear. induction l; simpl; congruence.
  - now apply firstn_length_le.
Qed.

(** The totals of one high, of three medium, of one medium and of four low
    flags. *)
Lemma deducted_one_high (flags : list ComplianceFlag) :
  (1 <= count_severity high flags)%nat ->
  flags <> [] /\ deducted flags 1 <= sub 1 (double (3 # 10)).
Proof.
  intro H. split; [intros ->; cbv in H; lia|].
  destruct (severe_prefix high 1 flags H) as (l1 & rest & E & L & F).
  apply Qle_trans with (deducted l1 1); [now apply (deducted_le_prefix _ _ _ _ E)|].
  destruct l1 as [|a [|b l1]]; try discriminate L.
  inversion F as [|? ? Ha _]; subst.
  unfold deducted. simpl. rewrite (weight_of a high Ha). apply Qle_refl.
Qed.

Lemma deducted_three_medium (flags : list ComplianceFlag) :
  (3 <= count_severity medium flags)%nat ->
  flags <> []
  /\ deducted flags 1
     <= sub (sub (sub 1 (double (15 # 100))) (double (15 # 100))) (double (15 # 100)).
Proof.
  intro H. split; [intros ->; cbv in H; lia|].
  destruct (severe_prefix medium 3 flags H) as (l1 & rest & E & L & F).
  apply Qle_trans with (deducted l1 1); [now apply (deducted_le_prefix _ _ _ _ E)|].
  destruct l1 as [|a [|b [|c [|d l1]]]]; try discriminate L.
  inversion F as [|? ? Ha F1]; subst. inversion F1 as [|? ? Hb F2]; subst.
  inversion F2 as [|? ? Hc _]; subst.
  unfold deducted. simpl.
  rewrite (weight_of a medium Ha), (weight_of b medium Hb), (weight_of c medium Hc).
  apply Qle_refl.
Qed.

Lemma deducted_one_medium (flags : list ComplianceFlag) :
  (1 <= count_severity medium flags)%nat ->
  flags <> [] /\ deducted flags 1 <= sub 1 (double (15 # 100)).
Proof.
  intro H. split; [intros ->; cbv in H; lia|].
  destruct (severe_prefix medium 1 flags H) as (l1 & rest & E & L & F).
  apply Qle_trans with (deducted l1 1); [now apply (deducted_le_prefix _ _ _ _ E)|].
  destruct l1 as [|a [|b l1]]; try discriminate L.
  inversion F as [|? ? Ha _]; subst.
  unfold deducted. simpl. rewrite (weight_of a medium Ha). apply Qle_refl.
Qed.

Lemma deducted_four_flags (flags : list ComplianceFlag) :
  (4 <= List.length flags)%nat ->
  flags <> []
  /\ deducted flags 1
     <= sub (sub (sub (sub 1 (double (5 # 100))) (double (5 # 100))) (double (5 # 100)))
            (double (5 # 100)).
Proof.
  intro H. split; [intros ->; cbv in H; lia|].
  destruct (first_flags 4 flags H) as (l1 & rest & E & L).
  apply Qle_trans with (deducted l1 1); [now apply (deducted_le_prefix _ _ _ _ E)|].
  destruct l1 as [|a [|b [|c [|d [|e l1]]]]]; try discriminate L.
  unfold deducted. simpl.
  repeat (apply sub_monotone; [|apply weight_low_least]). apply Qle_refl.
Qed.

Lemma high_condition_score (flags : list ComplianceFlag) (n : nat) :
  high_condition flags -> calculateComplianceScore flags n <= 8 # 10.
Proof.
  intros [H | M].
  - apply count_severity_pos in H. destruct (deducted_one_high flags H) as (Ne & T).
    apply (score_upper flags n _ _ Ne T); by_computation.
  - destruct (deducted_three_medium flags M) as (Ne & T).
    apply (score_upper flags n _ _ Ne T); by_computation.
Qed.

Lemma medium_condition_score (flags : list ComplianceFlag) (n : nat) :
  medium_condition flags -> calculateComplianceScore flags n <= 95 # 100.
Proof.
  intros [H | M].
  - apply count_severity_pos in H. destruct (deducted_one_medium flags H) as (Ne & T).
    apply (score_upper flags n _ _ Ne T); by_computation.
  - destruct (deducted_four_flags flags M) as (Ne & T).
    apply (score_upper flags n _ _ Ne T); by_computation.
Qed.

(** ** The claims *)

(** C1, as amended.  [calculateComplianceScore] carries out the steps of the
    specification in binary64, in the order of the flags: it starts at 1.0,
    subtracts 0.3, 0.15 or 0.05 per flag, adds [min(0.1, n/1000)] and clamps
    to [0,1], each operation rounded.  The result is within [2^-47] of the
    closed formula [clamp(1 - 0.30*high - 0.15*medium - 0.05*low +
    min(0.10, n/1000))] of exact arithmetic, it always lies in [0,1], and
    the early return 1.0 for the empty list is the value of the steps and of
    the formula. *)
Theorem calculateComplianceScore_rounded_steps :
  forall (flags : list ComplianceFlag) (n : nat),
    calculateComplianceScore flags n == score_by_steps flags n
    /\ Qabs (calculateComplianceScore flags n - score_formula flags n) <= 2 ^ (-47)
    /\ 0 <= calculateComplianceScore flags n <= 1
    /\ calculateComplianceScore [] n = 1
    /\ score_by_steps [] n == 1
    /\ score_formula [] n == 1.
Proof.
  intros flags n. split; [apply score_is_by_steps|]. split.
  { apply Qabs_Qle_condition. change (2 ^ (-47)) with (1 # 140737488355328).
    apply score_error. }
  split; [apply score_bounds|]. split; [reflexivity|]. split.
  - rewrite <- score_is_by_steps. reflexivity.
  - rewrite score_formula_exact. apply clamp01_above.
    pose proof (exact_bonus_bounds n). unfold exact_deducted. simpl. lra.
Qed.

(** C1, as stated, fails: for three low-severity flags and an empty content
    the code returns 0.8499999999999999, the closed formula gives 0.85, and
    the two differ even after 0.85 is rounded to binary64. *)
Lemma score_differs_from_the_closed_formula :
  calculateComplianceScore
    [mkFlag brand_rule low "a" None None; mkFlag brand_rule low "b" None None;
     mkFlag brand_rule low "c" None None] 0
  == three_low_score
  /\ score_formula
       [mkFlag brand_rule low "a" None None; mkFlag brand_rule low "b" None None;
        mkFlag brand_rule low "c" None None] 0
     == 85 # 100
  /\ calculateComplianceScore
       [mkFlag brand_rule low "a" None None; mkFlag brand_rule low "b" None None;
        mkFlag brand_rule low "c" None None] 0
     < score_formula
         [mkFlag brand_rule low "a" None None; mkFlag brand_rule low "b" None None;
          mkFlag brand_rule low "c" None None] 0
  /\ three_low_score < double (85 # 100)
  /\ double (85 # 100) < 85 # 100.
Proof. repeat split; by_computation. Qed.

(** C2, as amended.  [determineRiskLevel] answers ['high'] exactly when the
    list has a high-severity flag or more than two medium-severity flags;
    otherwise ['medium'] exactly when it has a medium-severity flag or more
    than three flags; otherwise ['low'].  The label does not follow the
    score: one high-severity flag with content length 1000 scores
    0.7999999999999999, which is not the minimum, and is still ['high']. *)
Theorem determineRiskLevel_classifier :
  (forall flags : list ComplianceFlag,
      (determineRiskLevel flags = risk_high <-> high_condition flags)
      /\ (determineRiskLevel flags = risk_medium
          <-> ~ high_condition flags /\ medium_condition flags)
      /\ (determineRiskLevel flags = risk_low
          <-> ~ high_condition flags /\ ~ medium_condition flags))
  /\ (forall (t : FlagType) (msg : string) (sg : option string) (pos : option Position),
        calculateComplianceScore [mkFlag t high msg sg pos] 1000 == one_high_score
        /\ 0 < calculateComplianceScore [mkFlag t high msg sg pos] 1000
        /\ determineRiskLevel [mkFlag t high msg sg pos] = risk_high).
Proof.
  split.
  - intro flags.
    destruct (risk_cases flags) as [(H & R) | [(H & M & R) | (H & M & R)]];
      rewrite R; repeat split; intros; try tauto; try discriminate.
  - intros t msg sg pos. split; [|split]; [by_computation | by_computation | reflexivity].
Qed.

(** C2, as stated, fails in its example: the score of one high-severity flag
    with content length 1000 is not 0.8; it is the binary64 number below the
    one nearest to 0.8. *)
Lemma one_high_flag_does_not_score_08 :
  calculateComplianceScore [mkFlag brand_rule high "a" None None] 1000 == one_high_score
  /\ one_high_score < 8 # 10
  /\ one_high_score < double (8 # 10)
  /\ ~ calculateComplianceScore [mkFlag brand_rule high "a" None None] 1000 == 8 # 10.
Proof.
  split; [by_computation|]. split; [by_computation|]. split; [by_computation|].
  intro E. apply Qeq_bool_iff in E. vm_compute in E. discriminate E.
Qed.

Lemma low_risk_flags (F : list ComplianceFlag) :
  determineRiskLevel F = risk_low ->
  (List.length F <= 3)%nat /\ forall f, In f F -> weight f = double (5 # 100).
Proof.
  intro R.
  destruct (risk_cases F) as [(H & R') | [(H & M & R') | (H & M & _)]];
    try congruence.
  unfold high_condition, medium_condition in H, M.
  split; [lia|]. intros f I. apply (weight_of f low).
  destruct (severity f) eqn:S; [reflexivity | | ].
  - exfalso. apply M. left. exists f. auto.
  - exfalso. apply H. left. exists f. auto.
Qed.

(** C9, as amended.  A ['low'] risk label only goes with a score of at least
    0.8499999999999999, the score of three low-severity flags on an empty
    content; this bound lies less than [2^-52] below 0.85. *)
Theorem low_risk_score_at_least_three_low_score :
  forall (F : list ComplianceFlag) (n : nat),
    determineRiskLevel F = risk_low ->
    three_low_score <= calculateComplianceScore F n
    /\ (85 # 100) - 2 ^ (-52) < calculateComplianceScore F n.
Proof.
  intros F n R.
  assert (B : three_low_score <= calculateComplianceScore F n).
  { destruct (low_risk_flags F R) as (L & W).
    apply (score_lower F n (deducted F 1));
      [apply deducted_representable, representable_1 | apply Qle_refl | | by_computation].
    destruct F as [|a [|b [|c [|d F]]]]; simpl in L; try lia;
      unfold deducted; simpl fold_left;
      rewrite ?(W a), ?(W b), ?(W c) by (simpl; auto); by_computation. }
  split; [exact B|].
  apply Qlt_le_trans with three_low_score; [by_computation | exact B].
Qed.

Lemma low_risk_score_at_least_three_low_score_witness :
  determineRiskLevel [mkFlag brand_rule low "m" None None] = risk_low
  /\ three_low_score <= calculateComplianceScore [mkFlag brand_rule low "m" None None] 0.
Proof.
  split; [reflexivity|].
  apply (low_risk_score_at_least_three_low_score [mkFlag brand_rule low "m" None None] 0).
  reflexivity.
Defined.

(** C9, as stated, fails: three low-severity flags on an empty content are
    a ['low'] risk with a score below 0.85. *)
Lemma low_risk_score_below_085 :
  determineRiskLevel
    [mkFlag brand_rule low "a" None None; mkFlag brand_rule low "b" None None;
     mkFlag brand_rule low "c" None None] = risk_low
  /\ calculateComplianceScore
       [mkFlag brand_rule low "a" None None; mkFlag brand_rule low "b" None None;
        mkFlag brand_rule low "c" None None] 0
     < 85 # 100.
Proof. split; [reflexivity | by_computation]. Qed.

End ScorerProofs.

(* ================================================================== *)
(** * Properties of strings and of the matcher                        *)
(* ================================================================== *)

Module StringFacts.

Import JsString Regex ScriptEditor.
#[local] Open Scope nat_scope.
#[local] Open Scope string_scope.



Lemma prefix_length (p s : string) : prefix p s = true -> String.length p <= String.length s.
Proof.
  revert s. induction p as [|c p IH]; intros s H; simpl; [lia|].
  destruct s as [|d s]; simpl in *; [discriminate|].
  destruct (ascii_dec c d); [|discriminate]. apply IH in H. lia.
Qed.

Lemma drop_length (i : nat) (s : string) :
  i <= String.length s -> String.length (drop i s) = String.length s - i.
Proof.
  revert s. induction i as [|i IH]; intros s H; simpl.
  - destruct s; simpl; lia.
  - destruct s as [|c s]; simpl in *; [lia|]. apply IH. lia.
Qed.

Lemma indexOf_eq (s pat : string) :
  indexOf s pat =
  if prefix pat s then Some 0
  else match s with
       | "" => None
       | String _ s' => option_map S (indexOf s' pat)
       end.
Proof. now destruct s. Qed.

Lemma includes_eq (s pat : string) :
  includes s pat =
  if prefix pat s then true
  else match s with
       | "" => false
       | String _ s' => includes s' pat
       end.
Proof. now destruct s. Qed.

Lemma indexOf_first (s pat : string) (i : nat) :
  indexOf s pat = Some i -> first_occurrence s pat i.
Proof.
  revert i. induction s as [|c s IH]; intros i H; rewrite indexOf_eq in H.
  - destruct (prefix pat "") eqn:P; [|discriminate].
    injection H as <-. repeat split; simpl; auto; lia.
  - destruct (prefix pat (String c s)) eqn:P.
    + injection H as <-. repeat split; simpl; auto; lia.
    + destruct (indexOf s pat) as [i'|]; [|discriminate]. simpl in H.
      injection H as <-. destruct (IH i' eq_refl) as ((L & O) & F).
      repeat split; simpl; auto; [lia|].
      intros [|j] Hj; simpl; [exact P | apply F; lia].
Qed.

Lemma includes_indexOf (s pat : string) :
  includes s pat = true <-> exists i, indexOf s pat = Some i.
Proof.
  induction s as [|c s IH]; rewrite includes_eq, indexOf_eq.
  - destruct (prefix pat ""); split; eauto; try discriminate. now intros (i & ?).
  - destruct (prefix pat (String c s)); [split; eauto|].
    rewrite IH. destruct (indexOf s pat) as [i|]; simpl; split; eauto;
      now intros (i & ?).
Qed.

Lemma includes_occurs_at (s pat : string) :
  includes s pat = true <-> exists i, occurs_at s pat i.
Proof.
  split.
  - intro H. apply includes_indexOf in H as (i & H).
    exists i. now apply indexOf_first in H as (O & _).
  - intros (i & L & O). revert i L O.
    induction s as [|c s IH]; intros i L O; rewrite includes_eq.
    + simpl in L. assert (i = 0) by lia. subst i.
      change (drop 0 "") with "" in O. now rewrite O.
    + destruct (prefix pat (String c s)) eqn:P; [reflexivity|].
      destruct i as [|i]; [change (drop 0 (String c s)) with (String c s) in O; congruence|].
      change (drop (S i) (String c s)) with (drop i s) in O.
      apply (IH i); [simpl in L; lia | exact O].
Qed.

Lemma includes_occurs (content keyword : string) :
  includes (toLowerCase content) (toLowerCase keyword) = true <-> occurs content keyword.
Proof. apply includes_occurs_at. Qed.





End StringFacts.

Module RegexFacts.

Import JsString Regex ScriptEditor.
#[local] Open Scope nat_scope.
#[local] Open Scope string_scope.

Lemma star_set_advances (p : ascii -> bool) (s : string) :
  forall prev pos k e,
    star_set p prev s pos k = Some e -> advances false s pos k e.
Proof.
  induction s as [|c s IH]; intros prev pos k e H; simpl in H.
  - exists prev, "", pos. repeat split; auto; discriminate.
  - destruct (p c).
    + destruct (star_set p (Some c) s (S pos) k) as [e'|] eqn:E.
      * injection H as ->. apply IH in E as (prev' & s' & pos' & K & L & N & _).
        exists prev', s', pos'. repeat split; auto; simpl; try lia; discriminate.
      * exists prev, (String c s), pos. repeat split; auto; discriminate.
    + exists prev, (String c s), pos. repeat split; auto; discriminate.
Qed.

Lemma run_advances (ic : bool) (r : regex) :
  forall prev s pos k e,
    run ic r prev s pos k = Some e -> advances (consumes r) s pos k e.
Proof.
  induction r as [ | c | p | p | | r1 IH1 r2 IH2 | r1 IH1 r2 IH2 ];
    intros prev s pos k e H; simpl in H.
  - exists prev, s, pos. repeat split; auto; discriminate.
  - destruct s as [|x s]; [discriminate|].
    destruct (char_match ic c x); [|discriminate].
    exists (Some x), s, (S pos). repeat split; auto; simpl; lia.
  - destruct s as [|x s]; [discriminate|].
    destruct (p x); [|discriminate].
    exists (Some x), s, (S pos). repeat split; auto; simpl; lia.
  - now apply star_set_advances in H.
  - destruct (xorb (word_before prev) (word_after s)); [|discriminate].
    exists prev, s, pos. repeat split; auto; discriminate.
  - apply IH1 in H as (prev1 & s1 & pos1 & K1 & L1 & N1 & S1).
    apply IH2 in K1 as (prev2 & s2 & pos2 & K2 & L2 & N2 & S2).
    exists prev2, s2, pos2. repeat split; auto; try lia.
    simpl. intro C. apply orb_true_iff in C as [C | C]; [apply S1 in C | apply S2 in C]; lia.
  - simpl. destruct (run ic r1 prev s pos k) as [e'|] eqn:E.
    + injection H as ->. apply IH1 in E as (prev' & s' & pos' & K & L & N & S1).
      exists prev', s', pos'. repeat split; auto.
      intro C. apply andb_true_iff in C as [C _]. auto.
    + apply IH2 in H as (prev' & s' & pos' & K & L & N & S2).
      exists prev', s', pos'. repeat split; auto.
      intro C. apply andb_true_iff in C as [_ C]. auto.
Qed.

Lemma match_at_bounds (re : RegExp) (prev : option ascii) (s : string) (pos e : nat) :
  match_at re prev s pos = Some e ->
  pos <= e <= pos + String.length s /\ (consumes (source re) = true -> pos < e).
Proof.
  unfold match_at. intro H.
  apply run_advances in H as (prev' & s' & pos' & K & L & N & S1).
  injection K as <-. repeat split; auto; lia.
Qed.

Lemma seek_length (s : string) :
  forall prev i prev' s',
    seek prev s i = Some (prev', s') -> i + String.length s' = String.length s.
Proof.
  induction s as [|c s IH]; intros prev [|i] prev' s' H; simpl in H;
    try discriminate; try (injection H as <- <-; reflexivity).
  apply IH in H. simpl. lia.
Qed.

Lemma seek_beyond (s : string) :
  forall prev i, String.length s < i -> seek prev s i = None.
Proof.
  induction s as [|c s IH]; intros prev [|i] H; simpl in *; try lia; auto.
  apply IH. lia.
Qed.

Lemma seek_none (s : string) :
  forall prev i, seek prev s i = None -> String.length s < i.
Proof.
  induction s as [|c s IH]; intros prev [|i] H; simpl in *; try discriminate; try lia.
  apply IH in H. lia.
Qed.

Lemma seek_step (s : string) :
  forall prev i prev' c s',
    seek prev s i = Some (prev', String c s') ->
    seek prev s (S i) = Some (Some c, s').
Proof.
  induction s as [|d s IH]; intros prev [|i] prev' c s' H; simpl in H; try discriminate.
  - injection H as <- <- <-. reflexivity.
  - apply IH in H. exact H.
Qed.

(** [search] finds the leftmost anchored match at or after its start. *)
Lemma search_spec (re : RegExp) (content : string) (s : string) :
  forall prev pos,
    seek None content pos = Some (prev, s) ->
    match search re prev s pos with
    | Some (i, e) =>
      pos <= i /\ attempt re content i = Some e
      /\ (forall j, pos <= j < i -> attempt re content j = None)
    | None => forall j, pos <= j -> attempt re content j = None
    end.
Proof.
  induction s as [|c s IH]; intros prev pos K; simpl.
  - destruct (match_at re prev "" pos) as [e|] eqn:M.
    + repeat split; auto. { unfold attempt. now rewrite K. } intros j Hj; lia.
    + intros j Hj. unfold attempt.
      destruct (Nat.eq_dec j pos) as [->|Hne]; [now rewrite K|].
      apply seek_length in K. simpl in K.
      rewrite seek_beyond; [reflexivity | lia].
  - destruct (match_at re prev (String c s) pos) as [e|] eqn:M.
    + repeat split; auto. { unfold attempt. now rewrite K. } intros j Hj; lia.
    + pose proof (seek_step _ _ _ _ _ _ K) as K'. specialize (IH _ _ K').
      assert (A : attempt re content pos = None) by (unfold attempt; now rewrite K).
      destruct (search re (Some c) s (S pos)) as [[i e]|].
      * destruct IH as (L & At & G). repeat split; auto; [lia|].
        intros j Hj. destruct (Nat.eq_dec j pos) as [->|Hne]; [exact A|].
        apply G. lia.
      * intros j Hj. destruct (Nat.eq_dec j pos) as [->|Hne]; [exact A|].
        apply IH. lia.
Qed.

Lemma attempt_bounds (re : RegExp) (content : string) (j e : nat) :
  attempt re content j = Some e ->
  j <= e <= String.length content /\ (consumes (source re) = true -> j < e).
Proof.
  unfold attempt. destruct (seek None content j) as [[prev s]|] eqn:K; [|discriminate].
  intro M. apply match_at_bounds in M. apply seek_length in K. intuition lia.
Qed.

(** [exec] of a global expression, read through [attempt]. *)
Lemma exec_spec (re : RegExp) (content : string) (lastIndex : nat) :
  global re = true ->
  match exec re content lastIndex with
  | Some (i, e) =>
    lastIndex <= i /\ attempt re content i = Some e
    /\ (forall j, lastIndex <= j < i -> attempt re content j = None)
  | None => forall j, lastIndex <= j -> attempt re content j = None
  end.
Proof.
  intro G. unfold exec. rewrite G.
  destruct (seek None content lastIndex) as [[prev s]|] eqn:K.
  - now apply search_spec.
  - intros j Hj. unfold attempt.
    destruct (seek None content j) as [[prev s]|] eqn:Kj; [|reflexivity].
    apply seek_length in Kj. apply seek_none in K. lia.
Qed.

(** The scan loop returns the successive matches. *)
Lemma exec_loop_successive (re : RegExp) (content : string) :
  global re = true ->
  forall fuel lastIndex ms,
    exec_loop fuel re content lastIndex = Some ms ->
    successive re content lastIndex ms.
Proof.
  intros G fuel. induction fuel as [|fuel IH]; intros lastIndex ms H; simpl in H;
    [discriminate|].
  pose proof (exec_spec re content lastIndex G) as E.
  destruct (exec re content lastIndex) as [[i e]|].
  - destruct (exec_loop fuel re content (next_lastIndex re lastIndex e)) as [ms'|] eqn:L;
      [|discriminate].
    injection H as <-. destruct E as (Li & At & Gap).
    unfold next_lastIndex in L. rewrite G in L.
    apply successive_next; auto.
  - injection H as <-. now apply successive_done.
Qed.

(** The scan loop of a global expression whose matches are never empty
    stops: fuel beyond the length of the content is never used up. *)
Lemma exec_loop_total (re : RegExp) (content : string) :
  global re = true ->
  consumes (source re) = true ->
  forall fuel lastIndex,
    String.length content + 2 <= fuel + lastIndex ->
    lastIndex <= String.length content + 1 ->
    exists ms, exec_loop fuel re content lastIndex = Some ms.
Proof.
  intros G C fuel. induction fuel as [|fuel IH]; intros lastIndex F L; [lia|].
  simpl. pose proof (exec_spec re content lastIndex G) as E.
  destruct (exec re content lastIndex) as [[i e]|]; [|eauto].
  destruct E as (Li & At & _). apply attempt_bounds in At as ((A1 & A2) & A3).
  specialize (A3 C). unfold next_lastIndex. rewrite G.
  destruct (IH e) as (ms & ->); [lia | lia |]. simpl. eauto.
Qed.

(** Every platform rule is a global, case-insensitive expression whose
    matches are never empty. *)
Lemma tosRules_shape (rule : ComplianceRule) :
  In rule tosRules ->
  exists re, pattern rule = PRegExp re /\ reflag re = re
             /\ global re = true /\ consumes (source re) = true.
Proof.
  intro H. simpl in H.
  repeat (destruct H as [<- | H]; [eexists; repeat split; reflexivity|]).
  destruct H.
Qed.

End RegexFacts.

(* ================================================================== *)
(** * Properties of the compliance rule engine                        *)
(* ================================================================== *)

Module RuleEngineProofs.

Import JsString Regex ScriptEditor StringFacts RegexFacts.
#[local] Open Scope nat_scope.
#[local] Open Scope string_scope.

Lemma forbidden_step_cases (content keyword : string) :
  (~ occurs content keyword /\ forbidden_step (toLowerCase content) keyword = [])
  \/ (exists i,
        first_occurrence (toLowerCase content) (toLowerCase keyword) i
        /\ forbidden_step (toLowerCase content) keyword = [forbidden_flag keyword i]).
Proof.
  unfold forbidden_step.
  destruct (includes (toLowerCase content) (toLowerCase keyword)) eqn:I.
  - right. pose proof I as I'. apply includes_indexOf in I' as (i & Hi).
    exists i. rewrite Hi. split; [now apply indexOf_first | reflexivity].
  - left. split; [|reflexivity]. intro O. apply includes_occurs in O. congruence.
Qed.

Lemma checkBrandRules_split (content : string) (br : BrandRule) :
  exists advisory,
    checkBrandRules content br
    = (flat_map (forbidden_step (toLowerCase content)) (forbidden_keywords br) ++ advisory)%list
    /\ (advisory = [] \/ advisory = [required_flag (required_keywords br)]).
Proof.
  unfold checkBrandRules.
  destruct (0 <? List.length (required_keywords br))%nat.
  - destruct (existsb _ (required_keywords br)); simpl.
    + exists []. rewrite app_nil_r. auto.
    + eexists. split; [reflexivity | auto].
  - exists []. rewrite app_nil_r. auto.
Qed.

Lemma platform_rule_matches (content : string) (fuel : nat) (rule : ComplianceRule) :
  In rule tosRules ->
  String.length content + 2 <= fuel ->
  exists re ms,
    pattern rule = PRegExp re
    /\ findRuleMatches fuel content rule = Some ms
    /\ successive re content 0 ms
    /\ rule_flags fuel content rule = Some (map (rule_flag rule) ms).
Proof.
  intros H F. destruct (tosRules_shape rule H) as (re & P & R & G & C).
  destruct (exec_loop_total re content G C fuel 0) as (ms & E); try lia.
  exists re, ms. unfold rule_flags, findRuleMatches. rewrite P, R, E.
  repeat split. now apply exec_loop_successive with (fuel := fuel).
Qed.











End RuleEngineProofs.

(* ================================================================== *)
(** * Properties of the insight aggregator                            *)
(* ================================================================== *)

Module IngestionProofs.

Import JsString Regex Ingestion.
#[local] Open Scope string_scope.
#[local] Open Scope Q_scope.

Lemma Qlt_bool_iff (a b : Q) : Qlt_bool a b = true <-> a < b.
Proof.
  unfold Qlt_bool. rewrite negb_true_iff. split.
  - intro H. apply Qnot_le_lt. intro L. apply Qle_bool_iff in L. congruence.
  - intro H. destruct (Qle_bool b a) eqn:E; [|reflexivity].
    apply Qle_bool_iff in E. exfalso. exact (Qlt_not_le _ _ H E).
Qed.

Lemma Qlt_bool_false (a b : Q) : b <= a -> Qlt_bool a b = false.
Proof.
  intro H. destruct (Qlt_bool a b) eqn:E; [|reflexivity].
  apply Qlt_bool_iff in E. exfalso. exact (Qlt_not_le _ _ E H).
Qed.

(** The routing of one (review, theme) pair. *)
Lemma route_cases (sentiment : Q) (quote : string) (painPoints delightFactors : ThemeMap)
    (theme : string) :
  (sentiment < 0 ->
     route sentiment quote (painPoints, delightFactors) theme
     = (record_mention painPoints theme sentiment quote, delightFactors))
  /\ (3 # 10 < sentiment ->
       route sentiment quote (painPoints, delightFactors) theme
       = (painPoints, record_mention delightFactors theme sentiment quote))
  /\ (0 <= sentiment <= 3 # 10 ->
       route sentiment quote (painPoints, delightFactors) theme
       = (painPoints, delightFactors)).
Proof.
  unfold route. repeat split.
  - intro H. apply Qlt_bool_iff in H. now rewrite H.
  - intro H. rewrite (Qlt_bool_false sentiment 0).
    + apply Qlt_bool_iff in H. now rewrite H.
    + apply Qlt_le_weak. apply Qlt_trans with (3 # 10); [reflexivity | exact H].
  - intros [H0 H3]. now rewrite (Qlt_bool_false _ _ H0), (Qlt_bool_false _ _ H3).
Qed.

(** C3.  On the three reviews of the scenario, [processReviews] reports the
    theme [taste_quality] among the pain points with 2 mentions and sentiment
    -0.75, the mean of (1-3)/2 and (2-3)/2, and among the delight factors
    with 1 mention and sentiment 1.0, so one theme sits in both buckets.  A
    (review, theme) pair goes to the pain points when the sentiment is below
    0, to the delight factors when it is above 0.3, and to neither bucket
    when it lies in [0, 0.3]. *)
Theorem taste_quality_in_both_buckets :
  (exists p,
      In p (pain_points (processReviews scenario_reviews))
      /\ theme p = "taste_quality" /\ mentions p = 2%nat /\ sentiment p == - (3 # 4))
  /\ (exists d,
        In d (delight_factors (processReviews scenario_reviews))
        /\ theme d = "taste_quality" /\ mentions d = 1%nat /\ sentiment d == 1)
  /\ (calculateSentiment 1 == -1 /\ calculateSentiment 2 == - (1 # 2)
      /\ calculateSentiment 5 == 1
      /\ (calculateSentiment 1 + calculateSentiment 2) / 2 == - (3 # 4))
  /\ (forall (sentiment : Q) (quote : string) (painPoints delightFactors : ThemeMap)
             (theme : string),
        (sentiment < 0 ->
           route sentiment quote (painPoints, delightFactors) theme
           = (record_mention painPoints theme sentiment quote, delightFactors))
        /\ (3 # 10 < sentiment ->
             route sentiment quote (painPoints, delightFactors) theme
             = (painPoints, record_mention delightFactors theme sentiment quote))
        /\ (0 <= sentiment <= 3 # 10 ->
             route sentiment quote (painPoints, delightFactors) theme
             = (painPoints, delightFactors))).
Proof.
  split; [|split; [|split]].
  - eexists. split; [vm_compute; left; reflexivity|]. repeat split.
  - eexists. split; [vm_compute; left; reflexivity|]. repeat split.
  - repeat split.
  - exact route_cases.
Qed.

End IngestionProofs.

(* ================================================================== *)
(** * Properties of the scraping manager                              *)
(* ================================================================== *)

Module ScrapingProofs.

Import Js JsString Scraping.
#[local] Open Scope string_scope.

(** What [Array.prototype.find] returns is the first element that passes
    the test. *)
Lemma find_first {A : Type} (f : A -> bool) (l : list A) (x : A) :
  find f l = Some x ->
  exists l1 l2, l = (l1 ++ x :: l2)%list /\ f x = true /\ forall y, In y l1 -> f y = false.
Proof.
  induction l as [|a l IH]; simpl; [discriminate|].
  destruct (f a) eqn:E.
  - intros [= <-]. exists [], l. repeat split; auto. intros y [].
  - intro H. destruct (IH H) as (l1 & l2 & -> & Fx & Before).
    exists (a :: l1), l2. repeat split; auto.
    intros y [<- | Hy]; auto.
Qed.

(** C10.  [scrapeProduct] always finds a scraper: the list is tried in the
    order TikTok Shop, Amazon, AliExpress, generic, the generic scraper
    accepts every URL, so [find] never answers [undefined] and the URL goes
    to the first scraper whose [canHandle] accepts it. *)
Theorem scrapeProduct_always_dispatches :
  forall (URL_parse : string -> option URL) (Data : Type)
         (connector : Scraper -> string -> thrown + ScrapingResult Data) (url : string),
    scrapers = [TikTokShopScraper; AmazonScraper; AliExpressScraper; GenericExternalScraper]
    /\ canHandle URL_parse GenericExternalScraper url = true
    /\ exists scraper tried_before tried_after,
         find (fun s => canHandle URL_parse s url) scrapers = Some scraper
         /\ scrapers = (tried_before ++ scraper :: tried_after)%list
         /\ canHandle URL_parse scraper url = true
         /\ (forall s, In s tried_before -> canHandle URL_parse s url = false)
         /\ scrapeProduct URL_parse Data connector url
            = match connector scraper url with
              | inr r => r
              | inl e => failure Data (error_message e "Scraping failed")
              end.
Proof.
  intros URL_parse Data connector url. split; [reflexivity|]. split; [reflexivity|].
  destruct (find (fun s => canHandle URL_parse s url) scrapers) as [scraper|] eqn:F.
  - destruct (find_first _ _ _ F) as (l1 & l2 & E & H & Before).
    exists scraper, l1, l2. repeat split; auto.
    unfold scrapeProduct. now rewrite F.
  - exfalso. unfold scrapers in F. cbn [find] in F.
    destruct (canHandle URL_parse TikTokShopScraper url); [discriminate|].
    destruct (canHandle URL_parse AmazonScraper url); [discriminate|].
    destruct (canHandle URL_parse AliExpressScraper url); [discriminate|].
    change (canHandle URL_parse GenericExternalScraper url) with true in F.
    discriminate.
Qed.

End ScrapingProofs.

(* ================================================================== *)
(** * Properties of the AI response validation                        *)
(* ================================================================== *)

Module AIProofs.

Import Js JsString Regex AI.
#[local] Open Scope string_scope.
#[local] Open Scope Q_scope.

Section Facts.

Variable JSON_parse : string -> option json.
Variable Number_toString : jsnum -> string.
Variable StringToNumber : string -> jsnum.

Abbreviation ToString := (ToString Number_toString).
Abbreviation ToNumber := (ToNumber Number_toString StringToNumber).
Abbreviation ensureNumber := (ensureNumber Number_toString StringToNumber).
Abbreviation validateViralityPack := (validateViralityPack Number_toString StringToNumber).
Abbreviation parse_body := (parse_body JSON_parse Number_toString StringToNumber).
Abbreviation parseViralityAnalysis :=
  (parseViralityAnalysis JSON_parse Number_toString StringToNumber).
Abbreviation generateAdditionalPacks :=
  (generateAdditionalPacks JSON_parse Number_toString StringToNumber).
Abbreviation generateViralityPacks :=
  (generateViralityPacks JSON_parse Number_toString StringToNumber).

(** [String(v)] returns on every [stringable] value. *)
Lemma ToString_total : forall v, stringable v = true -> exists s, ToString v = inr s.
Proof.
  induction v as [ | b | n | s | items IH | fields _ ] using json_induction;
    intro H; simpl; try (eexists; reflexivity).
  - simpl in H. induction IH as [|x items Hx _ IHl]; [eexists; reflexivity|].
    simpl in H. apply andb_true_iff in H as [Sx Sl].
    destruct (IHl Sl) as (r & Er).
    assert (Ex : exists s, match x with JNull => ret "" | _ => ToString x end = inr s).
    { destruct x; try (eexists; reflexivity); now apply Hx. }
    destruct Ex as (sx & Ex). rewrite Ex. simpl.
    destruct items; [eexists; reflexivity|]. rewrite Er. eexists. reflexivity.
  - simpl in H. destruct (lookup fields "toString"); [discriminate | eexists; reflexivity].
Qed.

Lemma ToNumber_total (v : option json) :
  stringable_opt v = true -> exists n, ToNumber v = inr n.
Proof.
  destruct v as [[ | b | n | s | items | fields ]|]; intro H; simpl;
    try (eexists; reflexivity).
  - destruct (ToString_total (JArr items) H) as (s & E). simpl in E. rewrite E.
    eexists. reflexivity.
  - simpl in H. destruct (lookup fields "toString"); [discriminate | eexists; reflexivity].
Qed.

Lemma Math_max_min_range (lo hi q : Q) :
  lo <= hi -> lo <= Math_max lo (Math_min hi q) <= hi.
Proof.
  intro L. unfold Math_max, Math_min.
  destruct (Qle_bool hi q) eqn:A.
  - apply Qle_bool_iff in L. rewrite L. apply Qle_bool_iff in L. split; [exact L | apply Qle_refl].
  - assert (Hq : q <= hi).
    { apply Qlt_le_weak, Qnot_le_lt. intro C. apply Qle_bool_iff in C. congruence. }
    destruct (Qle_bool lo q) eqn:B.
    + apply Qle_bool_iff in B. auto.
    + split; [apply Qle_refl | exact L].
Qed.

(** What [ensureNumber] returns lies between [min] and [max], or is the
    default. *)
Lemma ensureNumber_range (v : option json) (d lo hi r : Q) :
  lo <= hi -> lo <= d <= hi ->
  ensureNumber v d lo hi = inr r -> lo <= r <= hi.
Proof.
  intros L D. unfold ensureNumber.
  destruct (ToNumber v) as [e|[ | [|] | q]]; simpl; intro H; try discriminate;
    injection H as <-; auto.
  - split; [apply Qle_refl | exact L].
  - pose proof (Math_max_min_range lo hi hi L) as R.
    unfold Math_max, Math_min in *.
    rewrite (proj2 (Qle_bool_iff hi hi) (Qle_refl hi)) in R. exact R.
  - now apply Math_max_min_range.
Qed.

Lemma ensureNumber_total (v : option json) (d lo hi : Q) :
  stringable_opt v = true -> exists r, ensureNumber v d lo hi = inr r.
Proof.
  intro H. unfold ensureNumber. destruct (ToNumber_total v H) as (n & ->). simpl.
  destruct n as [ | [|] | q]; eexists; reflexivity.
Qed.

Lemma lookup_stringable (fields : list (string * json)) (name : string) :
  forallb (fun kv => stringable (snd kv)) fields = true ->
  stringable_opt (lookup fields name) = true.
Proof.
  induction fields as [|[k v] fields IH]; simpl; [reflexivity|].
  intro H. apply andb_true_iff in H as [Hv Hf].
  destruct (String.eqb k name); simpl; auto.
Qed.

Lemma get_prop_readable (pack : json) (name : string) :
  readable pack = true ->
  exists v, get_prop pack name = inr v /\ stringable_opt v = true
            /\ (name = "hook_options" -> v = hooks_of pack).
Proof.
  destruct pack; simpl; intro H; try discriminate;
    try (exists None; repeat split; reflexivity).
  exists (lookup fields name). repeat split.
  - now apply lookup_stringable.
  - now intros ->.
Qed.

Lemma string_field_total (pack : json) (name d : string) :
  readable pack = true -> exists s, string_field Number_toString pack name d = inr s.
Proof.
  intro H. unfold string_field.
  destruct (get_prop_readable pack name H) as (v & -> & Sv & _). simpl.
  apply ToString_total. unfold or_default.
  destruct v as [x|]; [|reflexivity]. destruct (truthy (Some x)); auto.
Qed.

Lemma map_result_length {A B : Type} (f : A -> result B) (l : list A) (r : list B) :
  map_result f l = inr r -> List.length r = List.length l.
Proof.
  revert r. induction l as [|x l IH]; simpl; intros r H.
  - now injection H as <-.
  - destruct (f x) as [e|y]; simpl in H; [discriminate|].
    destruct (map_result f l) as [e|ys]; simpl in H; [discriminate|].
    injection H as <-. simpl. f_equal. now apply IH.
Qed.

Lemma map_ToString_total (items : list json) :
  forallb stringable items = true -> exists l, map_result ToString items = inr l.
Proof.
  induction items as [|x items IH]; simpl; intro H; [eexists; reflexivity|].
  apply andb_true_iff in H as [Hx Hl].
  destruct (ToString_total x Hx) as (s & ->). destruct (IH Hl) as (l & ->).
  eexists. reflexivity.
Qed.

(** Called on its receiver with a readable pack, [validateViralityPack]
    returns; the result keeps the number of hooks and clamps both scores to
    [-1, 1]. *)
Lemma validateViralityPack_returns (svc : AIService) (pack : json) :
  readable pack = true ->
  exists r,
    validateViralityPack (Some svc) pack = inr r
    /\ List.length (hook_options r) = hook_count pack
    /\ -1 <= sentiment_score r <= 1
    /\ -1 <= virality_score r <= 1.
Proof.
  intro H. unfold validateViralityPack.
  destruct (string_field_total pack "angle_name" "Untitled Angle" H) as (s1 & ->).
  destruct (string_field_total pack "core_angle" "Focus on product benefits" H) as (s2 & ->).
  destruct (get_prop_readable pack "hook_options" H) as (hooks & -> & Sh & Eh).
  specialize (Eh eq_refl). simpl bind.
  assert (Hooks : exists l,
             match as_array hooks with
             | Some items => map_result ToString items
             | None => ret ["Try this amazing product!"]
             end = inr l /\ List.length l = hook_count pack).
  { unfold hook_count. rewrite <- Eh.
    destruct hooks as [[ | | | | items | ]|]; simpl; try (eexists; split; reflexivity).
    simpl in Sh. destruct (map_ToString_total items Sh) as (l & E).
    exists l. split; [exact E | now apply map_result_length in E]. }
  destruct Hooks as (l & -> & Ll). simpl bind.
  destruct (string_field_total pack "full_script"
              "This product is amazing! You should try it. Link in bio!" H) as (s3 & ->).
  destruct (string_field_total pack "visual_pacing_notes"
              "Show product, speak to camera, call to action" H) as (s4 & ->).
  destruct (string_field_total pack "audio_suggestion" "Upbeat trending audio" H) as (s5 & ->).
  simpl bind.
  destruct (get_prop_readable pack "sentiment_score" H) as (v1 & -> & S1 & _). simpl bind.
  destruct (ensureNumber_total v1 0 (-1) 1 S1) as (r1 & E1). rewrite E1. simpl bind.
  destruct (get_prop_readable pack "virality_score" H) as (v2 & -> & S2 & _). simpl bind.
  destruct (ensureNumber_total v2 (1 # 2) (-1) 1 S2) as (r2 & E2). rewrite E2. simpl bind.
  eexists. split; [reflexivity|]. simpl. split; [exact Ll|]. split.
  - apply (ensureNumber_range v1 0 (-1) 1 r1); [discriminate | split; discriminate | exact E1].
  - apply (ensureNumber_range v2 (1 # 2) (-1) 1 r2); [discriminate | split; discriminate | exact E2].
Qed.

(** Called without a receiver, as [Array.prototype.map] calls it,
    [validateViralityPack] throws on every pack: at the latest when it reads
    [this.ensureNumber]. *)
Lemma validateViralityPack_detached (pack : json) :
  exists e, validateViralityPack None pack = inl e.
Proof.
  unfold validateViralityPack.
  repeat match goal with
         | |- exists e, bind ?c _ = inl e =>
           destruct c; simpl bind; [eexists; reflexivity|]
         end.
  eexists. reflexivity.
Qed.

Lemma map_validate_detached (svc : AIService) (packs : list json)
    (r : list ViralityPackGeneration) :
  map_validate Number_toString StringToNumber svc packs = inr r -> packs = [] /\ r = [].
Proof.
  unfold map_validate. destruct packs as [|pack packs]; simpl.
  - intros [= <-]. auto.
  - destruct (validateViralityPack_detached pack) as (e & ->). discriminate.
Qed.

(** [parseViralityAnalysis] and [generateAdditionalPacks] catch whatever
    their bodies throw. *)
Lemma parseViralityAnalysis_returns (svc : AIService) (response : string) :
  exists out, parseViralityAnalysis svc response = inr out.
Proof.
  unfold parseViralityAnalysis, try_catch.
  destruct (parse_body svc response); eexists; reflexivity.
Qed.

Lemma generateAdditionalPacks_returns (svc : AIService)
    (existing : list ViralityPackGeneration) (answer : result string) :
  exists packs, generateAdditionalPacks svc existing answer = inr packs.
Proof.
  unfold generateAdditionalPacks.
  destruct (5 <=? List.length existing)%nat; [eexists; reflexivity|].
  unfold try_catch at 1.
  match goal with |- exists _, match ?c with _ => _ end = _ => destruct c end;
    eexists; reflexivity.
Qed.

Lemma generateViralityPacks_returns (svc : AIService) (text : string)
    (second : result string) :
  exists out additional,
    parseViralityAnalysis svc text = inr out
    /\ generateAdditionalPacks svc (virality_packs out) second = inr additional
    /\ generateViralityPacks svc (inr text) second
       = inr (mkOutput (overall_sentiment_score out) (overall_virality_potential out)
                       (key_insights out) (virality_packs out ++ additional)%list
                       (recommendations out)).
Proof.
  destruct (parseViralityAnalysis_returns svc text) as (out & E).
  destruct (generateAdditionalPacks_returns svc (virality_packs out) second) as (add & A).
  exists out, add. split; [exact E|]. split; [exact A|].
  unfold generateViralityPacks. simpl. rewrite E. simpl. rewrite A. reflexivity.
Qed.

Lemma parsed_packs_are_fallback (svc : AIService) (response : string)
    (out : ViralityAnalysisOutput) :
  parseViralityAnalysis svc response = inr out ->
  virality_packs out = [] \/ virality_packs out = [fallback_pack].
Proof.
  unfold parseViralityAnalysis, AI.parseViralityAnalysis, try_catch.
  destruct (parse_body svc response) as [e|a] eqn:B.
  - intros [= <-]. now right.
  - intros [= <-]. left. unfold AI.parse_body in B.
    destruct (match0 braces_re response); [|discriminate].
    destruct (JSON_parse s) as [parsed|]; [|discriminate].
    repeat match type of B with
           | bind ?c _ = inr _ => destruct c eqn:?; simpl bind in B; [discriminate|]
           end.
    injection B as <-. simpl.
    match goal with
    | H : match as_array ?v with _ => _ end = inr _ |- _ =>
      destruct (as_array v); [apply map_validate_detached in H as [_ ->] | injection H as <-]
    end; reflexivity.
Qed.

Lemma additional_packs_are_none (svc : AIService)
    (existing : list ViralityPackGeneration) (answer : result string)
    (packs : list ViralityPackGeneration) :
  generateAdditionalPacks svc existing answer = inr packs -> packs = [].
Proof.
  unfold generateAdditionalPacks.
  destruct (5 <=? List.length existing)%nat; [now intros [= <-]|].
  destruct answer as [e|text]; simpl; [now intros [= <-]|].
  destruct (match0 brackets_re text) as [m|]; simpl; [|now intros [= <-]].
  destruct (JSON_parse m) as [additional|]; simpl; [|now intros [= <-]].
  destruct additional; simpl; try (now intros [= <-]).
  destruct (map_validate Number_toString StringToNumber svc items) as [e|r] eqn:M; simpl;
    [now intros [= <-]|].
  apply map_validate_detached in M as [_ ->]. now intros [= <-].
Qed.


Lemma braces_negative_potential :
  match0 braces_re negative_potential_text = Some negative_potential_text.
Proof. vm_compute. reflexivity. Qed.

(** C4 (a defect of the code).  The virality values are clamped to [-1, 1],
    the default range of [ensureNumber], not to their documented range
    [0, 1]: on an answer of the completion provider whose
    [overall_virality_potential] is -0.7, [generateViralityPacks] returns
    -0.7, and [validateViralityPack] hands on a [virality_score] of -0.5
    unchanged. *)
Theorem negative_virality_values_leave_the_generator :
  forall (svc : AIService) (second : result string),
    JSON_parse negative_potential_text = Some negative_potential_json ->
    (exists out,
        generateViralityPacks svc (inr negative_potential_text) second = inr out
        /\ overall_virality_potential out = - (7 # 10)
        /\ overall_virality_potential out < 0)
    /\ (exists pack,
          validateViralityPack (Some svc) negative_score_pack = inr pack
          /\ virality_score pack = - (1 # 2)
          /\ virality_score pack < 0).
Proof.
  intros svc second J. split.
  - destruct (generateViralityPacks_returns svc negative_potential_text second)
      as (out & additional & P & _ & G).
    eexists. split; [exact G|].
    unfold parseViralityAnalysis, AI.parseViralityAnalysis, AI.parse_body in P.
    rewrite braces_negative_potential, J in P. simpl in P. injection P as <-.
    split; reflexivity.
  - eexists. split; [reflexivity|]. split; reflexivity.
Qed.


(** A parsed answer whose [virality_packs] is an array with a pack in it
    does not get through the [try] block. *)
Lemma parse_body_throws_on_packs (svc : AIService) (response text : string)
    (fields : list (string * json)) (pack : json) (packs : list json) :
  match0 braces_re response = Some text ->
  JSON_parse text = Some (JObj fields) ->
  as_array (lookup fields "virality_packs") = Some (pack :: packs) ->
  exists e, parse_body svc response = inl e.
Proof.
  intros M J V. unfold AI.parse_body. rewrite M, J. simpl get_prop.
  cbn [bind ret].
  destruct (ensureNumber (lookup fields "overall_sentiment_score") 0 (-1) 1);
    cbn [bind ret]; [eexists; reflexivity|].
  destruct (ensureNumber (lookup fields "overall_virality_potential") (1 # 2) (-1) 1);
    cbn [bind ret]; [eexists; reflexivity|].
  rewrite V. unfold map_validate. cbn [map_result].
  destruct (validateViralityPack_detached pack) as (e & ->). cbn [bind]. eexists. reflexivity.
Qed.

(** C8, as amended.  [parseViralityAnalysis] never throws.  The result is
    the hardcoded fallback (sentiment 0.2, virality potential 0.6, one pack)
    in three cases: there is no [{...}] text in the answer; [JSON.parse]
    rejects it; or the parsed object holds an array with at least one pack
    under [virality_packs], whose validation throws.  When the parsed object
    holds no array or an empty array under [virality_packs] and its two
    scores convert to numbers, the result is not the fallback: the scores
    come from the object, [key_insights] and [recommendations] are the
    arrays of the object, or the empty array when missing or not arrays, and
    there is no pack.  With an answer in hand, [generateViralityPacks]
    returns. *)
Theorem parseViralityAnalysis_fallback_on_parse_failure :
  forall (svc : AIService) (response : string),
    (exists out, parseViralityAnalysis svc response = inr out)
    /\ (match0 braces_re response = None ->
          parseViralityAnalysis svc response = inr getFallbackAnalysis)
    /\ (forall text,
          match0 braces_re response = Some text ->
          JSON_parse text = None ->
          parseViralityAnalysis svc response = inr getFallbackAnalysis)
    /\ (forall text fields pack packs,
          match0 braces_re response = Some text ->
          JSON_parse text = Some (JObj fields) ->
          as_array (lookup fields "virality_packs") = Some (pack :: packs) ->
          parseViralityAnalysis svc response = inr getFallbackAnalysis)
    /\ (forall text fields s p,
          match0 braces_re response = Some text ->
          JSON_parse text = Some (JObj fields) ->
          as_array (lookup fields "virality_packs") = None
          \/ as_array (lookup fields "virality_packs") = Some [] ->
          ensureNumber (lookup fields "overall_sentiment_score") 0 (-1) 1 = inr s ->
          ensureNumber (lookup fields "overall_virality_potential") (1 # 2) (-1) 1 = inr p ->
          parseViralityAnalysis svc response
          = inr (mkOutput s p
                   (match as_array (lookup fields "key_insights") with
                    | Some l => l
                    | None => []
                    end)
                   []
                   (match as_array (lookup fields "recommendations") with
                    | Some l => l
                    | None => []
                    end)))
    /\ (forall second, exists out, generateViralityPacks svc (inr response) second = inr out)
    /\ overall_sentiment_score getFallbackAnalysis = 2 # 10
    /\ overall_virality_potential getFallbackAnalysis = 6 # 10
    /\ virality_packs getFallbackAnalysis = [fallback_pack].
Proof.
  intros svc response.
  split; [apply parseViralityAnalysis_returns|].
  unfold parseViralityAnalysis, AI.parseViralityAnalysis.
  split; [unfold AI.parse_body; intros ->; reflexivity|].
  split; [unfold AI.parse_body; intros text -> ->; reflexivity|].
  split.
  { intros text fields pack packs M J V.
    destruct (parse_body_throws_on_packs svc response text fields pack packs M J V)
      as (e & ->).
    reflexivity. }
  unfold AI.parse_body.
  split.
  - intros text fields s p -> -> V S P. simpl get_prop. simpl bind at 1.
    rewrite S. simpl bind at 1. rewrite P. simpl bind at 1.
    destruct V as [-> | ->]; reflexivity.
  - split; [|repeat split].
    intro second.
    destruct (generateViralityPacks_returns svc response second) as (out & add & _ & _ & G).
    eexists. exact G.
Qed.

End Facts.

Lemma negative_virality_values_witness :
  exists out,
    generateViralityPacks (fun _ => Some negative_potential_json) (fun _ => "")
      (fun _ => JNaN) (mkService "anthropic") (inr negative_potential_text)
      (inl TypeError) = inr out
    /\ overall_virality_potential out < 0.
Proof.
  destruct (negative_virality_values_leave_the_generator
              (fun _ => Some negative_potential_json) (fun _ => "") (fun _ => JNaN)
              (mkService "anthropic") (inl TypeError) eq_refl)
    as ((out & G & _ & N) & _).
  exists out. split; [exact G | exact N].
Defined.

(** C8, as stated, fails: on the answer [{}], where every array field is
    missing, the result is not the fallback but the defaults 0 and 0.5 with
    empty arrays.  The generator returns this result as it is. *)
Lemma missing_arrays_do_not_give_the_fallback :
  parseViralityAnalysis parse_empty_object (fun _ => "") (fun _ => JNaN)
    (mkService "anthropic") "{}"
  = inr (mkOutput 0 (1 # 2) [] [] [])
  /\ mkOutput 0 (1 # 2) [] [] [] <> getFallbackAnalysis
  /\ virality_packs (mkOutput 0 (1 # 2) [] [] []) = []
  /\ generateViralityPacks parse_empty_object (fun _ => "") (fun _ => JNaN)
       (mkService "anthropic") (inr "{}") (inl TypeError)
     = inr (mkOutput 0 (1 # 2) [] [] []).
Proof. repeat split. discriminate. Qed.

End AIProofs.

(* ================================================================== *)
(** * Further properties of the compliance scorer                     *)
(* ================================================================== *)

Module ScorerMore.

Import Binary64 ScriptEditor RuleEngineSpec Binary64Facts ScorerProofs.
#[local] Open Scope Q_scope.

(** More flags never raise the score: appending flags of any severity to a
    flag list leaves the score of a content of the same length equal or
    lower. *)
Theorem more_flags_never_raise_the_score :
  forall (flags more : list ComplianceFlag) (n : nat),
    calculateComplianceScore (flags ++ more) n <= calculateComplianceScore flags n.
Proof.
  intros flags more n.
  destruct (score_cases flags n) as [(-> & ->) | (Ne & ->)]; [apply score_bounds|].
  assert (Ne' : (flags ++ more)%list <> []).
  { intro E. apply app_eq_nil in E as (E & _). contradiction. }
  rewrite (score_nonempty _ n Ne'). apply clamp01_monotone.
  apply add_monotone; [|apply Qle_refl].
  rewrite deducted_app.
  apply deducted_decreasing, deducted_representable, representable_1.
Qed.

Lemma has_severity_app (s : Severity) (flags more : list ComplianceFlag) :
  has_severity s flags -> has_severity s (flags ++ more).
Proof.
  intros (f & Hin & Hs). exists f. split; [apply in_or_app; now left | exact Hs].
Qed.

Lemma count_severity_app (s : Severity) (flags more : list ComplianceFlag) :
  (count_severity s (flags ++ more)
   = count_severity s flags + count_severity s more)%nat.
Proof. unfold count_severity. now rewrite filter_app, length_app. Qed.

(** More flags never lower the risk level. *)
Theorem more_flags_never_lower_the_risk :
  forall flags more : list ComplianceFlag,
    (risk_rank (determineRiskLevel flags)
     <= risk_rank (determineRiskLevel (flags ++ more)))%nat.
Proof.
  intros flags more.
  assert (H : high_condition flags -> high_condition (flags ++ more)).
  { intros [H | H]; [left; now apply has_severity_app|].
    right. rewrite count_severity_app. lia. }
  assert (M : medium_condition flags -> medium_condition (flags ++ more)).
  { intros [M | M]; [left; now apply has_severity_app|].
    right. rewrite length_app. lia. }
  destruct (risk_cases flags) as [(C & ->) | [(C & D & ->) | (C & D & ->)]];
    destruct (risk_cases (flags ++ more)) as [(C' & ->) | [(C' & D' & ->) | (C' & D' & ->)]];
    simpl; try lia; tauto.
Qed.

(** The length bonus grows with the content and is used up at 100
    characters: a longer content never scores lower for the same flags, and
    from 100 characters on the length no longer matters. *)
Theorem length_bonus_saturates_at_100 :
  forall (flags : list ComplianceFlag) (n m : nat),
    ((n <= m)%nat ->
       calculateComplianceScore flags n <= calculateComplianceScore flags m)
    /\ ((100 <= n)%nat ->
         calculateComplianceScore flags n == calculateComplianceScore flags 100).
Proof.
  intros flags n m.
  destruct flags as [|f flags]; [split; intro; simpl; [apply Qle_refl | reflexivity]|].
  rewrite !(score_nonempty (f :: flags)) by discriminate.
  split; intro H.
  - apply clamp01_monotone, add_monotone; [apply Qle_refl | now apply lengthBonus_monotone].
  - apply clamp01_equal, add_equal; [reflexivity|].
    rewrite (lengthBonus_saturated n H), (lengthBonus_saturated 100) by lia. reflexivity.
Qed.

End ScorerMore.

(* ================================================================== *)
(** * Further properties of the rule engine                           *)
(* ================================================================== *)

Module RuleEngineMore.

Import JsString Regex ScriptEditor RuleEngineSpec StringFacts RegexFacts RuleEngineProofs.
#[local] Open Scope nat_scope.
#[local] Open Scope string_scope.

Lemma toLowerCase_length (s : string) : String.length (toLowerCase s) = String.length s.
Proof. induction s; simpl; congruence. Qed.

(** A property checked on the 256 characters holds of every character. *)
Lemma ascii_forall (P : ascii -> bool) :
  forallb (fun n => P (ascii_of_nat n)) (seq 0 256) = true -> forall c, P c = true.
Proof.
  intros H c. rewrite forallb_forall in H.
  rewrite <- (ascii_nat_embedding c). apply H.
  apply in_seq. pose proof (nat_ascii_bounded c). lia.
Qed.

Lemma lower_char_idempotent (c : ascii) : lower_char (lower_char c) = lower_char c.
Proof.
  apply Ascii.eqb_eq.
  apply (ascii_forall (fun c => Ascii.eqb (lower_char (lower_char c)) (lower_char c))).
  vm_compute. reflexivity.
Qed.

Lemma is_word_char_lower (c : ascii) : is_word_char (lower_char c) = is_word_char c.
Proof.
  apply Bool.eqb_prop.
  apply (ascii_forall (fun c => Bool.eqb (is_word_char (lower_char c)) (is_word_char c))).
  vm_compute. reflexivity.
Qed.

Lemma toLowerCase_idempotent (s : string) : toLowerCase (toLowerCase s) = toLowerCase s.
Proof. induction s as [|c s IH]; simpl; [reflexivity|]. now rewrite lower_char_idempotent, IH. Qed.

Lemma successive_in_bounds (re : RegExp) (content : string) (from : nat)
    (ms : list Position) :
  successive re content from ms ->
  Forall (fun m => start m <= end_ m /\ end_ m <= String.length content) ms.
Proof.
  induction 1 as [|from i e ms L At Gap _ IH]; constructor; [|exact IH].
  apply attempt_bounds in At. simpl. lia.
Qed.

Lemma rule_flags_in_bounds (content : string) (fuel : nat) (rule : ComplianceRule) :
  In rule tosRules ->
  String.length content + 2 <= fuel ->
  exists fs, rule_flags fuel content rule = Some fs /\ Forall (in_bounds content) fs.
Proof.
  intros H F.
  destruct (platform_rule_matches content fuel rule H F) as (re & ms & _ & _ & S & E).
  eexists. split; [exact E|].
  apply Forall_map. apply successive_in_bounds in S.
  eapply Forall_impl; [|exact S]. intros m B. exact B.
Qed.

Lemma rules_flags_in_bounds (content : string) (fuel : nat) (rules : list ComplianceRule) :
  (forall r, In r rules -> In r tosRules) ->
  String.length content + 2 <= fuel ->
  exists fs, rules_flags fuel content rules = Some fs /\ Forall (in_bounds content) fs.
Proof.
  intros Sub F. induction rules as [|r rules IH]; simpl.
  - exists []. auto.
  - destruct (rule_flags_in_bounds content fuel r) as (fs & -> & Bf); [apply Sub; now left | exact F |].
    destruct IH as (gs & -> & Bg); [intros; apply Sub; now right|].
    eexists. split; [reflexivity|]. apply Forall_app. auto.
Qed.

Lemma checkBrandRules_in_bounds (content : string) (br : BrandRule) :
  Forall (in_bounds content) (checkBrandRules content br).
Proof.
  destruct (checkBrandRules_split content br) as (advisory & -> & A).
  apply Forall_app. split.
  - apply Forall_flat_map, Forall_forall. intros k _.
    destruct (forbidden_step_cases content k) as [(_ & ->) | (i & ((L & O) & _) & ->)];
      constructor; [|constructor].
    unfold in_bounds. simpl. split; [lia|].
    apply prefix_length in O. rewrite drop_length in O by exact L.
    rewrite !toLowerCase_length in *. lia.
  - destruct A as [-> | ->]; repeat constructor.
Qed.

(** For a content and keywords whose code units are all below U+0100, the
    strings of this embedding, on which [toLowerCase] keeps the length:
    every flag of an analysis that has a position points into the content,
    [start <= end <= content.length], so that the
    [content.slice(start, end)] of the suggestion prompt is the flagged
    text.  The scan stops within [content.length + 2] rounds.  (Beyond
    U+00FF lower-casing can lengthen a string, and the positions of the
    forbidden keywords are those of the lower-cased content.) *)
Theorem flag_positions_lie_in_the_content :
  forall (content : string) (brandRules : option BrandRule),
    exists flags,
      complianceFlags (String.length content + 2) content brandRules = Some flags
      /\ Forall (in_bounds content) flags.
Proof.
  intros content brandRules. unfold complianceFlags.
  destruct (rules_flags_in_bounds content (String.length content + 2) tosRules)
    as (fs & -> & B); auto.
  eexists. split; [reflexivity|]. apply Forall_app. split; [exact B|].
  destruct brandRules as [br|]; [apply checkBrandRules_in_bounds | constructor].
Qed.

Lemma word_before_lower (prev : option ascii) : word_before (lowp prev) = word_before prev.
Proof. destruct prev; simpl; [apply is_word_char_lower | reflexivity]. Qed.

Lemma word_after_lower (s : string) : word_after (toLowerCase s) = word_after s.
Proof. destruct s; simpl; [reflexivity | apply is_word_char_lower]. Qed.

Lemma star_set_lower (p : ascii -> bool) (k k' : Cont) :
  (forall c, p (lower_char c) = p c) ->
  (forall q s' pos', k (lowp q) (toLowerCase s') pos' = k' q s' pos') ->
  forall s prev pos,
    star_set p (lowp prev) (toLowerCase s) pos k = star_set p prev s pos k'.
Proof.
  intros P K. induction s as [|c s IH]; intros prev pos; simpl.
  - exact (K prev "" pos).
  - rewrite P. destruct (p c); [|exact (K prev (String c s) pos)].
    change (Some (lower_char c)) with (lowp (Some c)).
    rewrite (IH (Some c) (S pos)).
    destruct (star_set p (Some c) s (S pos) k'); [reflexivity|].
    exact (K prev (String c s) pos).
Qed.

(** The matcher under the [i] flag does not see the letter case of the
    input. *)
Lemma run_lower (r : regex) :
  case_blind r = true ->
  forall (k k' : Cont),
    (forall q s' pos', k (lowp q) (toLowerCase s') pos' = k' q s' pos') ->
    forall prev s pos,
      run true r (lowp prev) (toLowerCase s) pos k = run true r prev s pos k'.
Proof.
  induction r as [ | c | p | p | | r1 IH1 r2 IH2 | r1 IH1 r2 IH2 ];
    intros B k k' K prev s pos; simpl in *; try discriminate.
  - exact (K prev s pos).
  - destruct s as [|x s]; simpl; [reflexivity|].
    unfold char_match. rewrite lower_char_idempotent.
    destruct (Ascii.eqb (lower_char c) (lower_char x)); [|reflexivity].
    exact (K (Some x) s (S pos)).
  - apply star_set_lower; [|exact K].
    intro c. apply Bool.eqb_prop.
    exact (ascii_forall (fun c => Bool.eqb (p (lower_char c)) (p c)) B c).
  - rewrite word_before_lower, word_after_lower.
    destruct (xorb (word_before prev) (word_after s)); [exact (K prev s pos) | reflexivity].
  - apply andb_true_iff in B as [B1 B2].
    apply IH1; [exact B1|]. intros q s' pos'. now apply IH2.
  - apply andb_true_iff in B as [B1 B2].
    rewrite (IH1 B1 k k' K), (IH2 B2 k k' K). reflexivity.
Qed.

Lemma match_at_lower (re : RegExp) (prev : option ascii) (s : string) (pos : nat) :
  ignoreCase re = true -> case_blind (source re) = true ->
  match_at re (lowp prev) (toLowerCase s) pos = match_at re prev s pos.
Proof.
  intros I B. unfold match_at. rewrite I. now apply run_lower.
Qed.

Lemma search_lower (re : RegExp) :
  ignoreCase re = true -> case_blind (source re) = true ->
  forall s prev pos,
    search re (lowp prev) (toLowerCase s) pos = search re prev s pos.
Proof.
  intros I B. induction s as [|c s IH]; intros prev pos.
  - change (toLowerCase "") with "". simpl.
    pose proof (match_at_lower re prev "" pos I B) as M. simpl in M. rewrite M.
    reflexivity.
  - pose proof (match_at_lower re prev (String c s) pos I B) as M.
    change (toLowerCase (String c s)) with (String (lower_char c) (toLowerCase s)) in *.
    simpl. rewrite M. destruct (match_at re prev (String c s) pos); [reflexivity|].
    exact (IH (Some c) (S pos)).
Qed.

Lemma seek_lower (s : string) :
  forall prev i,
    seek (lowp prev) (toLowerCase s) i
    = option_map (fun ps => (lowp (fst ps), toLowerCase (snd ps))) (seek prev s i).
Proof.
  induction s as [|c s IH]; intros prev [|i]; simpl; try reflexivity.
  exact (IH (Some c) i).
Qed.

Lemma exec_lower (re : RegExp) (content : string) (lastIndex : nat) :
  ignoreCase re = true -> case_blind (source re) = true ->
  exec re (toLowerCase content) lastIndex = exec re content lastIndex.
Proof.
  intros I B. unfold exec.
  change (@None ascii) with (lowp None) at 1. rewrite seek_lower.
  destruct (seek None content (if global re then lastIndex else 0)) as [[prev s]|]; simpl;
    [now apply search_lower | reflexivity].
Qed.

Lemma exec_loop_lower (re : RegExp) (content : string) :
  ignoreCase re = true -> case_blind (source re) = true ->
  forall fuel lastIndex,
    exec_loop fuel re (toLowerCase content) lastIndex = exec_loop fuel re content lastIndex.
Proof.
  intros I B. induction fuel as [|fuel IH]; intro lastIndex; simpl; [reflexivity|].
  rewrite (exec_lower re content lastIndex I B).
  destruct (exec re content lastIndex) as [[i e]|]; [|reflexivity].
  now rewrite IH.
Qed.

Lemma tosRules_case_blind (rule : ComplianceRule) :
  In rule tosRules ->
  exists re, pattern rule = PRegExp re /\ ignoreCase (reflag re) = true
             /\ case_blind (source (reflag re)) = true.
Proof.
  intro H. simpl in H.
  repeat (destruct H as [<- | H]; [eexists; repeat split; vm_compute; reflexivity|]).
  destruct H.
Qed.

Lemma rules_flags_lower (fuel : nat) (content : string) (rules : list ComplianceRule) :
  (forall r, In r rules -> In r tosRules) ->
  rules_flags fuel (toLowerCase content) rules = rules_flags fuel content rules.
Proof.
  intro Sub. induction rules as [|r rules IH]; simpl; [reflexivity|].
  rewrite IH by (intros; apply Sub; now right).
  destruct (tosRules_case_blind r) as (re & P & I & B); [apply Sub; now left|].
  unfold rule_flags, findRuleMatches. rewrite P.
  now rewrite (exec_loop_lower (reflag re) content I B).
Qed.

(** The analysis does not see the letter case of the script: a content and
    its lower-case form get the same flags, at the same positions, the same
    score and the same risk level.  The lower-case form is that of the case
    mapping of this embedding, which changes [A-Z] and the capital letters
    of Latin-1. *)
Theorem analysis_ignores_letter_case :
  forall (fuel : nat) (content : string) (brandRules : option BrandRule),
    complianceFlags fuel (toLowerCase content) brandRules
    = complianceFlags fuel content brandRules
    /\ analyzeScript fuel (toLowerCase content) brandRules
       = analyzeScript fuel content brandRules.
Proof.
  intros fuel content brandRules.
  assert (E : complianceFlags fuel (toLowerCase content) brandRules
              = complianceFlags fuel content brandRules).
  { unfold complianceFlags. rewrite rules_flags_lower by auto.
    destruct brandRules as [br|]; [|reflexivity].
    unfold checkBrandRules. now rewrite toLowerCase_idempotent. }
  split; [exact E|].
  unfold analyzeScript. now rewrite E, toLowerCase_length.
Qed.

End RuleEngineMore.

(* ================================================================== *)
(** * Properties of the AI suggestions                                *)
(* ================================================================== *)

Module SuggestionsProofs.

Import Js JsString AI Suggestions.
#[local] Open Scope string_scope.
#[local] Open Scope Q_scope.

Lemma clamp_confidence (n : jsnum) :
  exists q, min_1 (max_0 (or_half n)) = JFin q /\ 0 <= q <= 1.
Proof.
  assert (F : forall q, exists q', min_1 (max_0 (JFin q)) = JFin q' /\ 0 <= q' <= 1).
  { intro q. simpl. eexists. split; [reflexivity|].
    destruct (Qle_bool 0 q) eqn:A.
    - destruct (Qle_bool 1 q) eqn:B; [split; discriminate|].
      apply Qle_bool_iff in A. split; [exact A|].
      apply Qlt_le_weak, Qnot_le_lt. intro C. apply Qle_bool_iff in C. congruence.
    - simpl. split; discriminate. }
  destruct n as [ | [|] | q].
  - exact (F (1 # 2)).
  - eexists. split; [reflexivity | split; discriminate].
  - eexists. split; [reflexivity | split; discriminate].
  - unfold or_half. destruct (Qeq_bool q 0); [exact (F (1 # 2)) | exact (F q)].
Qed.

Section Facts.

Variable JSON_parse : string -> option json.
Variable Number_toString : jsnum -> string.
Variable StringToNumber : string -> jsnum.

Abbreviation validateSuggestion := (validateSuggestion Number_toString StringToNumber).
Abbreviation generateScriptSuggestions :=
  (generateScriptSuggestions JSON_parse Number_toString StringToNumber).

Lemma validateSuggestion_unit (suggestion : json) (r : StreamingScriptSuggestion) :
  validateSuggestion suggestion = inr r -> unit_confidence r.
Proof.
  unfold validateSuggestion, Suggestions.validateSuggestion.
  repeat match goal with
         | |- bind ?c _ = inr _ -> _ => destruct c; simpl bind; [discriminate|]
         end.
  intros [= <-]. apply clamp_confidence.
Qed.

Lemma map_validate_unit (l : list json) (rs : list StreamingScriptSuggestion) :
  map_result validateSuggestion l = inr rs ->
  Forall unit_confidence rs /\ List.length rs = List.length l.
Proof.
  revert rs. induction l as [|x l IH]; simpl; intros rs H.
  - injection H as <-. auto.
  - destruct (validateSuggestion x) as [e|r] eqn:V; simpl in H; [discriminate|].
    destruct (map_result validateSuggestion l) as [e|rs'] eqn:M; simpl in H; [discriminate|].
    injection H as <-. destruct (IH rs' eq_refl) as (F & L).
    split; [constructor; [now apply validateSuggestion_unit in V | exact F] | simpl; lia].
Qed.


(** [generateScriptSuggestions] never throws, whatever the completion
    provider does; with no flag it returns no suggestion whatever the
    provider would answer; every suggestion it returns has a confidence
    between 0 and 1; and it returns either nothing or one suggestion per
    element of the answered array. *)
Theorem generateScriptSuggestions_is_safe :
  forall (flags : list ComplianceFlag) (answer : result string),
    exists suggestions,
      generateScriptSuggestions flags answer = inr suggestions
      /\ Forall unit_confidence suggestions
      /\ (flags = [] -> suggestions = [])
      /\ (suggestions = []
          \/ exists text items,
               answer = inr text /\ JSON_parse text = Some (JArr items)
               /\ List.length suggestions = List.length items).
Proof.
  intros flags answer.
  unfold generateScriptSuggestions, Suggestions.generateScriptSuggestions.
  destruct flags as [|f flags]; [exists []; simpl; auto|].
  destruct answer as [e|text]; simpl; [exists []; repeat split; auto; discriminate|].
  destruct (JSON_parse text) as [parsed|] eqn:J; simpl;
    [|exists []; repeat split; auto; discriminate].
  destruct parsed; simpl; try (exists []; repeat split; auto; discriminate).
  destruct (map_result validateSuggestion items) as [e|rs] eqn:M; simpl;
    [exists []; repeat split; auto; discriminate|].
  destruct (map_validate_unit items rs M) as (F & L).
  exists rs. repeat split; auto; [discriminate|].
  right. exists text, items. auto.
Qed.

(** [validateSuggestion] returns on every suggestion whose properties can
    be read and converted, with a confidence between 0 and 1; a confidence
    that is missing, not a number, [null], [false] or 0 becomes 0.5. *)
Theorem validateSuggestion_confidence :
  forall suggestion : json,
    readable suggestion = true ->
    exists r,
      validateSuggestion suggestion = inr r
      /\ unit_confidence r
      /\ (forall cf n,
            get_prop suggestion "confidence" = inr cf ->
            ToNumber Number_toString StringToNumber cf = inr n ->
            (n = JNaN \/ exists q, n = JFin q /\ q == 0) ->
            confidence r = JFin (1 # 2)).
Proof.
  intros suggestion H.
  unfold validateSuggestion, Suggestions.validateSuggestion.
  destruct (AIProofs.get_prop_readable suggestion "type" H) as (t & -> & _ & _).
  destruct (AIProofs.get_prop_readable suggestion "content" H) as (c & -> & Sc & _).
  simpl bind.
  assert (T : forall v d, stringable_opt v = true ->
                exists s, ToString Number_toString (or_default v d) = inr s).
  { intros v d Sv. apply AIProofs.ToString_total. unfold or_default.
    destruct v as [x|]; [|reflexivity]. now destruct (truthy (Some x)). }
  destruct (T c "Review script for compliance" Sc) as (s1 & ->). simpl bind.
  destruct (AIProofs.get_prop_readable suggestion "reason" H) as (r & -> & Sr & _).
  simpl bind.
  destruct (T r "To improve compliance" Sr) as (s2 & ->). simpl bind.
  destruct (AIProofs.get_prop_readable suggestion "confidence" H) as (cf & -> & Scf & _).
  simpl bind.
  destruct (AIProofs.ToNumber_total Number_toString StringToNumber cf Scf) as (n & E).
  rewrite E. simpl bind.
  eexists. split; [reflexivity|]. split; [apply clamp_confidence|].
  intros cf' n' [= <-] E' Z. rewrite E in E'. injection E' as <-. simpl.
  destruct Z as [-> | (q & -> & Z)]; [reflexivity|].
  simpl. apply Qeq_bool_iff in Z. now rewrite Z.
Qed.

End Facts.

Lemma validateSuggestion_confidence_witness :
  readable (JObj [("content", JStr "Say it plainly"); ("confidence", JNum (JFin 0))]) = true
  /\ exists r,
       validateSuggestion (fun _ => "") (fun _ => JNaN)
         (JObj [("content", JStr "Say it plainly"); ("confidence", JNum (JFin 0))]) = inr r
       /\ confidence r = JFin (1 # 2).
Proof.
  split; [reflexivity|].
  destruct (validateSuggestion_confidence (fun _ => "") (fun _ => JNaN)
              (JObj [("content", JStr "Say it plainly"); ("confidence", JNum (JFin 0))])
              eq_refl) as (r & E & _ & H).
  exists r. split; [exact E|].
  apply (H (Some (JNum (JFin 0))) (JFin 0)); [reflexivity | reflexivity |].
  right. exists 0. split; reflexivity.
Defined.

End SuggestionsProofs.

(* ================================================================== *)
(** * Further properties of the ingestion service                     *)
(* ================================================================== *)

Module IngestionMore.

Import JsString Regex Ingestion IngestionSpec RuleEngineSpec IngestionProofs.
#[local] Open Scope string_scope.

Lemma flat_map_filter {A B : Type} (f : A -> bool) (g : A -> B) (l : list A) :
  flat_map (fun x => if f x then [g x] else []) l = map g (filter f l).
Proof.
  induction l as [|x l IH]; simpl; [reflexivity|].
  destruct (f x); simpl; now rewrite IH.
Qed.

Lemma In_map_filter {A B : Type} (f : A -> bool) (g : A -> B) (l : list A) (y : B) :
  In y (map g (filter f l)) -> In y (map g l).
Proof.
  intro H. apply in_map_iff in H as (x & <- & Hx).
  apply filter_In in Hx as [Hx _]. now apply in_map.
Qed.

Lemma NoDup_map_filter {A B : Type} (f : A -> bool) (g : A -> B) (l : list A) :
  NoDup (map g l) -> NoDup (map g (filter f l)).
Proof.
  induction l as [|x l IH]; simpl; intro H; [constructor|].
  inversion H as [|? ? Hx Hl]; subst.
  destruct (f x); simpl; [|now apply IH].
  constructor; [|now apply IH].
  intro C. apply Hx. now apply In_map_filter in C.
Qed.

Lemma theme_names_distinct : NoDup (map snd theme_table).
Proof.
  repeat (constructor; [simpl; intuition discriminate|]). constructor.
Qed.

Lemma general_in_taxonomy : In "general_experience" taxonomy.
Proof. unfold taxonomy. apply in_or_app. right. now left. Qed.

Lemma table_in_taxonomy (t : string) : In t (map snd theme_table) -> In t taxonomy.
Proof. intro H. unfold taxonomy. apply in_or_app. now left. Qed.

Lemma extractThemes_in_taxonomy (content t : string) :
  In t (extractThemes content) -> In t taxonomy.
Proof.
  unfold extractThemes. rewrite flat_map_filter.
  pose proof (In_map_filter (fun row => test (fst row) content) snd theme_table t) as F.
  destruct (map snd (filter (fun row => test (fst row) content) theme_table)) as [|x rest].
  - intros [<- | []]. exact general_in_taxonomy.
  - intro H. apply table_in_taxonomy. now apply F.
Qed.

(** [extractThemes] never returns an empty list and never a tag twice;
    every tag is one of the twelve of the taxonomy; [general_experience]
    is only returned alone, and exactly when no row of the table matches. *)
Theorem extractThemes_tags :
  forall content : string,
    extractThemes content <> []
    /\ NoDup (extractThemes content)
    /\ (forall t, In t (extractThemes content) -> In t taxonomy)
    /\ (In "general_experience" (extractThemes content) <->
        extractThemes content = ["general_experience"])
    /\ (extractThemes content = ["general_experience"] <->
        forall row, In row theme_table -> test (fst row) content = false).
Proof.
  intro content. unfold extractThemes. rewrite flat_map_filter.
  set (hits := filter (fun row => test (fst row) content) theme_table).
  assert (G : ~ In "general_experience" (map snd hits)).
  { intro C. apply In_map_filter in C. simpl in C. intuition discriminate. }
  assert (E : hits = [] <-> forall row, In row theme_table -> test (fst row) content = false).
  { split.
    - intros He row Hin. destruct (test (fst row) content) eqn:T; [|reflexivity].
      assert (In row hits) as C by (apply filter_In; auto). rewrite He in C. destruct C.
    - intro Hn. destruct hits as [|row rest] eqn:Hh; [reflexivity|].
      assert (In row hits) as C by (rewrite Hh; now left).
      apply filter_In in C as [Hin T]. rewrite (Hn row Hin) in T. discriminate. }
  pose proof (NoDup_map_filter (fun row => test (fst row) content) snd theme_table
                theme_names_distinct) as D.
  fold hits in D.
  destruct hits as [|row rest] eqn:Hh.
  - simpl. repeat split; auto; try discriminate.
    + repeat constructor. intros [].
    + intros t [<- | []]. exact general_in_taxonomy.
    + intros _. now apply E.
  - change (map snd (row :: rest)) with (snd row :: map snd rest) in *.
    repeat split; try discriminate; auto.
    + intros t Ht. apply table_in_taxonomy.
      change (In t (map snd (row :: rest))) in Ht.
      rewrite <- Hh in Ht. now apply In_map_filter in Ht.
    + intro C. now apply G in C.
    + intro C. exfalso. apply G. rewrite C. now left.
    + intro C. exfalso. apply G. rewrite C. now left.
    + intro C. apply E in C. discriminate.
Qed.

Lemma theme_table_case_blind :
  forallb (fun row => ignoreCase (fst row) && case_blind (source (fst row))) theme_table = true.
Proof. vm_compute. reflexivity. Qed.

(** For a content whose code units are all below U+0100, the strings of
    this embedding, the themes of a review do not depend on letter case: the
    lower-casing of the content in [processReviews] changes nothing for
    [extractThemes].  (Beyond U+00FF [toLowerCase] can produce a letter that
    the [i] flag does not match with: U+212A becomes [k].) *)
Theorem extractThemes_ignores_letter_case :
  forall content : string, extractThemes (toLowerCase content) = extractThemes content.
Proof.
  intro content. unfold extractThemes. rewrite !flat_map_filter.
  assert (E : filter (fun row => test (fst row) (toLowerCase content)) theme_table
              = filter (fun row => test (fst row) content) theme_table).
  { apply filter_ext_in. intros row Hin.
    pose proof theme_table_case_blind as B. rewrite forallb_forall in B.
    specialize (B row Hin). apply andb_true_iff in B as [I C].
    unfold test. now rewrite (RuleEngineMore.exec_lower (fst row) content 0 I C). }
  now rewrite E.
Qed.

Lemma route_lukewarm (sentiment : Q) (quote : string) (st : Maps) (themes : list string) :
  Qlt_bool sentiment 0 = false -> Qlt_bool (3 # 10) sentiment = false ->
  fold_left (fun st theme => route sentiment quote st theme) themes st = st.
Proof.
  intros A B. induction themes as [|t themes IH]; simpl; [reflexivity|].
  unfold route at 2. destruct st as [pp df]. now rewrite A, B, IH.
Qed.

Lemma process_review_lukewarm (st : Maps) (review : ScrapedReviewData) :
  lukewarm review = true -> process_review st review = st.
Proof.
  unfold lukewarm, process_review. intro H.
  apply andb_true_iff in H as [A B]. apply negb_true_iff in A, B.
  now apply route_lukewarm.
Qed.

(** Reviews whose rating gives a sentiment in [0, 0.3], the 3-star reviews
    among them, leave no trace: the insights are those of the other reviews
    alone. *)
Theorem lukewarm_reviews_leave_no_trace :
  forall reviews : list ScrapedReviewData,
    processReviews (filter (fun r => negb (lukewarm r)) reviews) = processReviews reviews
    /\ (forall title content, lukewarm (mkReview 3 title content) = true).
Proof.
  intro reviews. split; [|reflexivity].
  unfold processReviews.
  assert (E : forall st,
             fold_left process_review (filter (fun r => negb (lukewarm r)) reviews) st
             = fold_left process_review reviews st).
  { induction reviews as [|r reviews IH]; intro st; simpl; [reflexivity|].
    destruct (lukewarm r) eqn:L; simpl.
    - now rewrite process_review_lukewarm.
    - apply IH. }
  now rewrite E.
Qed.

(** ** The two maps while the reviews are read *)

Lemma has_In (m : ThemeMap) (k : string) : has m k = true <-> In k (map fst m).
Proof.
  induction m as [|[k' v] m IH]; simpl; [split; [discriminate | intros []]|].
  destruct (String.eqb k' k) eqn:E.
  - apply String.eqb_eq in E. split; auto.
  - rewrite IH. apply String.eqb_neq in E. split; [auto | intros [C | C]; [contradiction | exact C]].
Qed.

Lemma mutate_keys (m : ThemeMap) (k : string) (f : Bucket -> Bucket) :
  map fst (mutate m k f) = map fst m.
Proof.
  induction m as [|[k' v] m IH]; simpl; [reflexivity|].
  destruct (String.eqb k' k); simpl; [reflexivity | now rewrite IH].
Qed.

Lemma mutate_Forall (P : string * Bucket -> Prop) (m : ThemeMap) (k : string)
    (f : Bucket -> Bucket) :
  Forall P m -> (forall b, P (k, b) -> P (k, f b)) -> Forall P (mutate m k f).
Proof.
  intros H Step. induction H as [|[k' v] m Hx Hm IH]; simpl; [constructor|].
  destruct (String.eqb k' k) eqn:E.
  - apply String.eqb_eq in E. subst k'. constructor; auto.
  - constructor; auto.
Qed.

Lemma mutate_new (m : ThemeMap) (k : string) (v : Bucket) (f : Bucket -> Bucket) :
  has m k = false -> mutate (set_new m k v) k f = (m ++ [(k, f v)])%list.
Proof.
  unfold set_new. induction m as [|[k' v'] m IH]; simpl; intro H.
  - now rewrite String.eqb_refl.
  - destruct (String.eqb k' k); [discriminate|]. now rewrite IH.
Qed.

(** What [record_mention] keeps: a property of the entries that one more
    mention does not break. *)
Lemma record_mention_Forall (P : string * Bucket -> Prop) (m : ThemeMap) (theme : string)
    (s : Q) (q : string) :
  Forall P m ->
  (forall b, P (theme, b) -> P (theme, bump s q b)) ->
  P (theme, bump s q (mkBucket 0 0 [])) ->
  Forall P (record_mention m theme s q).
Proof.
  intros H Step Fresh. unfold record_mention.
  destruct (has m theme) eqn:E.
  - now apply mutate_Forall.
  - rewrite mutate_new by exact E. apply Forall_app. split; [exact H|].
    constructor; [exact Fresh | constructor].
Qed.

Lemma record_mention_keys (m : ThemeMap) (theme : string) (s : Q) (q : string) :
  NoDup (map fst m) -> NoDup (map fst (record_mention m theme s q)).
Proof.
  intro H. unfold record_mention. destruct (has m theme) eqn:E.
  - now rewrite mutate_keys.
  - rewrite mutate_new by exact E. rewrite map_app. simpl.
    apply NoDup_app; [exact H | repeat constructor; intros [] |].
    intros k Hk [<- | []]. apply has_In in Hk. congruence.
Qed.

(** An invariant of the pair of maps, kept by every review whose sentiment
    satisfies [C]. *)
Section Invariant.

Variable C : Q -> Prop.
Variables Pp Pd : string * Bucket -> Prop.

Hypothesis pain_step :
  forall s q theme, C s -> (s < 0)%Q -> In theme taxonomy ->
    (forall b, Pp (theme, b) -> Pp (theme, bump s q b))
    /\ Pp (theme, bump s q (mkBucket 0 0 [])).

Hypothesis delight_step :
  forall s q theme, C s -> (3 # 10 < s)%Q -> In theme taxonomy ->
    (forall b, Pd (theme, b) -> Pd (theme, bump s q b))
    /\ Pd (theme, bump s q (mkBucket 0 0 [])).

Abbreviation kept := (kept Pp Pd).

Lemma route_kept (s : Q) (q : string) (st : Maps) (theme : string) :
  C s -> In theme taxonomy -> kept st -> kept (route s q st theme).
Proof.
  intros Cs T. destruct st as [pp df]. intros ((Hp & Np) & (Hd & Nd)). unfold route.
  destruct (Qlt_bool s 0) eqn:A.
  - apply Qlt_bool_iff in A. destruct (pain_step s q theme Cs A T) as (Step & Fresh).
    repeat split; simpl; auto.
    + now apply record_mention_Forall.
    + now apply record_mention_keys.
  - destruct (Qlt_bool (3 # 10) s) eqn:B; [|repeat split; auto].
    apply Qlt_bool_iff in B. destruct (delight_step s q theme Cs B T) as (Step & Fresh).
    repeat split; simpl; auto.
    + now apply record_mention_Forall.
    + now apply record_mention_keys.
Qed.

Lemma process_review_kept (st : Maps) (review : ScrapedReviewData) :
  C (calculateSentiment (rating review)) -> kept st -> kept (process_review st review).
Proof.
  intros Cs. unfold process_review.
  pose proof (extractThemes_in_taxonomy (toLowerCase (content review))) as T.
  revert st T. generalize (extractThemes (toLowerCase (content review))) as themes.
  induction themes as [|t themes IH]; intros st T K; simpl; [exact K|].
  apply IH; [intros; apply T; now right|].
  apply route_kept; auto. apply T. now left.
Qed.

Lemma reviews_kept (reviews : list ScrapedReviewData) :
  Forall (fun r => C (calculateSentiment (rating r))) reviews ->
  forall st, kept st -> kept (fold_left process_review reviews st).
Proof.
  induction 1 as [|r reviews Hr _ IH]; intros st K; simpl; [exact K|].
  apply IH. now apply process_review_kept.
Qed.

End Invariant.

(** ** The sort and the final lists *)

Lemma insert_perm (x : ThemeInsight) (l : list ThemeInsight) :
  Permutation (insert_by_mentions x l) (x :: l).
Proof.
  induction l as [|y l IH]; simpl; [reflexivity|].
  destruct (mentions y <=? mentions x)%nat; [reflexivity|].
  rewrite IH. apply perm_swap.
Qed.

Lemma sort_perm (l : list ThemeInsight) : Permutation (sort_by_mentions l) l.
Proof.
  induction l as [|x l IH]; simpl; [reflexivity|].
  rewrite insert_perm. now constructor.
Qed.

Lemma insert_sorted (x : ThemeInsight) (l : list ThemeInsight) :
  by_falling_mentions l -> by_falling_mentions (insert_by_mentions x l).
Proof.
  unfold by_falling_mentions. induction 1 as [|y l Hl IH Hy]; simpl.
  - repeat constructor.
  - destruct (mentions y <=? mentions x)%nat eqn:E.
    + apply Nat.leb_le in E. constructor; [now constructor|].
      constructor; [exact E|].
      eapply Forall_impl; [|exact Hy]. simpl. intros; lia.
    + apply Nat.leb_gt in E. constructor; [exact IH|].
      eapply Permutation_Forall; [symmetry; apply insert_perm|].
      constructor; [lia | exact Hy].
Qed.

Lemma sort_sorted (l : list ThemeInsight) : by_falling_mentions (sort_by_mentions l).
Proof.
  induction l as [|x l IH]; simpl; [constructor | now apply insert_sorted].
Qed.

Lemma finalize_eq (m : ThemeMap) :
  finalize m
  = sort_by_mentions (filter (fun p => (1 <=? mentions p)%nat) (map insight_of m)).
Proof.
  unfold finalize. do 2 f_equal. apply map_ext. now intros [theme data].
Qed.

Lemma finalize_Forall (P : string * Bucket -> Prop) (Q : ThemeInsight -> Prop)
    (m : ThemeMap) :
  (forall e, P e -> Q (insight_of e)) -> Forall P m -> Forall Q (finalize m).
Proof.
  intros PQ H. rewrite finalize_eq.
  eapply Permutation_Forall; [symmetry; apply sort_perm|].
  apply Forall_forall. intros x Hx. apply filter_In in Hx as [Hx _].
  apply in_map_iff in Hx as (e & <- & He). apply PQ.
  rewrite Forall_forall in H. now apply H.
Qed.

Lemma finalize_themes (m : ThemeMap) :
  NoDup (map fst m) -> NoDup (map theme (finalize m)).
Proof.
  intro H. rewrite finalize_eq.
  eapply Permutation_NoDup; [apply Permutation_map; symmetry; apply sort_perm|].
  apply NoDup_map_filter. rewrite map_map. exact H.
Qed.

Lemma positive_mentions (n : nat) : (1 <= n)%nat -> (0 < inject_Z (Z.of_nat n))%Q.
Proof. intro H. change 0%Q with (inject_Z 0). rewrite <- Zlt_Qlt. lia. Qed.

Lemma succ_mentions (n : nat) :
  (inject_Z (Z.of_nat (n + 1)) == inject_Z (Z.of_nat n) + 1)%Q.
Proof. rewrite Nat2Z.inj_add, inject_Z_plus. reflexivity. Qed.

Lemma shape_step (s : Q) (q theme : string) :
  True -> In theme taxonomy ->
  (forall b, entry_shape (theme, b) -> entry_shape (theme, bump s q b))
  /\ entry_shape (theme, bump s q (mkBucket 0 0 [])).
Proof.
  intros _ T. unfold entry_shape. simpl. split.
  - intros b (M & L & _). rewrite length_app. simpl. repeat split; auto; lia.
  - repeat split; auto.
Qed.

Lemma kept_start (Pp Pd : string * Bucket -> Prop) : kept Pp Pd ([], []).
Proof. repeat split; constructor. Qed.

Lemma finalize_well_formed (m : ThemeMap) :
  Forall entry_shape m -> Forall well_formed (finalize m).
Proof.
  apply finalize_Forall.
  intros [k b] (M & L & T). unfold well_formed, insight_of.
  cbn [mentions example_quotes theme fst snd] in *.
  repeat split; auto. rewrite length_firstn. now rewrite L.
Qed.

Lemma maps_keep_shape (reviews : list ScrapedReviewData) :
  kept entry_shape entry_shape (fold_left process_review reviews ([], [])).
Proof.
  apply (reviews_kept (fun _ => True) entry_shape entry_shape
           (fun s q t c _ T => shape_step s q t c T)
           (fun s q t c _ T => shape_step s q t c T)).
  - apply Forall_forall. auto.
  - apply kept_start.
Qed.

Lemma insights_in_taxonomy (reviews : list ScrapedReviewData) (t : string) :
  In t (map theme (pain_points (processReviews reviews))
        ++ map theme (delight_factors (processReviews reviews)))%list ->
  In t taxonomy.
Proof.
  unfold processReviews. pose proof (maps_keep_shape reviews) as K.
  destruct (fold_left process_review reviews ([], [])) as [pp df].
  destruct K as ((Hp & _) & (Hd & _)). simpl in *.
  intro H. apply in_app_or in H as [H | H];
    apply in_map_iff in H as (p & <- & Hp');
    [apply finalize_well_formed in Hp | apply finalize_well_formed in Hd];
    rewrite Forall_forall in *.
  - now destruct (Hp p Hp') as (_ & _ & T).
  - now destruct (Hd p Hp') as (_ & _ & T).
Qed.

(** Whatever the reviews, every insight [processReviews] emits has at least
    one mention, the first three quotes of its mentions (as many quotes as
    mentions below three) and a theme of the taxonomy; no theme occurs twice
    in a bucket; and each bucket is ordered by falling number of mentions. *)
Theorem processReviews_insights_are_well_formed :
  forall reviews : list ScrapedReviewData,
    Forall well_formed (pain_points (processReviews reviews))
    /\ Forall well_formed (delight_factors (processReviews reviews))
    /\ NoDup (map theme (pain_points (processReviews reviews)))
    /\ NoDup (map theme (delight_factors (processReviews reviews)))
    /\ by_falling_mentions (pain_points (processReviews reviews))
    /\ by_falling_mentions (delight_factors (processReviews reviews)).
Proof.
  intro reviews. unfold processReviews.
  pose proof (maps_keep_shape reviews) as K.
  destruct (fold_left process_review reviews ([], [])) as [pp df].
  destruct K as ((Hp & Np) & (Hd & Nd)). simpl in *.
  repeat split.
  - now apply finalize_well_formed.
  - now apply finalize_well_formed.
  - now apply finalize_themes.
  - now apply finalize_themes.
  - rewrite finalize_eq. apply sort_sorted.
  - rewrite finalize_eq. apply sort_sorted.
Qed.

Lemma pain_step (s : Q) (q theme : string) :
  True -> (s < 0)%Q -> In theme taxonomy ->
  (forall b, entry_shape (theme, b) /\ pain_entry (theme, b) ->
             entry_shape (theme, bump s q b) /\ pain_entry (theme, bump s q b))
  /\ (entry_shape (theme, bump s q (mkBucket 0 0 []))
      /\ pain_entry (theme, bump s q (mkBucket 0 0 []))).
Proof.
  intros c S T. destruct (shape_step s q theme c T) as (Step & Fresh).
  unfold pain_entry. simpl. split.
  - intros b (Sh & P). split; [now apply Step|].
    setoid_replace 0%Q with (0 + 0)%Q by reflexivity.
    apply Qplus_lt_le_compat; [exact P | now apply Qlt_le_weak].
  - split; [exact Fresh|]. now rewrite Qplus_0_l.
Qed.

Lemma delight_step (s : Q) (q theme : string) :
  True -> (3 # 10 < s)%Q -> In theme taxonomy ->
  (forall b, entry_shape (theme, b) /\ delight_entry (theme, b) ->
             entry_shape (theme, bump s q b) /\ delight_entry (theme, bump s q b))
  /\ (entry_shape (theme, bump s q (mkBucket 0 0 []))
      /\ delight_entry (theme, bump s q (mkBucket 0 0 []))).
Proof.
  intros c S T. destruct (shape_step s q theme c T) as (Step & Fresh).
  unfold delight_entry. simpl. split.
  - intros b (Sh & P). split; [now apply Step|]. lra.
  - split; [exact Fresh|]. lra.
Qed.

(** Whatever the reviews, every pain point [processReviews] emits has a
    sentiment below 0 and every delight factor a sentiment above 0: a mean
    has the sign of the sentiments that were routed to its bucket.  (That a
    delight factor stays above the threshold 0.3 is not stated: in binary64
    ten ratings of 3.6, each above the threshold, have the mean 0.3.) *)
Theorem processReviews_sentiment_signs :
  forall reviews : list ScrapedReviewData,
    Forall (fun p => (sentiment p < 0)%Q) (pain_points (processReviews reviews))
    /\ Forall (fun d => (0 < sentiment d)%Q) (delight_factors (processReviews reviews)).
Proof.
  intro reviews. unfold processReviews.
  pose proof (reviews_kept (fun _ => True)
                (fun e => entry_shape e /\ pain_entry e)
                (fun e => entry_shape e /\ delight_entry e)
                pain_step delight_step reviews) as K.
  assert (A : Forall (fun _ : ScrapedReviewData => True) reviews)
    by (apply Forall_forall; auto).
  specialize (K A ([], []) (kept_start _ _)).
  destruct (fold_left process_review reviews ([], [])) as [pp df].
  destruct K as ((Hp & _) & (Hd & _)). simpl in *. split.
  - apply finalize_Forall with (P := fun e => entry_shape e /\ pain_entry e); [|exact Hp].
    intros [k b] ((M & _) & P). unfold pain_entry, insight_of in *.
    cbn [sentiment fst snd] in *.
    apply Qlt_shift_div_r; [now apply positive_mentions | now rewrite Qmult_0_l].
  - apply finalize_Forall with (P := fun e => entry_shape e /\ delight_entry e); [|exact Hd].
    intros [k b] ((M & _) & P). unfold delight_entry, insight_of in *.
    cbn [sentiment fst snd] in *.
    apply Qlt_shift_div_l; [now apply positive_mentions | now rewrite Qmult_0_l].
Qed.

Lemma ranged_step (s : Q) (q theme : string) :
  (-1 <= s <= 1)%Q -> In theme taxonomy ->
  (forall b, entry_shape (theme, b) /\ ranged_entry (theme, b) ->
             entry_shape (theme, bump s q b) /\ ranged_entry (theme, bump s q b))
  /\ (entry_shape (theme, bump s q (mkBucket 0 0 []))
      /\ ranged_entry (theme, bump s q (mkBucket 0 0 []))).
Proof.
  intros (Lo & Hi) T. destruct (shape_step s q theme I T) as (Step & Fresh).
  unfold ranged_entry. simpl. split.
  - intros b (Sh & (A & B)). split; [now apply Step|].
    rewrite succ_mentions. split.
    + setoid_replace (- (inject_Z (Z.of_nat (b_mentions b)) + 1))%Q
        with (- inject_Z (Z.of_nat (b_mentions b)) + -1)%Q by ring.
      now apply Qplus_le_compat.
    + now apply Qplus_le_compat.
  - split; [exact Fresh|]. rewrite Qplus_0_l. split; [exact Lo | exact Hi].
Qed.

Lemma sentiment_of_rating (r : Q) :
  (1 <= r <= 5)%Q -> (-1 <= calculateSentiment r <= 1)%Q.
Proof.
  intros (Lo & Hi). unfold calculateSentiment. split.
  - apply Qle_shift_div_l; [reflexivity|].
    setoid_replace (-1 * 2)%Q with (1 - 3)%Q by reflexivity.
    now apply Qplus_le_l.
  - apply Qle_shift_div_r; [reflexivity|].
    setoid_replace (1 * 2)%Q with (5 - 3)%Q by reflexivity.
    now apply Qplus_le_l.
Qed.

(** When every rating lies between 1 and 5, every sentiment
    [processReviews] emits lies between -1 and 1. *)
Theorem processReviews_sentiment_range :
  forall reviews : list ScrapedReviewData,
    Forall (fun r => (1 <= rating r <= 5)%Q) reviews ->
    Forall (fun p => (-1 <= sentiment p <= 1)%Q) (pain_points (processReviews reviews))
    /\ Forall (fun d => (-1 <= sentiment d <= 1)%Q) (delight_factors (processReviews reviews)).
Proof.
  intros reviews R. unfold processReviews.
  pose proof (reviews_kept (fun s => (-1 <= s <= 1)%Q)
                (fun e => entry_shape e /\ ranged_entry e)
                (fun e => entry_shape e /\ ranged_entry e)
                (fun s q t c _ T => ranged_step s q t c T)
                (fun s q t c _ T => ranged_step s q t c T) reviews) as K.
  assert (A : Forall (fun r => (-1 <= calculateSentiment (rating r) <= 1)%Q) reviews).
  { eapply Forall_impl; [|exact R]. intros r. apply sentiment_of_rating. }
  specialize (K A ([], []) (kept_start _ _)).
  destruct (fold_left process_review reviews ([], [])) as [pp df].
  destruct K as ((Hp & _) & (Hd & _)). simpl in *.
  assert (W : forall e, entry_shape e /\ ranged_entry e ->
                (-1 <= sentiment (insight_of e) <= 1)%Q).
  { intros [k b] ((M & _) & (Lo & Hi)). unfold ranged_entry, insight_of in *.
    cbn [sentiment fst snd] in *. pose proof (positive_mentions _ M) as Pm. split.
    - apply Qle_shift_div_l; [exact Pm|].
      setoid_replace (-1 * inject_Z (Z.of_nat (b_mentions b)))%Q
        with (- inject_Z (Z.of_nat (b_mentions b)))%Q by ring.
      exact Lo.
    - apply Qle_shift_div_r; [exact Pm|]. now rewrite Qmult_1_l. }
  split.
  - exact (finalize_Forall _ _ pp W Hp).
  - exact (finalize_Forall _ _ df W Hd).
Qed.

Lemma processReviews_sentiment_range_witness :
  Forall (fun r => (1 <= rating r <= 5)%Q) scenario_reviews
  /\ Forall (fun p => (-1 <= sentiment p <= 1)%Q) (pain_points (processReviews scenario_reviews)).
Proof.
  assert (R : Forall (fun r => (1 <= rating r <= 5)%Q) scenario_reviews).
  { repeat constructor; discriminate. }
  split; [exact R|].
  exact (proj1 (processReviews_sentiment_range scenario_reviews R)).
Defined.

End IngestionMore.

(* ================================================================== *)
(** * Properties of the angle reasoning service                       *)
(* ================================================================== *)

Module AngleReasoningProofs.

Import JsString Ingestion IngestionSpec AngleReasoning StringFacts IngestionProofs.
#[local] Open Scope nat_scope.
#[local] Open Scope string_scope.

Lemma toLowerCase_app (a b : string) : toLowerCase (a ++ b) = toLowerCase a ++ toLowerCase b.
Proof. induction a as [|c a IH]; simpl; [reflexivity | now rewrite IH]. Qed.

(** A word without a space that begins before a space ends before it. *)
Lemma prefix_before_space (kw a b : string) :
  no_space kw = true -> prefix kw (a ++ String " " b) = true -> prefix kw a = true.
Proof.
  revert kw. induction a as [|x a IH]; intros [|c kw] N H; simpl in *; auto.
  - apply andb_true_iff in N as [N _]. destruct (ascii_dec c " ") as [->|]; [|discriminate].
    discriminate.
  - apply andb_true_iff in N as [_ N]. destruct (ascii_dec c x); [|discriminate]. now apply IH.
Qed.

Lemma includes_cons (c : ascii) (s kw : string) :
  includes s kw = true -> includes (String c s) kw = true.
Proof. intro H. rewrite includes_eq, H. now destruct (prefix kw (String c s)). Qed.

Lemma includes_across_space (kw a b : string) :
  no_space kw = true -> kw <> "" ->
  includes (a ++ String " " b) kw = true ->
  includes a kw = true \/ includes b kw = true.
Proof.
  intros N E. induction a as [|x a IH]; intro H.
  - change ("" ++ String " " b) with (String " " b) in H. rewrite includes_eq in H.
    destruct (prefix kw (String " " b)) eqn:P; [|now right].
    exfalso. destruct kw as [|c kw]; [congruence|]. simpl in P, N.
    apply andb_true_iff in N as [N _]. destruct (ascii_dec c " ") as [->|]; discriminate.
  - change (String x a ++ String " " b) with (String x (a ++ String " " b)) in H.
    rewrite includes_eq in H.
    destruct (prefix kw (String x (a ++ String " " b))) eqn:P.
    + left. change (String x (a ++ String " " b)) with (String x a ++ String " " b) in P.
      apply prefix_before_space in P; [|exact N]. now rewrite includes_eq, P.
    + destruct (IH H) as [A | B]; [left; now apply includes_cons | now right].
Qed.

Lemma includes_join_space (kw : string) (l : list string) :
  no_space kw = true -> kw <> "" ->
  (forall t, In t l -> includes (toLowerCase t) kw = false) ->
  includes (toLowerCase (join " " l)) kw = false.
Proof.
  intros N E. unfold join. induction l as [|t l IH]; intro H.
  - simpl. destruct kw; [congruence | reflexivity].
  - destruct l as [|u l]; [apply H; now left|].
    change (String.concat " " (t :: u :: l)) with (t ++ " " ++ String.concat " " (u :: l)).
    rewrite toLowerCase_app.
    change (toLowerCase (" " ++ String.concat " " (u :: l)))
      with (String " " (toLowerCase (String.concat " " (u :: l)))).
    destruct (includes (toLowerCase t ++ String " " (toLowerCase (String.concat " " (u :: l)))) kw)
      eqn:I; [|reflexivity].
    apply includes_across_space in I as [A | B]; auto.
    + rewrite H in A by now left. discriminate.
    + rewrite IH in B by (intros; apply H; now right). discriminate.
Qed.

Lemma taxonomy_has_no_audience_word :
  forallb (fun kw => no_space kw && negb (String.eqb kw "")
                     && forallb (fun t => negb (includes (toLowerCase t) kw)) taxonomy)
          audience_words = true.
Proof. vm_compute. reflexivity. Qed.

Lemma audience_word_absent (kw : string) (l : list string) :
  In kw audience_words ->
  (forall t, In t l -> In t taxonomy) ->
  includes (toLowerCase (join " " l)) kw = false.
Proof.
  intros K T. pose proof taxonomy_has_no_audience_word as A.
  rewrite forallb_forall in A. specialize (A kw K).
  apply andb_true_iff in A as [A F]. apply andb_true_iff in A as [N E].
  apply includes_join_space; auto.
  - intros ->. discriminate.
  - intros t Ht. rewrite forallb_forall in F. apply negb_true_iff, F, T, Ht.
Qed.

(** On themes of the taxonomy, and so on every set of insights
    [processReviews] emits, [inferTargetAudience] answers the general
    audience: none of the words it looks for occurs in a theme tag. *)
Theorem inferTargetAudience_is_general_on_ingested_themes :
  (forall painThemes delightThemes : list string,
      (forall t, In t (painThemes ++ delightThemes)%list -> In t taxonomy) ->
      inferTargetAudience painThemes delightThemes
      = "General consumers looking for quality products")
  /\ (forall reviews : list ScrapedReviewData,
        inferTargetAudience (map theme (pain_points (processReviews reviews)))
                            (map theme (delight_factors (processReviews reviews)))
        = "General consumers looking for quality products").
Proof.
  assert (G : forall painThemes delightThemes : list string,
             (forall t, In t (painThemes ++ delightThemes)%list -> In t taxonomy) ->
             inferTargetAudience painThemes delightThemes
             = "General consumers looking for quality products").
  { intros painThemes delightThemes T. unfold inferTargetAudience.
    assert (A : forall kw, In kw audience_words ->
                  includes (toLowerCase (join " " (painThemes ++ delightThemes)%list)) kw
                  = false)
      by (intros kw K; now apply audience_word_absent).
    rewrite !A by (simpl; tauto). reflexivity. }
  split; [exact G|].
  intro reviews. apply G. apply IngestionMore.insights_in_taxonomy.
Qed.

Lemma insert_by_virality_perm (x : PackScores) (l : list PackScores) :
  Permutation (insert_by_virality x l) (x :: l).
Proof.
  induction l as [|y l IH]; simpl; [reflexivity|].
  destruct (Qle_bool _ _); [reflexivity|]. rewrite IH. apply perm_swap.
Qed.

Lemma sort_by_virality_perm (l : list PackScores) : Permutation (sort_by_virality l) l.
Proof.
  induction l as [|x l IH]; simpl; [reflexivity|].
  rewrite insert_by_virality_perm. now constructor.
Qed.

Lemma insert_by_virality_sorted (x : PackScores) (l : list PackScores) :
  by_falling_virality l -> by_falling_virality (insert_by_virality x l).
Proof.
  unfold by_falling_virality. induction 1 as [|y l Hl IH Hy]; simpl.
  - repeat constructor.
  - destruct (Qle_bool (or_zero (p_virality_score y)) (or_zero (p_virality_score x))) eqn:E.
    + apply Qle_bool_iff in E. constructor; [now constructor|].
      constructor; [exact E|].
      eapply Forall_impl; [|exact Hy]. simpl. intros a Ha. eapply Qle_trans; eauto.
    + assert (L : (or_zero (p_virality_score x) <= or_zero (p_virality_score y))%Q).
      { apply Qlt_le_weak, Qnot_le_lt. intro C. apply Qle_bool_iff in C. congruence. }
      constructor; [exact IH|].
      eapply Permutation_Forall; [symmetry; apply insert_by_virality_perm|].
      constructor; [exact L | exact Hy].
Qed.

Lemma sort_by_virality_sorted (l : list PackScores) :
  by_falling_virality (sort_by_virality l).
Proof.
  induction l as [|x l IH]; simpl; [constructor | now apply insert_by_virality_sorted].
Qed.

Lemma tally_counts (l : list PackScores) :
  forall acc, tallied (fold_left tally l acc) = tallied acc + List.length l.
Proof.
  induction l as [|p l IH]; intro acc; simpl; [lia|].
  rewrite IH. unfold tally, tallied.
  destruct (Qlt_bool (1 # 10) (or_zero (p_sentiment_score p))); simpl; [lia|].
  destruct (Qlt_bool (or_zero (p_sentiment_score p)) (- (1 # 10))); simpl; lia.
Qed.

(** The analytics of the packs of a container: the three counters of the
    sentiment distribution add up to the number of packs; the top angles are
    the names of the first three packs, at most, of the packs put in order of
    falling virality score; without packs everything is zero. *)
Theorem getViralityAnalytics_accounts_for_every_pack :
  forall packs : list PackScores,
    total_packs (getViralityAnalytics (Some packs)) = List.length packs
    /\ tallied (sentiment_distribution (getViralityAnalytics (Some packs)))
       = List.length packs
    /\ (exists sorted,
          Permutation sorted packs
          /\ by_falling_virality sorted
          /\ top_performing_angles (getViralityAnalytics (Some packs))
             = map p_angle_name (firstn 3 sorted))
    /\ List.length (top_performing_angles (getViralityAnalytics (Some packs)))
       = Nat.min 3 (List.length packs)
    /\ getViralityAnalytics None = getViralityAnalytics (Some []).
Proof.
  intros [|p packs]; [repeat split; try reflexivity; exists []; repeat split; constructor|].
  assert (E : exists a v,
             getViralityAnalytics (Some (p :: packs))
             = mkAnalytics (List.length (p :: packs)) a v
                 (map p_angle_name (firstn 3 (sort_by_virality (p :: packs))))
                 (fold_left tally (sort_by_virality (p :: packs)) (mkDistribution 0 0 0)))
    by (do 2 eexists; reflexivity).
  destruct E as (a & v & ->).
  generalize (p :: packs) as l. intro l.
  cbn [total_packs sentiment_distribution top_performing_angles].
  pose proof (sort_by_virality_perm l) as P.
  repeat split.
  - rewrite tally_counts. unfold tallied at 1. simpl.
    now rewrite (Permutation_length P).
  - exists (sort_by_virality l). repeat split; [exact P | apply sort_by_virality_sorted].
  - rewrite length_map, length_firstn. now rewrite (Permutation_length P).
Qed.

End AngleReasoningProofs.

(* ================================================================== *)
(** * Properties of the AI configuration                              *)
(* ================================================================== *)

Module AIConfigProofs.

Import AIConfig.
#[local] Open Scope string_scope.

(** A key is taken over exactly when the variable is set to something else
    than the empty string and the placeholder, and then as it is. *)
Lemma usable_spec (key : option string) (placeholder : string) :
  (set (usable key placeholder) = true
   <-> exists k, key = Some k /\ k <> "" /\ k <> placeholder)
  /\ (set (usable key placeholder) = true -> usable key placeholder = key)
  /\ (set (usable key placeholder) = false -> usable key placeholder = None).
Proof.
  destruct key as [k|]; simpl.
  - destruct (String.eqb k "") eqn:E; simpl.
    + apply String.eqb_eq in E. repeat split; try discriminate; auto.
      intros (k' & [= <-] & N & _). contradiction.
    + destruct (String.eqb k placeholder) eqn:P; simpl.
      * apply String.eqb_eq in P. repeat split; try discriminate; auto.
        intros (k' & [= <-] & _ & N). contradiction.
      * rewrite E. simpl. apply String.eqb_neq in E, P.
        repeat split; try discriminate; auto. intros _. exists k. auto.
  - repeat split; try discriminate; auto. intros (k & H & _). discriminate.
Qed.

(** With the configuration read from the environment: a key of the
    configuration is set exactly when its variable holds something else than
    the empty string and the placeholder, and it is then the value of the
    variable; the configuration is valid exactly when one of the two keys is
    set; the preferred provider is OpenAI exactly when only the OpenAI key
    is set; and when the configuration is valid, the constructor of the
    service ends on a provider whose key is set, whichever provider was
    asked for. *)
Theorem constructor_selects_a_configured_provider :
  forall (OPENAI_API_KEY ANTHROPIC_API_KEY : option string) (model : option Provider),
    let config := getAIConfig OPENAI_API_KEY ANTHROPIC_API_KEY in
    (set (openaiApiKey config) = true
     <-> exists k, OPENAI_API_KEY = Some k /\ k <> "" /\ k <> "your_openai_api_key_here")
    /\ (set (anthropicApiKey config) = true
        <-> exists k, ANTHROPIC_API_KEY = Some k /\ k <> ""
                      /\ k <> "your_anthropic_api_key_here")
    /\ (set (openaiApiKey config) = true -> openaiApiKey config = OPENAI_API_KEY)
    /\ (set (anthropicApiKey config) = true -> anthropicApiKey config = ANTHROPIC_API_KEY)
    /\ (fst (validateAIConfig config) = true <->
          set (openaiApiKey config) = true \/ set (anthropicApiKey config) = true)
    /\ (fst (validateAIConfig config) = true <->
          (exists k, OPENAI_API_KEY = Some k /\ k <> "" /\ k <> "your_openai_api_key_here")
          \/ (exists k, ANTHROPIC_API_KEY = Some k /\ k <> ""
                        /\ k <> "your_anthropic_api_key_here"))
    /\ (preferredModel config = openai <->
         set (anthropicApiKey config) = false /\ set (openaiApiKey config) = true)
    /\ (fst (validateAIConfig config) = true ->
         set (key_of config (constructor config model)) = true).
Proof.
  intros o a model. cbv zeta. unfold getAIConfig.
  destruct (usable_spec o "your_openai_api_key_here") as (Io & Ko & _).
  destruct (usable_spec a "your_anthropic_api_key_here") as (Ia & Ka & _).
  unfold validateAIConfig, constructor, key_of.
  cbn [openaiApiKey anthropicApiKey preferredModel fst].
  set (ok := usable o "your_openai_api_key_here") in *.
  set (ak := usable a "your_anthropic_api_key_here") in *.
  split; [exact Io|]. split; [exact Ia|]. split; [exact Ko|]. split; [exact Ka|].
  assert (V : (List.length
                 (if negb (set ok) && negb (set ak)
                  then ["No AI API keys configured. Please set OPENAI_API_KEY or ANTHROPIC_API_KEY"]
                  else []) =? 0)%nat = true
              <-> set ok = true \/ set ak = true).
  { destruct (set ok), (set ak); simpl; split; auto; try discriminate.
    intros [H | H]; discriminate. }
  split; [exact V|]. split; [rewrite V, Io, Ia; reflexivity|]. split.
  - destruct (set ok), (set ak); simpl; split; auto; try discriminate;
      intros (H1 & H2); discriminate.
  - rewrite V. destruct (set ok) eqn:So, (set ak) eqn:Sa; simpl;
      try (intros [H | H]; discriminate);
      intros _; destruct model as [[|]|]; simpl; rewrite ?So, ?Sa; simpl;
      first [reflexivity | exact So | exact Sa].
Qed.

End AIConfigProofs.

(* ================================================================== *)
(** * Further properties of the AI response validation                *)
(* ================================================================== *)

Module AIMore.

Import Js JsString Regex AI AIProofs.
#[local] Open Scope string_scope.
#[local] Open Scope Q_scope.

Section Facts.

Variable JSON_parse : string -> option json.
Variable Number_toString : jsnum -> string.
Variable StringToNumber : string -> jsnum.

Abbreviation ToNumber := (ToNumber Number_toString StringToNumber).
Abbreviation ensureNumber := (ensureNumber Number_toString StringToNumber).
Abbreviation parse_body := (parse_body JSON_parse Number_toString StringToNumber).
Abbreviation parseViralityAnalysis :=
  (parseViralityAnalysis JSON_parse Number_toString StringToNumber).
Abbreviation generateViralityPacks :=
  (generateViralityPacks JSON_parse Number_toString StringToNumber).

(** [ensureNumber], for [min <= max]: when [Number(value)] is NaN the
    result is the default, whatever it is; otherwise the result lies between
    [min] and [max]: a number in the range is passed on, a number above it
    and [Infinity] become [max], a number below it and [-Infinity] become
    [min]. *)
Theorem ensureNumber_clamps :
  forall (value : option json) (defaultValue min max : Q) (n : jsnum),
    min <= max ->
    ToNumber value = inr n ->
    exists r,
      ensureNumber value defaultValue min max = inr r
      /\ (n = JNaN -> r = defaultValue)
      /\ (n <> JNaN -> min <= r <= max)
      /\ (forall q, n = JFin q -> min <= q <= max -> r == q)
      /\ (forall q, n = JFin q -> max <= q -> r == max)
      /\ (forall q, n = JFin q -> q <= min -> r == min)
      /\ (n = JInf false -> r == max)
      /\ (n = JInf true -> r = min).
Proof.
  intros value d lo hi n L E.
  unfold ensureNumber, AI.ensureNumber. rewrite E. simpl bind.
  assert (Mx : Math_max lo hi == hi).
  { unfold Math_max. apply Qle_bool_iff in L. rewrite L. reflexivity. }
  destruct n as [ | [|] | q]; eexists; (split; [reflexivity|]).
  - repeat split; intros; congruence.
  - repeat split; intros; try congruence; try discriminate;
      first [apply Qle_refl | exact L].
  - repeat split; intros; try congruence; try discriminate;
      rewrite ?Mx; first [exact L | apply Qle_refl | reflexivity].
  - pose proof (Math_max_min_range lo hi q L) as (R1 & R2).
    pose proof (ScorerProofs.Math_min_Qmin hi q) as Mn.
    assert (Mq : forall x, Math_min hi q == x -> lo <= x -> Math_max lo (Math_min hi q) == x).
    { intros x Hx Lx. unfold Math_max.
      destruct (Qle_bool lo (Math_min hi q)) eqn:C; [exact Hx|].
      exfalso. assert (lo <= Math_min hi q) as D by now rewrite Hx.
      apply Qle_bool_iff in D. congruence. }
    repeat split; intros; try congruence; try discriminate; auto.
    + match goal with H : JFin q = JFin _ |- _ => injection H as <- end.
      match goal with H : _ <= _ <= _ |- _ => destruct H as (A & B) end.
      apply Mq; [|exact A]. rewrite Mn. now apply Q.min_r.
    + match goal with H : JFin q = JFin _ |- _ => injection H as <- end.
      apply Mq; [|exact L]. rewrite Mn. now apply Q.min_l.
    + match goal with H : JFin q = JFin _ |- _ => injection H as <- end.
      apply Qle_antisym; [|exact R1].
      unfold Math_max. destruct (Qle_bool lo (Math_min hi q)) eqn:C; [|apply Qle_refl].
      rewrite Mn. apply Qle_trans with q; [apply Q.le_min_r | assumption].
Qed.

(** Whatever the completion provider answers, the two overall scores
    [parseViralityAnalysis] returns lie between -1 and 1: they are clamped
    when they come from the answer, and the fallback has 0.2 and 0.6. *)
Theorem overall_scores_lie_in_the_default_range :
  forall (svc : AIService) (response : string),
    exists out,
      parseViralityAnalysis svc response = inr out
      /\ -1 <= overall_sentiment_score out <= 1
      /\ -1 <= overall_virality_potential out <= 1.
Proof.
  intros svc response.
  unfold parseViralityAnalysis, AI.parseViralityAnalysis, try_catch.
  destruct (parse_body svc response) as [e|a] eqn:B.
  - eexists. split; [reflexivity|]. repeat split; discriminate.
  - exists a. split; [reflexivity|]. unfold AI.parse_body in B.
    destruct (match0 braces_re response); [|discriminate].
    destruct (JSON_parse s) as [parsed|]; [|discriminate].
    repeat match type of B with
           | bind ?c _ = inr _ => destruct c eqn:?; simpl bind in B; [discriminate|]
           end.
    injection B as <-. simpl.
    split; eapply (ensureNumber_range Number_toString StringToNumber);
      try eassumption; try discriminate; split; discriminate.
Qed.

(** The packs of the completion provider never reach the caller of
    [generateViralityPacks]: [validateViralityPack] is handed to
    [Array.prototype.map] without its receiver and throws on every pack, the
    surrounding handlers catch that, and what is returned holds no pack or
    the one fallback pack, whatever the second call to the provider brings.
    Only a failure of the first call makes [generateViralityPacks] throw, and
    then always the same error. *)
Theorem only_the_fallback_pack_reaches_the_caller :
  forall (svc : AIService) (text : string) (second : result string),
    (forall pack, exists e, validateViralityPack Number_toString StringToNumber None pack = inl e)
    /\ (exists out,
          generateViralityPacks svc (inr text) second = inr out
          /\ (virality_packs out = [] \/ virality_packs out = [fallback_pack])
          /\ generateViralityPacks svc (inr text) (inl TypeError) = inr out)
    /\ (forall e,
          generateViralityPacks svc (inl e) second
          = inl (Error "Failed to generate AI-powered virality insights")).
Proof.
  intros svc text second.
  split; [apply validateViralityPack_detached|]. split; [|reflexivity].
  destruct (generateViralityPacks_returns JSON_parse Number_toString StringToNumber
              svc text second) as (out & add & P & A & G).
  destruct (generateViralityPacks_returns JSON_parse Number_toString StringToNumber
              svc text (inl TypeError)) as (out' & add' & P' & A' & G').
  unfold parseViralityAnalysis in *. rewrite P in P'. injection P' as <-.
  apply additional_packs_are_none in A, A'. subst add add'.
  eexists. split; [exact G|]. split; [|exact G'].
  simpl. rewrite app_nil_r.
  now apply (parsed_packs_are_fallback JSON_parse Number_toString StringToNumber svc text).
Qed.

End Facts.

Lemma ensureNumber_clamps_witness :
  exists r,
    ensureNumber (fun _ => "") (fun _ => JNaN) (Some (JNum (JFin (3 # 2)))) 0 (-1) 1 = inr r
    /\ r == 1.
Proof.
  destruct (ensureNumber_clamps (fun _ => "") (fun _ => JNaN)
              (Some (JNum (JFin (3 # 2)))) 0 (-1) 1 (JFin (3 # 2)))
    as (r & E & _ & _ & _ & Above & _); [discriminate | reflexivity |].
  exists r. split; [exact E|]. apply (Above (3 # 2)); [reflexivity | discriminate].
Defined.

End AIMore.

(* ================================================================== *)
(** * Properties of platform detection and dispatch                   *)
(* ================================================================== *)

Module ProductServiceProofs.

Import Js JsString Scraping ProductService StringFacts.
#[local] Open Scope nat_scope.
#[local] Open Scope string_scope.

Lemma length_append (a b : string) :
  String.length (a ++ b) = String.length a + String.length b.
Proof. induction a; simpl; congruence. Qed.

Lemma prefix_app_drop (a b s : string) :
  prefix (a ++ b) s = true -> prefix b (drop (String.length a) s) = true.
Proof.
  revert s. induction a as [|c a IH]; intros s H; [exact H|].
  destruct s as [|d s]; simpl in H; [discriminate|].
  destruct (ascii_dec c d); [|discriminate]. simpl. now apply IH.
Qed.

Lemma drop_drop (i n : nat) (s : string) : drop n (drop i s) = drop (i + n) s.
Proof.
  revert s. induction i as [|i IH]; intro s; [reflexivity|].
  destruct s as [|c s]; simpl; [now destruct n | apply IH].
Qed.

(** A text that includes a word includes the end of that word. *)
Lemma includes_suffix (s a b : string) :
  includes s (a ++ b) = true -> includes s b = true.
Proof.
  intro H. apply includes_occurs_at in H as (i & L & P).
  apply includes_occurs_at. exists (i + String.length a).
  pose proof (prefix_length _ _ P) as Len.
  rewrite drop_length, length_append in Len by exact L.
  split; [lia|]. rewrite <- drop_drop. now apply prefix_app_drop.
Qed.

(** [getPlatform] and the dispatch of [scrapeProduct] test the same three
    predicates in different orders.  Both fall back to the generic case
    together, in particular on a string that is not a URL; they name the same
    platform unless the TikTok Shop scraper and another one both accept the
    URL.  The test for [s.click.aliexpress.com] adds nothing to the test for
    [aliexpress.com]. *)
Theorem getPlatform_agrees_with_dispatch :
  forall (URL_parse : string -> option URL) (url : string),
    exists scraper,
      find (fun s => canHandle URL_parse s url) scrapers = Some scraper
      /\ (getPlatform URL_parse url = "external" <-> scraper = GenericExternalScraper)
      /\ (URL_parse url = None -> scraper = GenericExternalScraper)
      /\ (canHandle URL_parse TikTokShopScraper url = false
          \/ (canHandle URL_parse AmazonScraper url = false
              /\ canHandle URL_parse AliExpressScraper url = false) ->
          getPlatform URL_parse url = platform_of scraper)
      /\ canHandle URL_parse AliExpressScraper url
         = match URL_parse url with
           | Some u => includes (hostname u) "aliexpress.com"
           | None => false
           end.
Proof.
  intros URL_parse url.
  assert (X : canHandle URL_parse AliExpressScraper url
              = match URL_parse url with
                | Some u => includes (hostname u) "aliexpress.com"
                | None => false
                end).
  { simpl. destruct (URL_parse url) as [u|]; [|reflexivity].
    destruct (includes (hostname u) "aliexpress.com") eqn:A; [reflexivity|]. simpl.
    destruct (includes (hostname u) "s.click.aliexpress.com") eqn:B; [|reflexivity].
    apply (includes_suffix _ "s.click." "aliexpress.com") in B. congruence. }
  assert (N : URL_parse url = None ->
              canHandle URL_parse TikTokShopScraper url = false
              /\ canHandle URL_parse AmazonScraper url = false
              /\ canHandle URL_parse AliExpressScraper url = false).
  { intro E. simpl. now rewrite E. }
  unfold getPlatform, scrapers. cbn [find].
  destruct (canHandle URL_parse TikTokShopScraper url) eqn:T;
    destruct (canHandle URL_parse AmazonScraper url) eqn:A;
    destruct (canHandle URL_parse AliExpressScraper url) eqn:L;
    eexists; (split; [reflexivity|]);
    (split; [split; intro; discriminate || reflexivity|]);
    (split; [intro E; destruct (N E) as (? & ? & ?); congruence|]);
    (split; [|exact X]);
    intros [H | [H1 H2]]; try discriminate; reflexivity.
Qed.

(** The platform recorded when a container is created is the platform of
    the scraper that will handle the URL: [validateAndDetectPlatform] accepts
    exactly the URLs that parse with protocol [http:] or [https:], and on
    those names the platform of the first scraper of the manager that accepts
    the URL.  A rejected URL gets an error message and no platform. *)
Theorem detected_platform_is_the_dispatched_scraper :
  forall (URL_parse_full : string -> option (string * URL)) (url : string),
    (valid (validateAndDetectPlatform URL_parse_full url) = true <->
       exists protocol u,
         URL_parse_full url = Some (protocol, u)
         /\ (protocol = "http:" \/ protocol = "https:"))
    /\ (valid (validateAndDetectPlatform URL_parse_full url) = true ->
         exists scraper,
           find (fun s => canHandle (URL_parse URL_parse_full) s url) scrapers = Some scraper
           /\ platform (validateAndDetectPlatform URL_parse_full url) = platform_of scraper
           /\ detection_error (validateAndDetectPlatform URL_parse_full url) = None)
    /\ (valid (validateAndDetectPlatform URL_parse_full url) = false ->
         platform (validateAndDetectPlatform URL_parse_full url) = ""
         /\ detection_error (validateAndDetectPlatform URL_parse_full url) <> None).
Proof.
  intros URL_parse_full url.
  unfold validateAndDetectPlatform, scrapers, URL_parse. cbn [find canHandle].
  destruct (URL_parse_full url) as [[protocol u]|]; simpl.
  2:{ repeat split; try discriminate. intros (p & u & E & _). discriminate. }
  destruct (String.eqb protocol "http:") eqn:H1; simpl.
  - apply String.eqb_eq in H1.
    destruct (includes (hostname u) "tiktok.com" && includes (pathname u) "/shop/");
      [|destruct (includes (hostname u) "amazon.com" || includes (hostname u) "amzn.to");
        [|destruct (includes (hostname u) "aliexpress.com"
                    || includes (hostname u) "s.click.aliexpress.com")]];
      simpl; repeat split; eauto; try discriminate.
  - destruct (String.eqb protocol "https:") eqn:H2; simpl.
    + apply String.eqb_eq in H2.
      destruct (includes (hostname u) "tiktok.com" && includes (pathname u) "/shop/");
        [|destruct (includes (hostname u) "amazon.com" || includes (hostname u) "amzn.to");
          [|destruct (includes (hostname u) "aliexpress.com"
                      || includes (hostname u) "s.click.aliexpress.com")]];
        simpl; repeat split; eauto; try discriminate.
    + apply String.eqb_neq in H1, H2.
      repeat split; try discriminate.
      intros (p & u' & E & Hp). injection E as Ep Eu. subst p. destruct Hp; congruence.
Qed.

End ProductServiceProofs.

(* ================================================================== *)
(** * Score bands                                                     *)
(* ================================================================== *)

Module ScoreBands.

Import Binary64 JsString Regex ScriptEditor RuleEngineSpec ScoreSpec.
Import Binary64Facts ScorerProofs.
#[local] Open Scope Q_scope.

Lemma deducted_four_high (flags : list ComplianceFlag) :
  (4 <= count_severity high flags)%nat ->
  flags <> []
  /\ deducted flags 1
     <= sub (sub (sub (sub 1 (double (3 # 10))) (double (3 # 10))) (double (3 # 10)))
            (double (3 # 10)).
Proof.
  intro H. split; [intros ->; cbv in H; lia|].
  destruct (severe_prefix high 4 flags H) as (l1 & rest & E & L & F).
  apply Qle_trans with (deducted l1 1); [now apply (deducted_le_prefix _ _ _ _ E)|].
  destruct l1 as [|a [|b [|c [|d [|e l1]]]]]; try discriminate L.
  inversion F as [|? ? Ha F1]; subst. inversion F1 as [|? ? Hb F2]; subst.
  inversion F2 as [|? ? Hc F3]; subst. inversion F3 as [|? ? Hd _]; subst.
  unfold deducted. simpl.
  rewrite (weight_of a high Ha), (weight_of b high Hb), (weight_of c high Hc),
    (weight_of d high Hd).
  apply Qle_refl.
Qed.

(** The two ends of the scale.  Four or more high-severity flags always give
    the score 0.  A score of 1 does not tell that there is no flag: one
    low-severity flag on a content of 50 characters or more scores 1.  And
    the score is not 1 whenever the exact length bonus covers the exact
    deductions: two low-severity flags on a content of 100 characters, where
    both are 0.1, score 0.9999999999999999. *)
Theorem score_extremes :
  forall (flags : list ComplianceFlag) (n : nat) (f g : ComplianceFlag),
    ((4 <= count_severity high flags)%nat -> calculateComplianceScore flags n == 0)
    /\ (severity f = low -> (50 <= n)%nat -> calculateComplianceScore [f] n == 1)
    /\ (severity f = low -> severity g = low ->
        deduction [f; g] == bonus 100
        /\ calculateComplianceScore [f; g] 100 == 1 - 2 ^ (-53)
        /\ calculateComplianceScore [f; g] 100 < 1).
Proof.
  intros flags n f g. split; [|split].
  - intro H. destruct (deducted_four_high flags H) as (Ne & T).
    apply Qle_antisym; [|apply score_bounds].
    apply (score_upper flags n _ _ Ne T); by_computation.
  - intros Hf Hn. apply Qle_antisym; [apply score_bounds|].
    rewrite (score_nonempty [f] n) by discriminate.
    apply clamp01_lower; [apply Qle_refl|].
    apply Qle_trans with (add (deducted [f] 1) (lengthBonus 50)).
    + unfold deducted. simpl. rewrite (weight_of f low Hf). by_computation.
    + apply add_monotone; [apply Qle_refl | now apply lengthBonus_monotone].
  - intros Hf Hg.
    assert (E : calculateComplianceScore [f; g] 100 == 1 - 2 ^ (-53)).
    { unfold calculateComplianceScore. simpl fold_left.
      rewrite (weight_of f low Hf), (weight_of g low Hg). by_computation. }
    split; [|split; [exact E|]].
    + unfold deduction, bonus, count_q, count_severity. simpl.
      rewrite Hf, Hg. by_computation.
    + rewrite E. by_computation.
Qed.

(** The risk level bounds the score from above: a ['high'] risk goes with a
    score of at most 0.8, a ['medium'] risk with a score of at most 0.95. *)
Theorem risk_level_caps_the_score :
  forall (flags : list ComplianceFlag) (n : nat),
    calculateComplianceScore flags n <= score_ceiling (determineRiskLevel flags).
Proof.
  intros flags n.
  destruct (risk_cases flags) as [(H & ->) | [(_ & M & ->) | (_ & _ & ->)]]; simpl.
  - now apply high_condition_score.
  - now apply medium_condition_score.
  - apply score_bounds.
Qed.

End ScoreBands.

(* ================================================================== *)
(** * The matches of a platform rule, and forbidden keywords          *)
(* ================================================================== *)

Module RuleEngineOrder.

Import Js JsString Regex ScriptEditor AI RuleEngineSpec ScoreSpec ScorerProofs.
Import StringFacts RegexFacts RuleEngineProofs RuleEngineMore.
#[local] Open Scope nat_scope.
#[local] Open Scope string_scope.

Lemma successive_ordered (re : RegExp) (content : string) (from : nat)
    (ms : list Position) :
  consumes (source re) = true ->
  successive re content from ms ->
  Forall (fun m => from <= start m) ms
  /\ disjoint_in_order ms
  /\ List.length ms <= String.length content - from.
Proof.
  intros C. induction 1 as [|from i e ms L At Gap _ (Lo & (So & Ne) & Len)].
  - split; [constructor|]. split; [split; constructor|]. simpl. lia.
  - apply attempt_bounds in At as ((A1 & A2) & A3). specialize (A3 C).
    split; [|split; [split|]].
    + constructor; [exact L|]. eapply Forall_impl; [|exact Lo]. simpl. intros; lia.
    + constructor; [exact So|]. eapply Forall_impl; [|exact Lo]. simpl. intros; lia.
    + constructor; [exact A3 | exact Ne].
    + simpl. lia.
Qed.

Lemma exec_loop_fuel (re : RegExp) (content : string) :
  forall f f' i ms ms',
    exec_loop f re content i = Some ms ->
    exec_loop f' re content i = Some ms' ->
    ms = ms'.
Proof.
  induction f as [|f IH]; intros f' i ms ms' E E'; [discriminate|].
  destruct f' as [|f']; [discriminate|]. simpl in E, E'.
  destruct (exec re content i) as [[j e]|]; [|congruence].
  destruct (exec_loop f re content (next_lastIndex re i e)) as [t|] eqn:T; [|discriminate].
  destruct (exec_loop f' re content (next_lastIndex re i e)) as [t'|] eqn:T'; [|discriminate].
  injection E as <-. injection E' as <-. f_equal. exact (IH _ _ _ _ T T').
Qed.

(** The matches of a platform rule come in the order of the text, none is
    empty and no two overlap; hence a rule flags a content at most as many
    times as the content has characters.  Fuel beyond [content.length + 2]
    changes nothing. *)
Theorem platform_matches_are_disjoint_and_ordered :
  forall (content : string) (extra : nat),
    Forall (fun rule =>
              exists ms,
                findRuleMatches (String.length content + 2 + extra) content rule = Some ms
                /\ findRuleMatches (String.length content + 2) content rule = Some ms
                /\ disjoint_in_order ms
                /\ List.length ms <= String.length content)
           tosRules.
Proof.
  intros content extra. apply Forall_forall. intros rule H.
  destruct (tosRules_shape rule H) as (re & P & R & G & C).
  destruct (exec_loop_total re content G C (String.length content + 2) 0) as (ms & E);
    try lia.
  destruct (exec_loop_total re content G C (String.length content + 2 + extra) 0)
    as (ms' & E'); try lia.
  assert (Same : ms' = ms) by exact (exec_loop_fuel re content _ _ _ _ _ E' E).
  subst ms'. exists ms. unfold findRuleMatches. rewrite P, R.
  split; [exact E'|]. split; [exact E|].
  apply exec_loop_successive in E; [|exact G].
  destruct (successive_ordered re content 0 ms C E) as (_ & D & Len).
  split; [exact D | lia].
Qed.



Section Analysis.

Variable JSON_parse : string -> option json.
Variable Number_toString : jsnum -> string.
Variable StringToNumber : string -> jsnum.

Abbreviation analyzeScript :=
  (ScriptAnalysis.analyzeScript JSON_parse Number_toString StringToNumber).


End Analysis.


End RuleEngineOrder.

(* ================================================================== *)
(** * Quotes that the transformation leaves as they are               *)
(* ================================================================== *)

Module QuoteProofs.

Import JsString Regex Ingestion.
#[local] Open Scope nat_scope.
#[local] Open Scope string_scope.

Lemma replace_go_unmatched (re : RegExp) (repl : string) (s : string) :
  forall prev pos,
    search re prev s pos = None -> replace_go re repl prev s pos 0 = s.
Proof.
  induction s as [|c s IH]; intros prev pos H; simpl in *.
  - destruct (match_at re prev "" pos); [discriminate | reflexivity].
  - destruct (match_at re prev (String c s) pos); [discriminate|].
    now rewrite IH.
Qed.

Lemma replace_unmatched (re : RegExp) (repl : string) (s : string) :
  global re = true -> test re s = false -> replace re repl s = s.
Proof.
  intros G T. unfold test, exec in T. rewrite G in T. simpl in T.
  unfold replace. apply replace_go_unmatched.
  destruct (search re None s 0); [discriminate | reflexivity].
Qed.

(** A review that none of the ten expressions of [transformQuote] matches
    is quoted word for word: the text returned is the content itself, after
    the title and a colon when there is a title. *)
Theorem transformQuote_keeps_unmatched_text :
  forall (content : string) (title : option string),
    test brand_name_re content = false ->
    test all_caps_re content = false ->
    Forall (fun row => test (fst row) content = false) replacements ->
    transformQuote content title
    = match title with
      | Some t => if String.eqb t "" then content else t ++ ": " ++ content
      | None => content
      end.
Proof.
  intros content title B A R. unfold transformQuote.
  rewrite (replace_unmatched brand_name_re _ content eq_refl B).
  rewrite (replace_unmatched all_caps_re _ content eq_refl A).
  assert (E : fold_left (fun t row => replace (fst row) (snd row) t) replacements content
              = content).
  { assert (G : Forall (fun row => global (fst row) = true) replacements)
      by (repeat constructor).
    revert R G. generalize replacements as rows.
    induction rows as [|row rows IH]; intros R G; simpl; [reflexivity|].
    inversion R as [|? ? R1 R2]; subst. inversion G as [|? ? G1 G2]; subst.
    rewrite (replace_unmatched (fst row) (snd row) content G1 R1). now apply IH. }
  rewrite E. reflexivity.
Qed.

Lemma transformQuote_keeps_unmatched_text_witness :
  transformQuote "it broke after a week" (Some "Two stars")
  = "Two stars: it broke after a week".
Proof.
  apply (transformQuote_keeps_unmatched_text "it broke after a week" (Some "Two stars")).
  - vm_compute. reflexivity.
  - vm_compute. reflexivity.
  - repeat constructor.
Defined.

End QuoteProofs.
